(** * cache-service: a shallow embedding of the cache engine

    The development follows the TypeScript sources of the engine:
    - [core/lru.ts]      the size-aware LRU                ([Module LRU])
    - [core/minheap.ts]  the min-heap of expirations       ([Module MinHeap])
    - [core/errors.ts], [core/validators.ts], [core/types.ts]
    - [core/shard.ts]    the shard actor                   ([Module Shard])
    - [core/hashing.ts], [core/store.ts]  the store facade ([Module Store])
    - [middleware/errorHandler.ts], [routes/kv.ts]  the HTTP boundary
                                                           ([Module Boundary])

    Conventions.  A JavaScript [number] that counts or measures (sizes,
    counters, epoch milliseconds, seconds) is a [Z]; [Infinity] limits are
    the constructor [Infinity] of [limit]; stored numeric payloads are
    IEEE-754 doubles ([float]).  [Date.now()] and [ulid()] are inputs of
    the operation that calls them.  An optional field is an [option]; the
    JavaScript truthiness tests of the source ([x && ...], [x || y],
    [x ? a : b]) are written out with [truthyZ] and [truthyS]. *)

From Stdlib Require Import ZArith Lia Floats Ascii String.
From Stdlib Require Import Permutation Sorted.
From stdpp Require Import gmap strings list fin_maps pretty.

Local Open Scope string_scope.
Local Open Scope Z_scope.

(** ** JavaScript helpers *)

(** A [number] used as a limit: finite or [Infinity]. *)
Inductive limit : Type :=
| Fin (z : Z)
| Infinity.

(** [x > l] *)
Definition gt_limit (x : Z) (l : limit) : bool :=
  match l with
  | Fin z => z <? x
  | Infinity => false
  end.

(** [x >= l] *)
Definition ge_limit (x : Z) (l : limit) : bool :=
  match l with
  | Fin z => z <=? x
  | Infinity => false
  end.

(** [x <= l] as a proposition, for statements. *)
Definition le_limit (x : Z) (l : limit) : Prop :=
  match l with
  | Fin z => x <= z
  | Infinity => True
  end.

(** Truthiness of a number: [0] is falsy. *)
Definition truthyZ (z : Z) : bool := negb (z =? 0).

(** Truthiness of a string: the empty string is falsy. *)
Definition truthyS (s : string) : bool :=
  match s with
  | EmptyString => false
  | _ => true
  end.

(** Truthiness of an optional number ([undefined] and [0] are falsy). *)
Definition truthyOZ (o : option Z) : bool :=
  match o with
  | Some z => truthyZ z
  | None => false
  end.

(** Truthiness of an optional string ([undefined] and [''] are falsy). *)
Definition truthyOS (o : option string) : bool :=
  match o with
  | Some s => truthyS s
  | None => false
  end.

(** ** core/lru.ts *)

Module LRU.

Section WithValue.
Context {T : Type}.

(** [LRUNode<T>] without its links.  The doubly-linked list between the
    two sentinels is the list [nodes] below, read from [tail.prev] to
    [head.next]: the first element is the least recently used node, the
    last one the most recently used (the order [keys()] reports).  The
    index [cache] maps a key to its node in that list. *)
Record LRUNode : Type := mkNode {
  key : string;
  value : T;
  sizeBytes : Z
}.

Record SizeAwareLRU : Type := mkLRU {
  capacity : limit;
  maxSizeBytes : limit;
  currentSizeBytes : Z;
  size : Z;
  nodes : list LRUNode
}.

(** [new SizeAwareLRU(capacity, maxSizeBytes)] *)
Definition create (cap maxb : limit) : SizeAwareLRU :=
  mkLRU cap maxb 0 0 [].

Definition memoryBytes (l : SizeAwareLRU) : Z := currentSizeBytes l.

Definition isFull (l : SizeAwareLRU) : bool :=
  ge_limit (size l) (capacity l) || ge_limit (currentSizeBytes l) (maxSizeBytes l).

(** [this.cache.get(key)] *)
Fixpoint cache_get (k : string) (ns : list LRUNode) : option LRUNode :=
  match ns with
  | [] => None
  | n :: ns' => if String.eqb (key n) k then Some n else cache_get k ns'
  end.

Definition has (k : string) (l : SizeAwareLRU) : bool :=
  match cache_get k (nodes l) with
  | Some _ => true
  | None => false
  end.

(** [removeNode(node)]: unlink the node with this key. *)
Fixpoint removeNode (k : string) (ns : list LRUNode) : list LRUNode :=
  match ns with
  | [] => []
  | n :: ns' => if String.eqb (key n) k then ns' else n :: removeNode k ns'
  end.

(** [addToFront(node)]: link the node right after [head]. *)
Definition addToFront (n : LRUNode) (ns : list LRUNode) : list LRUNode :=
  (ns ++ [n])%list.

Definition moveToFront (n : LRUNode) (ns : list LRUNode) : list LRUNode :=
  addToFront n (removeNode (key n) ns).

(** [get(key)] *)
Definition get (k : string) (l : SizeAwareLRU) : option T * SizeAwareLRU :=
  match cache_get k (nodes l) with
  | None => (None, l)
  | Some n =>
      (Some (value n),
       mkLRU (capacity l) (maxSizeBytes l) (currentSizeBytes l) (size l)
             (moveToFront n (nodes l)))
  end.

(** [evictLRU()]: [tail.prev] is the victim; [undefined] when it is [head]. *)
Definition evictLRU (l : SizeAwareLRU) : option (T * SizeAwareLRU) :=
  match nodes l with
  | [] => None
  | lru :: rest =>
      Some (value lru,
            mkLRU (capacity l) (maxSizeBytes l)
                  (currentSizeBytes l - sizeBytes lru) (size l - 1) rest)
  end.

(** The loop condition of [set]. *)
Definition overLimits (l : SizeAwareLRU) : bool :=
  gt_limit (size l) (capacity l) || gt_limit (currentSizeBytes l) (maxSizeBytes l).

(** The eviction loop of [set]; every round unlinks one node or breaks
    (a value of [T] is never [undefined]). *)
Fixpoint evictLoop (fuel : nat) (l : SizeAwareLRU) (evicted : list T)
  : list T * SizeAwareLRU :=
  match fuel with
  | O => (evicted, l)
  | S fuel' =>
      if overLimits l then
        match evictLRU l with
        | Some (v, l') => evictLoop fuel' l' (evicted ++ [v])%list
        | None => (evicted, l)
        end
      else (evicted, l)
  end.

(** The first half of [set]: update the existing node or link a new one. *)
Definition upsert (k : string) (v : T) (sz : Z) (l : SizeAwareLRU) : SizeAwareLRU :=
  match cache_get k (nodes l) with
  | Some existingNode =>
      mkLRU (capacity l) (maxSizeBytes l)
            (currentSizeBytes l - sizeBytes existingNode + sz)
            (size l)
            (moveToFront (mkNode k v sz) (nodes l))
  | None =>
      mkLRU (capacity l) (maxSizeBytes l)
            (currentSizeBytes l + sz)
            (size l + 1)
            (addToFront (mkNode k v sz) (nodes l))
  end.

(** [set(key, value, sizeBytes)]: returns the evicted values. *)
Definition set (k : string) (v : T) (sz : Z) (l : SizeAwareLRU)
  : list T * SizeAwareLRU :=
  let l1 := upsert k v sz l in
  evictLoop (S (List.length (nodes l1))) l1 [].

(** [delete(key)] *)
Definition delete (k : string) (l : SizeAwareLRU) : bool * SizeAwareLRU :=
  match cache_get k (nodes l) with
  | None => (false, l)
  | Some n =>
      (true,
       mkLRU (capacity l) (maxSizeBytes l)
             (currentSizeBytes l - sizeBytes n) (size l - 1)
             (removeNode k (nodes l)))
  end.

(** [keys()]: least recently used first. *)
Definition keys (l : SizeAwareLRU) : list string := map key (nodes l).

(** The state after [n] successful calls of [evictLRU()]. *)
Fixpoint detach (n : nat) (l : SizeAwareLRU) : SizeAwareLRU :=
  match n with
  | O => l
  | S n' =>
      match evictLRU l with
      | Some (_, l') => detach n' l'
      | None => l
      end
  end.

(** Sum of the node sizes of the list. *)
Definition sumSizes (ns : list LRUNode) : Z :=
  fold_right (fun n acc => sizeBytes n + acc) 0 ns.

(** The representation invariant of the class: the two counters agree
    with the list, the index has one node per key, and sizes are byte
    counts. *)
Record wf (l : SizeAwareLRU) : Prop := mkWf {
  wf_size : size l = Z.of_nat (List.length (nodes l));
  wf_bytes : currentSizeBytes l = sumSizes (nodes l);
  wf_nodup : NoDup (map key (nodes l));
  wf_nonneg : Forall (fun n => 0 <= sizeBytes n) (nodes l)
}.

(** [length] *)
Definition length (l : SizeAwareLRU) : Z := size l.

(** [clear()] *)
Definition clear (l : SizeAwareLRU) : SizeAwareLRU :=
  mkLRU (capacity l) (maxSizeBytes l) 0 0 [].

(** The limits hold: the state in which [set] leaves its loop. *)
Definition withinLimits (l : SizeAwareLRU) : Prop :=
  le_limit (size l) (capacity l) /\ le_limit (currentSizeBytes l) (maxSizeBytes l).

End WithValue.

Arguments LRUNode : clear implicits.
Arguments SizeAwareLRU : clear implicits.

End LRU.

(** ** core/minheap.ts *)

Module MinHeap.

Record HeapEntry : Type := mkHeapEntry {
  key : string;
  expiresAt : Z;
  shard : Z
}.

(** The array [heap]. *)
Abbreviation t := (list HeapEntry).

(** [swap(i, j)]; every caller passes indices inside the array. *)
Definition swap (i j : nat) (heap : t) : t :=
  match heap !! i, heap !! j with
  | Some a, Some b => <[j:=a]> (<[i:=b]> heap)
  | _, _ => heap
  end.

(** [heap[i].expiresAt < heap[j].expiresAt] *)
Definition lt_at (heap : t) (i j : nat) : bool :=
  match heap !! i, heap !! j with
  | Some a, Some b => expiresAt a <? expiresAt b
  | _, _ => false
  end.

(** [heapifyUp(index)]; the parent index decreases, so [index] rounds suffice. *)
Fixpoint heapifyUp (fuel : nat) (index : nat) (heap : t) : t :=
  match fuel with
  | O => heap
  | S fuel' =>
      match index with
      | O => heap
      | S _ =>
          let parentIndex := ((index - 1) / 2)%nat in
          if lt_at heap index parentIndex
          then heapifyUp fuel' parentIndex (swap index parentIndex heap)
          else heap
      end
  end.

(** [push(entry)] *)
Definition push (entry : HeapEntry) (heap : t) : t :=
  let heap' := (heap ++ [entry])%list in
  heapifyUp (List.length heap') (List.length heap' - 1)%nat heap'.

(** [heapifyDown(index)]; the index grows, so [heap.length] rounds suffice. *)
Fixpoint heapifyDown (fuel : nat) (index : nat) (heap : t) : t :=
  match fuel with
  | O => heap
  | S fuel' =>
      let leftChild := (2 * index + 1)%nat in
      let rightChild := (2 * index + 2)%nat in
      let smallest := index in
      let smallest :=
        if (leftChild <? List.length heap)%nat && lt_at heap leftChild smallest
        then leftChild else smallest in
      let smallest :=
        if (rightChild <? List.length heap)%nat && lt_at heap rightChild smallest
        then rightChild else smallest in
      if (smallest =? index)%nat then heap
      else heapifyDown fuel' smallest (swap index smallest heap)
  end.

(** [pop()] *)
Definition pop (heap : t) : option HeapEntry * t :=
  match heap with
  | [] => (None, heap)
  | [e] => (Some e, [])
  | min :: _ =>
      let lastEntry := List.last heap min in
      let heap' := <[0%nat:=lastEntry]> (removelast heap) in
      (Some min, heapifyDown (List.length heap') 0 heap')
  end.

Definition peek (heap : t) : option HeapEntry := heap !! 0%nat.

(** The loop of [popExpired(now)]; every round pops one record. *)
Fixpoint popExpiredLoop (fuel : nat) (now : Z) (heap : t) (expired : list HeapEntry)
  : list HeapEntry * t :=
  match fuel with
  | O => (expired, heap)
  | S fuel' =>
      match heap !! 0%nat with
      | Some root =>
          if expiresAt root <=? now then
            match pop heap with
            | (Some entry, heap') => popExpiredLoop fuel' now heap' (expired ++ [entry])%list
            | (None, heap') => popExpiredLoop fuel' now heap' expired
            end
          else (expired, heap)
      | None => (expired, heap)
      end
  end.

(** [popExpired(now)] *)
Definition popExpired (now : Z) (heap : t) : list HeapEntry * t :=
  popExpiredLoop (List.length heap) now heap [].

(** [size], [isEmpty], [clear()] and [toArray()] *)
Definition size (heap : t) : Z := Z.of_nat (List.length heap).

Definition isEmpty (heap : t) : bool := (List.length heap =? 0)%nat.

Definition clear (heap : t) : t := [].

Definition toArray (heap : t) : list HeapEntry := heap.

(** The heap order of the array: no record expires before the record at
    its parent index [Math.floor((i - 1) / 2)]. *)
Definition is_heap (heap : t) : Prop :=
  forall (i : nat) (a p : HeapEntry),
    (0 < i)%nat ->
    heap !! i = Some a -> heap !! ((i - 1) / 2)%nat = Some p ->
    expiresAt p <= expiresAt a.

(** The order is broken at most between [index] and its parent: the state
    of the array inside [heapifyUp(index)]. *)
Definition up_inv (heap : t) (index : nat) : Prop :=
  (forall (j : nat) (a p : HeapEntry),
      (0 < j)%nat -> j <> index ->
      heap !! j = Some a -> heap !! ((j - 1) / 2)%nat = Some p ->
      expiresAt p <= expiresAt a)
  /\ (forall (c : nat) (a g : HeapEntry),
        (0 < index)%nat -> (0 < c)%nat -> ((c - 1) / 2)%nat = index ->
        heap !! c = Some a -> heap !! ((index - 1) / 2)%nat = Some g ->
        expiresAt g <= expiresAt a).

(** The order is broken at most between [index] and its children: the
    state of the array inside [heapifyDown(index)]. *)
Definition down_inv (heap : t) (index : nat) : Prop :=
  (forall (j : nat) (a p : HeapEntry),
      (0 < j)%nat -> ((j - 1) / 2)%nat <> index ->
      heap !! j = Some a -> heap !! ((j - 1) / 2)%nat = Some p ->
      expiresAt p <= expiresAt a)
  /\ (forall (c : nat) (a g : HeapEntry),
        (0 < index)%nat -> (0 < c)%nat -> ((c - 1) / 2)%nat = index ->
        heap !! c = Some a -> heap !! ((index - 1) / 2)%nat = Some g ->
        expiresAt g <= expiresAt a).

(** The order of two records by expiration time. *)
Definition le_expiry (a b : HeapEntry) : Prop := expiresAt a <= expiresAt b.

End MinHeap.

(** ** core/errors.ts *)

Module Errors.

Inductive ErrorCode : Type :=
| CONFLICT | NOT_FOUND | BAD_REQUEST | PAYLOAD_TOO_LARGE | UNAUTHORIZED | INTERNAL.

(** [CacheError.getStatusCode] *)
Definition getStatusCode (code : ErrorCode) : Z :=
  match code with
  | CONFLICT => 409
  | NOT_FOUND => 404
  | BAD_REQUEST => 400
  | PAYLOAD_TOO_LARGE => 413
  | UNAUTHORIZED => 401
  | INTERNAL => 500
  end.

(** A value of an [ErrorDetails] object. *)
Inductive DetailValue : Type :=
| DString (s : string)
| DNull.

(** A thrown [Error].  [code] is present exactly on instances of
    [CacheError]; [statusCode] and [retryAfter] are the properties the
    boundary reads with [(error as any)]; [hasBody] is ['body' in error]. *)
Record JsError : Type := mkError {
  name : string;
  message : string;
  code : option ErrorCode;
  details : option (list (string * DetailValue));
  statusCode : option Z;
  retryAfter : option Z;
  hasBody : bool
}.

(** [new CacheError(code, message, details)] *)
Definition CacheError (c : ErrorCode) (msg : string)
  (d : option (list (string * DetailValue))) : JsError :=
  mkError "CacheError" msg (Some c) d (Some (getStatusCode c)) None false.

Definition ConflictError (msg : string) (d : list (string * DetailValue)) : JsError :=
  CacheError CONFLICT msg (Some d).

Definition NotFoundError (msg : string) : JsError :=
  CacheError NOT_FOUND msg None.

Definition BadRequestError (msg : string) : JsError :=
  CacheError BAD_REQUEST msg None.

Definition PayloadTooLargeError (msg : string) : JsError :=
  CacheError PAYLOAD_TOO_LARGE msg None.

(** [new Error(message)] *)
Definition Error (msg : string) : JsError :=
  mkError "Error" msg None None None None false.

(** [error.details?.[field]] *)
Definition detail (field : string) (e : JsError) : option DetailValue :=
  match details e with
  | Some d => snd <$> List.find (fun p => String.eqb p.1 field) d
  | None => None
  end.

(** [isCacheError(error)] *)
Definition isCacheError (e : JsError) : bool :=
  match code e with
  | Some _ => true
  | None => false
  end.

(** The result of a call that may throw (or of a promise that may reject). *)
Inductive Outcome (A : Type) : Type :=
| Ok (a : A)
| Throw (e : JsError).

Arguments Ok {A} a.
Arguments Throw {A} e.

End Errors.

(** ** core/types.ts *)

Module Types.

Inductive ValueType : Type :=
| TString | TNumber | TBoolean | TJson | TBytes.

Definition typeName (t : ValueType) : string :=
  match t with
  | TString => "string"
  | TNumber => "number"
  | TBoolean => "boolean"
  | TJson => "json"
  | TBytes => "bytes"
  end.

(** A JavaScript value as the engine sees it ([unknown] / [CacheValue]).
    An object or array is carried as its [JSON.stringify] text and a string
    as its UTF-8 bytes.  A [Buffer], which only the ['bytes'] cases of the
    validators produce, is carried as the base64 string it decodes. *)
Inductive JsValue : Type :=
| JUndefined
| JNull
| JString (s : string)
| JNumber (f : float)
| JBoolean (b : bool)
| JObject (json : string).

(** [typeof value] *)
Definition typeof (v : JsValue) : string :=
  match v with
  | JUndefined => "undefined"
  | JNull => "object"
  | JString _ => "string"
  | JNumber _ => "number"
  | JBoolean _ => "boolean"
  | JObject _ => "object"
  end.

Record CacheEntry : Type := mkEntry {
  key : string;
  value : JsValue;
  type : ValueType;
  version : string;
  createdAt : Z;
  updatedAt : Z;
  expiresAt : option Z;
  sizeBytes : Z
}.

Inductive OpType : Type :=
| OpSet | OpDelete | OpExpire | OpEvict.

(** The [entry] field of an operation: a real entry, or the marker
    [{ delta }] that [increment] smuggles through a ['set'] operation. *)
Inductive OpEntry : Type :=
| EntryOf (e : CacheEntry)
| DeltaMarker (delta : float).

(** [ShardOperation]; the callbacks [resolve] and [reject] are the
    operation itself in the completions the dispatcher reports. *)
Record ShardOperation : Type := mkOp {
  opType : OpType;
  opKey : string;
  entry : option OpEntry;
  ifMatch : option string;
  ifNoneMatch : option bool
}.

Record ShardStats : Type := mkStats {
  entries : Z;
  memoryBytes : Z;
  hits : Z;
  misses : Z;
  sets : Z;
  deletes : Z;
  evictions : Z;
  expirations : Z
}.

End Types.

(** ** core/validators.ts *)

Module Validators.
Import Errors Types.

(** [TTLSchema = z.number().int().min(0).max(2147483647)] on an integer. *)
Definition TTLSchema (ttl : Z) : bool :=
  (0 <=? ttl) && (ttl <=? 2147483647).

(** [KeySchema = z.string().min(1).max(250)] *)
Definition KeySchema (k : string) : bool :=
  (1 <=? String.length k)%nat && (String.length k <=? 250)%nat.

(** [VersionSchema = z.string().min(1)] *)
Definition VersionSchema (v : string) : bool :=
  (1 <=? String.length v)%nat.

(** [SetRequestSchema], on a body whose [ttlSec], when present, is an
    integer: the [value] union admits strings, numbers, booleans, records
    and arrays. *)
Definition SetRequestSchema (v : JsValue) (ttlSec : option Z) : bool :=
  match v with
  | JString _ | JBoolean _ | JObject _ => true
  | JNumber f => negb (PrimFloat.is_nan f)
  | _ => false
  end &&
  match ttlSec with
  | Some t => TTLSchema t
  | None => true
  end.

(** [inferValueType(value)] *)
Definition inferValueType (v : JsValue) : ValueType :=
  match v with
  | JString _ => TString
  | JNumber f => if PrimFloat.is_finite f then TNumber else TString
  | JBoolean _ => TBoolean
  | JObject _ => TJson
  | JUndefined | JNull => TString
  end.

(** [validateValueType(value, type)] *)
Definition validateValueType (v : JsValue) (t : ValueType) : Outcome JsValue :=
  match t with
  | TString =>
      match v with
      | JString _ => Ok v
      | _ => Throw (BadRequestError ("Expected string, got " +:+ typeof v))
      end
  | TNumber =>
      match v with
      | JNumber f =>
          if PrimFloat.is_finite f then Ok v
          else Throw (BadRequestError ("Expected finite number, got " +:+ typeof v))
      | _ => Throw (BadRequestError ("Expected finite number, got " +:+ typeof v))
      end
  | TBoolean =>
      match v with
      | JBoolean _ => Ok v
      | _ => Throw (BadRequestError ("Expected boolean, got " +:+ typeof v))
      end
  | TJson =>
      match v with
      | JNull | JUndefined =>
          Throw (BadRequestError "JSON value cannot be null or undefined")
      | JObject _ => Ok v
      | _ => Throw (BadRequestError
                      ("Expected object or array for JSON type, got " +:+ typeof v))
      end
  | TBytes =>
      match v with
      | JString s => Ok (JString s)
      | _ => Throw (BadRequestError "Bytes value must be a base64 string")
      end
  end.

(** [validateInferredValue(value)] *)
Definition validateInferredValue (v : JsValue) : Outcome (JsValue * ValueType) :=
  let t := inferValueType v in
  match validateValueType v t with
  | Ok v' => Ok (v', t)
  | Throw e => Throw e
  end.

(** Number of leading ['='] of a list of characters. *)
Fixpoint leadingEq (l : list Ascii.ascii) : nat :=
  match l with
  | c :: l' => if Ascii.eqb c "="%char then S (leadingEq l') else O
  | [] => O
  end.

(** Number of trailing ['='] of a base64 text. *)
Definition padding (s : string) : nat :=
  leadingEq (rev (list_ascii_of_string s)).

(** [Buffer.from(s, 'base64').length] for padded base64 text. *)
Definition bufferLength (s : string) : Z :=
  Z.of_nat (String.length s / 4 * 3 - padding s).

(** [calculateValueSize(value, type)]; [Buffer.byteLength(s, 'utf8')] is
    the length of the UTF-8 text [s]. *)
Definition calculateValueSize (v : JsValue) (t : ValueType) : Z :=
  match t with
  | TString =>
      match v with
      | JString s => Z.of_nat (String.length s)
      | _ => 0
      end
  | TNumber => 8
  | TBoolean => 1
  | TJson =>
      match v with
      | JObject json => Z.of_nat (String.length json)
      | _ => 0
      end
  | TBytes =>
      match v with
      | JString s => bufferLength s
      | _ => 0
      end
  end.

End Validators.

(** ** core/shard.ts *)

Module Shard.
Import Errors Types.

Record CacheShard : Type := mkShard {
  shardId : Z;
  entries : gmap string CacheEntry;
  lru : LRU.SizeAwareLRU string;
  ttlHeap : MinHeap.t;
  operationQueue : list ShardOperation;
  maxItemBytes : Z;
  maxMailboxSize : Z;
  isProcessing : bool;
  stats : ShardStats
}.

Definition with_entries (m : gmap string CacheEntry) (s : CacheShard) : CacheShard :=
  mkShard (shardId s) m (lru s) (ttlHeap s) (operationQueue s)
          (maxItemBytes s) (maxMailboxSize s) (isProcessing s) (stats s).

Definition with_lru (l : LRU.SizeAwareLRU string) (s : CacheShard) : CacheShard :=
  mkShard (shardId s) (entries s) l (ttlHeap s) (operationQueue s)
          (maxItemBytes s) (maxMailboxSize s) (isProcessing s) (stats s).

Definition with_ttlHeap (h : MinHeap.t) (s : CacheShard) : CacheShard :=
  mkShard (shardId s) (entries s) (lru s) h (operationQueue s)
          (maxItemBytes s) (maxMailboxSize s) (isProcessing s) (stats s).

Definition with_operationQueue (q : list ShardOperation) (s : CacheShard) : CacheShard :=
  mkShard (shardId s) (entries s) (lru s) (ttlHeap s) q
          (maxItemBytes s) (maxMailboxSize s) (isProcessing s) (stats s).

Definition with_isProcessing (b : bool) (s : CacheShard) : CacheShard :=
  mkShard (shardId s) (entries s) (lru s) (ttlHeap s) (operationQueue s)
          (maxItemBytes s) (maxMailboxSize s) b (stats s).

Definition with_stats (st : ShardStats) (s : CacheShard) : CacheShard :=
  mkShard (shardId s) (entries s) (lru s) (ttlHeap s) (operationQueue s)
          (maxItemBytes s) (maxMailboxSize s) (isProcessing s) st.

(** [this.stats.hits++] and its siblings. *)
Definition incr_hits (st : ShardStats) : ShardStats :=
  mkStats (Types.entries st) (memoryBytes st) (hits st + 1) (misses st) (sets st)
          (deletes st) (evictions st) (expirations st).
Definition incr_misses (st : ShardStats) : ShardStats :=
  mkStats (Types.entries st) (memoryBytes st) (hits st) (misses st + 1) (sets st)
          (deletes st) (evictions st) (expirations st).
Definition incr_sets (st : ShardStats) : ShardStats :=
  mkStats (Types.entries st) (memoryBytes st) (hits st) (misses st) (sets st + 1)
          (deletes st) (evictions st) (expirations st).
Definition incr_deletes (st : ShardStats) : ShardStats :=
  mkStats (Types.entries st) (memoryBytes st) (hits st) (misses st) (sets st)
          (deletes st + 1) (evictions st) (expirations st).
Definition incr_evictions (st : ShardStats) : ShardStats :=
  mkStats (Types.entries st) (memoryBytes st) (hits st) (misses st) (sets st)
          (deletes st) (evictions st + 1) (expirations st).
Definition incr_expirations (st : ShardStats) : ShardStats :=
  mkStats (Types.entries st) (memoryBytes st) (hits st) (misses st) (sets st)
          (deletes st) (evictions st) (expirations st + 1).

Definition emptyStats : ShardStats := mkStats 0 0 0 0 0 0 0 0.

(** [memoryBudgetBytes || Infinity] *)
Definition budgetLimit (memoryBudgetBytes : option Z) : limit :=
  match memoryBudgetBytes with
  | Some b => if truthyZ b then Fin b else Infinity
  | None => Infinity
  end.

(** [new CacheShard(shardId, maxItemBytes, memoryBudgetBytes, maxMailboxSize)] *)
Definition create (shardId maxItemBytes : Z) (memoryBudgetBytes : option Z)
  (maxMailboxSize : Z) : CacheShard :=
  mkShard shardId ∅ (LRU.create Infinity (budgetLimit memoryBudgetBytes)) []
          [] maxItemBytes maxMailboxSize false emptyStats.

(** [getStats()] *)
Definition getStats (s : CacheShard) : ShardStats :=
  let st := stats s in
  mkStats (Z.of_nat (size (entries s))) (LRU.memoryBytes (lru s))
          (hits st) (misses st) (sets st) (deletes st) (evictions st) (expirations st).

(** [expiresAt && expiresAt <= now] *)
Definition expiredAt (expiresAt : option Z) (now : Z) : bool :=
  match expiresAt with
  | Some t => truthyZ t && (t <=? now)
  | None => false
  end.

(** Sum of [sizeBytes] over the entry index. *)
Definition entryBytes (m : gmap string CacheEntry) : Z :=
  fold_right (fun (kv : string * CacheEntry) acc => sizeBytes kv.2 + acc) 0
             (map_to_list m).

(** Sum of the sizes of a list of keys with sizes. *)
Definition sumSnd (l : list (string * Z)) : Z :=
  fold_right (fun p acc => p.2 + acc) 0 l.

(** The accounting invariant: the entry index and the LRU agree on the
    byte total and on the number of entries. *)
Definition accounting (s : CacheShard) : Prop :=
  entryBytes (entries s) = LRU.currentSizeBytes (lru s)
  /\ Z.of_nat (size (entries s)) = LRU.size (lru s).

(** Key by key: the index holds an entry exactly where the LRU holds a
    node, with the same size; the value of a node is its key. *)
Definition linked (s : CacheShard) : Prop :=
  LRU.wf (lru s)
  /\ Forall (fun n => LRU.value n = LRU.key n) (LRU.nodes (lru s))
  /\ forall k, sizeBytes <$> (entries s !! k)
               = LRU.sizeBytes <$> LRU.cache_get k (LRU.nodes (lru s)).

(** [deleteEntry(key)] *)
Definition deleteEntry (k : string) (s : CacheShard) : bool * CacheShard :=
  match entries s !! k with
  | None => (false, s)
  | Some _ =>
      let s1 := with_entries (delete k (entries s)) s in
      (true, with_lru (LRU.delete k (lru s1)).2 s1)
  end.

(** [get(key)], the read fast path; [now] is [Date.now()]. *)
Definition get (k : string) (now : Z) (s : CacheShard) : option CacheEntry * CacheShard :=
  match entries s !! k with
  | None => (None, with_stats (incr_misses (stats s)) s)
  | Some entry =>
      if expiredAt (expiresAt entry) now then
        let s1 := (deleteEntry k s).2 in
        let s2 := with_stats (incr_misses (stats s1)) s1 in
        (None, with_stats (incr_expirations (stats s2)) s2)
      else
        let s1 := with_lru (LRU.get k (lru s)).2 s in
        (Some entry, with_stats (incr_hits (stats s1)) s1)
  end.

(** What an executed operation resolves with. *)
Inductive OpResult : Type :=
| RSet (version : string) (expiresAt : option Z)
| RIncr (value : float) (version : string)
| RBool (b : bool).

(** [existingEntry.value as number]; an entry of type ['number'] carries a
    number. *)
Definition asNumber (v : JsValue) : float :=
  match v with
  | JNumber f => f
  | _ => PrimFloat.nan
  end.

(** [existingEntry?.createdAt || now] *)
Definition createdAtOr (existingEntry : option CacheEntry) (now : Z) : Z :=
  match existingEntry with
  | Some e => if truthyZ (createdAt e) then createdAt e else now
  | None => now
  end.

(** [executeIncrement(key, delta)]; [ver] is [ulid()]. *)
Definition executeIncrement (k : string) (delta : float) (now : Z) (ver : string)
  (s : CacheShard) : Outcome OpResult * CacheShard :=
  let existingEntry := entries s !! k in
  let check :=
    match existingEntry with
    | Some e =>
        match type e with
        | TNumber => Ok (asNumber (value e))
        | t => Throw (BadRequestError
                 ("Cannot increment non-numeric value. Key '" +:+ k +:+ "' contains "
                  +:+ typeName t +:+ " value, but increment requires a number."))
        end
    | None => Ok 0%float
    end in
  match check with
  | Throw e => (Throw e, s)
  | Ok currentValue =>
      let newValue := (currentValue + delta)%float in
      let newEntry :=
        mkEntry k (JNumber newValue) TNumber ver (createdAtOr existingEntry now) now None 8 in
      let s1 := with_entries (<[k:=newEntry]> (entries s)) s in
      let s2 := with_lru (LRU.set k k (sizeBytes newEntry) (lru s1)).2 s1 in
      let s3 := with_stats (incr_sets (stats s2)) s2 in
      (Ok (RIncr newValue (version newEntry)), s3)
  end.

(** The drain of the evicted keys in [executeSet]. *)
Definition drainEvicted (evicted : list string) (s : CacheShard) : CacheShard :=
  fold_left
    (fun acc evictedKey =>
       let acc1 := (deleteEntry evictedKey acc).2 in
       with_stats (incr_evictions (stats acc1)) acc1)
    evicted s.

(** The [ifMatch] header as a string ([undefined] reads as the falsy ['']). *)
Definition ifMatchText (op : ShardOperation) : string :=
  match ifMatch op with
  | Some m => m
  | None => EmptyString
  end.

(** [effectiveEntry?.version || null] *)
Definition actualVersion (effectiveEntry : option CacheEntry) : DetailValue :=
  match effectiveEntry with
  | Some e => if truthyS (version e) then DString (version e) else DNull
  | None => DNull
  end.

(** [effectiveEntry] of [executeSet]: the existing entry, unless it has
    expired by the clock. *)
Definition effectiveEntry (k : string) (now : Z) (s : CacheShard) : option CacheEntry :=
  let existingEntry := entries s !! k in
  let isExpired :=
    match existingEntry with
    | Some e => expiredAt (expiresAt e) now
    | None => false
    end in
  if isExpired then None else existingEntry.

(** [executeSet(operation)]; [now] is [Date.now()], [ver] is [ulid()]. *)
Definition executeSet (op : ShardOperation) (now : Z) (ver : string) (s : CacheShard)
  : Outcome OpResult * CacheShard :=
  let k := opKey op in
  match entry op with
  | Some (DeltaMarker delta) => executeIncrement k delta now ver s
  | None => (Throw (Error "Entry required for set operation"), s)
  | Some (EntryOf entry) =>
      let existingEntry := entries s !! k in
      let effectiveEntry := effectiveEntry k now s in
      if (match ifNoneMatch op with Some b => b | None => false end)
         && (match effectiveEntry with Some _ => true | None => false end)
      then (Throw (ConflictError "Key already exists" [("key", DString k)]), s)
      else if truthyOS (ifMatch op)
              && (match effectiveEntry with
                  | None => true
                  | Some e => negb (String.eqb (version e) (ifMatchText op))
                  end)
      then (Throw (ConflictError "Version mismatch"
                     [("key", DString k);
                      ("expected", DString (ifMatchText op));
                      ("actual", actualVersion effectiveEntry)]), s)
      else if maxItemBytes s <? sizeBytes entry
      then (Throw (PayloadTooLargeError
                     ("Item size " +:+ pretty (sizeBytes entry) +:+ " exceeds limit "
                      +:+ pretty (maxItemBytes s))), s)
      else
        let newEntry :=
          mkEntry (key entry) (value entry) (type entry) ver
                  (createdAtOr existingEntry now) now (expiresAt entry) (sizeBytes entry) in
        let s1 := with_entries (<[k:=newEntry]> (entries s)) s in
        let s2 := with_stats (incr_sets (stats s1)) s1 in
        let (evicted, l') := LRU.set k k (sizeBytes newEntry) (lru s2) in
        let s3 := drainEvicted evicted (with_lru l' s2) in
        let s4 :=
          match expiresAt newEntry with
          | Some t =>
              if truthyZ t
              then with_ttlHeap
                     (MinHeap.push (MinHeap.mkHeapEntry k t (shardId s3)) (ttlHeap s3)) s3
              else s3
          | None => s3
          end in
        (Ok (RSet (version newEntry) (expiresAt newEntry)), s4)
  end.

(** [executeDelete(operation)] *)
Definition executeDelete (op : ShardOperation) (s : CacheShard)
  : Outcome OpResult * CacheShard :=
  let k := opKey op in
  match entries s !! k with
  | None => (Ok (RBool false), s)
  | Some existingEntry =>
      if truthyOS (ifMatch op)
         && negb (String.eqb (version existingEntry) (ifMatchText op))
      then (Throw (ConflictError "Version mismatch"
                     [("key", DString k);
                      ("expected", DString (ifMatchText op));
                      ("actual", DString (version existingEntry))]), s)
      else
        let s1 := (deleteEntry k s).2 in
        (Ok (RBool true), with_stats (incr_deletes (stats s1)) s1)
  end.

(** [executeExpire(operation)] *)
Definition executeExpire (op : ShardOperation) (s : CacheShard)
  : Outcome OpResult * CacheShard :=
  let (b, s') := deleteEntry (opKey op) s in (Ok (RBool b), s').

(** [executeEvict(operation)] *)
Definition executeEvict (op : ShardOperation) (s : CacheShard)
  : Outcome OpResult * CacheShard :=
  let (b, s') := deleteEntry (opKey op) s in (Ok (RBool b), s').

(** [executeOperation(operation)] *)
Definition executeOperation (op : ShardOperation) (now : Z) (ver : string)
  (s : CacheShard) : Outcome OpResult * CacheShard :=
  match opType op with
  | OpSet => executeSet op now ver s
  | OpDelete => executeDelete op s
  | OpExpire => executeExpire op s
  | OpEvict => executeEvict op s
  end.

(** [operation.resolve(result)] or [operation.reject(error)]. *)
Definition Completion : Type := ShardOperation * Outcome OpResult.

(** One round of the loop of [processOperations]: take the head of the
    mailbox and execute it, then suspend at the [await]; on an empty
    mailbox leave the loop and clear [isProcessing].  The completion of
    the executed operation is reported with the round that executes it. *)
Definition dispatchNext (now : Z) (ver : string) (s : CacheShard)
  : CacheShard * list Completion :=
  match operationQueue s with
  | [] => (with_isProcessing false s, [])
  | op :: q =>
      let (r, s') := executeOperation op now ver (with_operationQueue q s) in
      (s', [(op, r)])
  end.

(** [processOperations()], up to its first [await]. *)
Definition processOperations (now : Z) (ver : string) (s : CacheShard)
  : CacheShard * list Completion :=
  if isProcessing s then (s, [])
  else dispatchNext now ver (with_isProcessing true s).

(** The continuation of [processOperations] after an [await]. *)
Definition resume (now : Z) (ver : string) (s : CacheShard)
  : CacheShard * list Completion :=
  if isProcessing s then dispatchNext now ver s else (s, []).

(** [enqueueOperation(operation)]: the admission check, then the push and
    the synchronous part of [processOperations]. *)
Definition enqueueOperation (op : ShardOperation) (now : Z) (ver : string)
  (s : CacheShard) : Outcome (CacheShard * list Completion) :=
  if maxMailboxSize s <=? Z.of_nat (List.length (operationQueue s))
  then Throw (Error "Shard mailbox full")
  else Ok (processOperations now ver
             (with_operationQueue (operationQueue s ++ [op])%list s)).

(** [createEntry(key, value, ttlSec)]; [ttlSec] counts whole seconds. *)
Definition createEntry (k : string) (v : JsValue) (ttlSec : option Z) (now : Z)
  : Outcome CacheEntry :=
  match Validators.validateInferredValue v with
  | Throw e => Throw e
  | Ok (validatedValue, t) =>
      let sizeBytes := Validators.calculateValueSize validatedValue t in
      let expiresAt :=
        match ttlSec with
        | Some ttl => if truthyZ ttl then Some (now + ttl * 1000) else None
        | None => None
        end in
      Ok (mkEntry k validatedValue t EmptyString now now expiresAt sizeBytes)
  end.

(** [set(key, value, ttlSec, ifMatch, ifNoneMatch)] *)
Definition set (k : string) (v : JsValue) (ttlSec : option Z) (ifMatch : option string)
  (ifNoneMatch : option bool) (now : Z) (ver : string) (s : CacheShard)
  : Outcome (CacheShard * list Completion) :=
  match createEntry k v ttlSec now with
  | Throw e => Throw e
  | Ok entry =>
      enqueueOperation (mkOp OpSet k (Some (EntryOf entry)) ifMatch ifNoneMatch) now ver s
  end.

(** [delete(key, ifMatch)] *)
Definition delete (k : string) (ifMatch : option string) (now : Z) (ver : string)
  (s : CacheShard) : Outcome (CacheShard * list Completion) :=
  enqueueOperation (mkOp OpDelete k None ifMatch None) now ver s.

(** [increment(key, delta)] *)
Definition increment (k : string) (delta : float) (now : Z) (ver : string)
  (s : CacheShard) : Outcome (CacheShard * list Completion) :=
  enqueueOperation (mkOp OpSet k (Some (DeltaMarker delta)) None None) now ver s.

(** [processExpirations()], the body of the sweeper tick.  The promise of
    each [enqueueOperation] is dropped: a rejection changes nothing. *)
Definition processExpirations (now : Z) (ver : string) (s : CacheShard) : CacheShard :=
  let (expired, heap') := MinHeap.popExpired now (ttlHeap s) in
  fold_left
    (fun acc (e : MinHeap.HeapEntry) =>
       match entries acc !! MinHeap.key e with
       | Some _ =>
           match enqueueOperation (mkOp OpExpire (MinHeap.key e) None None None)
                                  now ver acc with
           | Ok (acc', _) => acc'
           | Throw _ => acc
           end
       | None => acc
       end)
    expired (with_ttlHeap heap' s).

(** Every entry with an expiry has a record with its key and its expiry in
    the TTL heap. *)
Definition covered (s : CacheShard) : Prop :=
  forall k e t,
    entries s !! k = Some e -> expiresAt e = Some t -> t <> 0 ->
    exists rec, rec ∈ ttlHeap s /\ MinHeap.key rec = k /\ MinHeap.expiresAt rec = t.

(** The state of the loop of [processExpirations] after the popped records
    [done], on a shard whose entry index was [m0] when the tick began: the
    mailbox holds expire operations for keys of [done] only, the index
    lost at most keys of [done], and every key of [done] is gone already
    or has its expire operation waiting. *)
Definition sweeping (m0 : gmap string CacheEntry) (done : list MinHeap.HeapEntry)
  (acc : CacheShard) : Prop :=
  Forall (fun o => opType o = OpExpire /\ opKey o ∈ map MinHeap.key done)
         (operationQueue acc)
  /\ (List.length (operationQueue acc) <= List.length done)%nat
  /\ (forall k, entries acc !! k = m0 !! k
                \/ (entries acc !! k = None /\ k ∈ map MinHeap.key done))
  /\ (forall rec, rec ∈ done ->
                  entries acc !! MinHeap.key rec = None
                  \/ MinHeap.key rec ∈ map opKey (operationQueue acc))
  /\ (isProcessing acc = false -> operationQueue acc = []).

(** One iteration of the loop of [processExpirations]. *)
Definition sweepStep (now : Z) (ver : string) (acc : CacheShard) (e : MinHeap.HeapEntry)
  : CacheShard :=
  match entries acc !! MinHeap.key e with
  | Some _ =>
      match enqueueOperation (mkOp OpExpire (MinHeap.key e) None None None)
                             now ver acc with
      | Ok (acc', _) => acc'
      | Throw _ => acc
      end
  | None => acc
  end.

End Shard.

(** ** core/hashing.ts *)

Module Hashing.
Import Errors.

(** [ToInt32]: wrap to a signed 32-bit integer. *)
Definition toInt32 (z : Z) : Z :=
  (z + 2147483648) mod 4294967296 - 2147483648.

(** [x << 5] *)
Definition shl5 (x : Z) : Z := toInt32 (Z.shiftl (toInt32 x) 5).

(** [key.charCodeAt(i)]; keys are taken as strings of one-byte characters. *)
Definition charCode (c : Ascii.ascii) : Z := Z.of_nat (Ascii.nat_of_ascii c).

(** The loop of [simpleHash]:
    [hash = ((hash << 5) - hash + key.charCodeAt(i)) & 0x7fffffff]. *)
Fixpoint hashLoop (key : string) (hash : Z) : Z :=
  match key with
  | EmptyString => hash
  | String c rest =>
      hashLoop rest (Z.land (toInt32 (shl5 hash - hash + charCode c)) 2147483647)
  end.

(** [simpleHash(key, numShards)] *)
Definition simpleHash (key : string) (numShards : Z) : Outcome Z :=
  if numShards <=? 0 then Throw (Error "Number of shards must be positive")
  else Ok (Z.rem (hashLoop key 0) numShards).

(** [getShardForKey(key, numShards)] *)
Definition getShardForKey (key : string) (numShards : Z) : Outcome Z :=
  simpleHash key numShards.

End Hashing.

(** ** core/store.ts *)

Module Store.
Import Errors Types.

Record CacheStore : Type := mkStore {
  shards : list Shard.CacheShard;
  numShards : Z;
  maxInflight : Z;
  currentInflight : Z
}.

Definition with_shards (l : list Shard.CacheShard) (st : CacheStore) : CacheStore :=
  mkStore l (numShards st) (maxInflight st) (currentInflight st).

Definition with_currentInflight (n : Z) (st : CacheStore) : CacheStore :=
  mkStore (shards st) (numShards st) (maxInflight st) n.

(** [memoryBudgetBytes ? Math.floor(memoryBudgetBytes / numShards) : undefined] *)
Definition perShardMemoryBudget (memoryBudgetBytes : option Z) (numShards : Z) : option Z :=
  match memoryBudgetBytes with
  | Some b => if truthyZ b then Some (b / numShards) else None
  | None => None
  end.

(** [new CacheStore(numShards, maxItemBytes, memoryBudgetBytes, maxInflight,
    maxShardMailbox)] *)
Definition create (numShards maxItemBytes : Z) (memoryBudgetBytes : option Z)
  (maxInflight maxShardMailbox : Z) : CacheStore :=
  mkStore
    (map (fun i => Shard.create (Z.of_nat i) maxItemBytes
                     (perShardMemoryBudget memoryBudgetBytes numShards) maxShardMailbox)
         (seq 0 (Z.to_nat numShards)))
    numShards maxInflight 0.

(** The error thrown by [checkBackpressure()]. *)
Definition overloadedError : JsError :=
  mkError "Error" "Service overloaded" None None (Some 503) (Some 0) false.

(** [checkBackpressure()]: [Some] error when it throws. *)
Definition checkBackpressure (st : CacheStore) : option JsError :=
  if maxInflight st <=? currentInflight st then Some overloadedError else None.

(** The private [getShardForKey(key)]: the index of the owning shard. *)
Definition shardIndexFor (k : string) (st : CacheStore) : Outcome nat :=
  match Hashing.getShardForKey k (numShards st) with
  | Throw e => Throw e
  | Ok shardId =>
      if (shardId <? 0) || (numShards st <=? shardId)
         || (match shards st !! Z.to_nat shardId with Some _ => false | None => true end)
      then Throw (Error ("Invalid shard ID " +:+ pretty shardId +:+ " for key " +:+ k
                         +:+ ". NumShards: " +:+ pretty (numShards st)
                         +:+ ", Shards length: "
                         +:+ pretty (Z.of_nat (List.length (shards st)))))
      else Ok (Z.to_nat shardId)
  end.

(** The clock and the [ulid()] generator, indexed by the dispatcher round
    that reads them. *)
Definition Env : Type := nat -> Z * string.

(** Let the dispatcher of one shard run until its mailbox is empty; each
    round takes its clock reading and version from [env]. *)
Fixpoint settle (fuel : nat) (env : Env) (n : nat) (s : Shard.CacheShard)
  : Shard.CacheShard * list Shard.Completion :=
  match fuel with
  | O => (s, [])
  | S fuel' =>
      if Shard.isProcessing s then
        let (s1, cs1) := Shard.resume (env n).1 (env n).2 s in
        let (s2, cs2) := settle fuel' env (S n) s1 in
        (s2, (cs1 ++ cs2)%list)
      else (s, [])
  end.

(** [await shard.op(...)]: the outcome of the operation just admitted is
    the last completion once the dispatcher is idle again. *)
Definition awaitOp (env : Env) (r : Outcome (Shard.CacheShard * list Shard.Completion))
  (s : Shard.CacheShard) : Outcome Shard.OpResult * Shard.CacheShard :=
  match r with
  | Throw e => (Throw e, s)
  | Ok (s1, cs1) =>
      let (s2, cs2) := settle (S (S (List.length (Shard.operationQueue s1)))) env 1 s1 in
      match List.last (map Some (cs1 ++ cs2)%list) None with
      | Some (_, out) => (out, s2)
      | None => (Throw (Error "operation still pending"), s2)
      end
  end.

(** Run one mutation on the owning shard, inside the in-flight window of a
    public call: [checkBackpressure(); try { currentInflight++; ... }
    finally { currentInflight-- }]. *)
Definition onShard (k : string) (env : Env)
  (call : Shard.CacheShard -> Outcome (Shard.CacheShard * list Shard.Completion))
  (st : CacheStore) : Outcome Shard.OpResult * CacheStore :=
  match checkBackpressure st with
  | Some e => (Throw e, st)
  | None =>
      match shardIndexFor k st with
      | Throw e => (Throw e, st)
      | Ok i =>
          match shards st !! i with
          | None => (Throw (Error "Invalid shard ID"), st)
          | Some s =>
              let (out, s') := awaitOp env (call s) s in
              (out, with_shards (<[i:=s']> (shards st)) st)
          end
      end
  end.

(** [get(key)] *)
Definition get (k : string) (now : Z) (st : CacheStore)
  : Outcome (option CacheEntry) * CacheStore :=
  match checkBackpressure st with
  | Some e => (Throw e, st)
  | None =>
      match shardIndexFor k st with
      | Throw e => (Throw e, st)
      | Ok i =>
          match shards st !! i with
          | None => (Throw (Error "Invalid shard ID"), st)
          | Some s =>
              let (r, s') := Shard.get k now s in
              (Ok r, with_shards (<[i:=s']> (shards st)) st)
          end
      end
  end.

(** [set(key, value, ttlSec, ifMatch, ifNoneMatch)] *)
Definition set (k : string) (v : JsValue) (ttlSec : option Z) (ifMatch : option string)
  (ifNoneMatch : option bool) (env : Env) (st : CacheStore)
  : Outcome Shard.OpResult * CacheStore :=
  onShard k env (Shard.set k v ttlSec ifMatch ifNoneMatch (env 0%nat).1 (env 0%nat).2) st.

(** [delete(key, ifMatch)] *)
Definition delete (k : string) (ifMatch : option string) (env : Env) (st : CacheStore)
  : Outcome Shard.OpResult * CacheStore :=
  onShard k env (Shard.delete k ifMatch (env 0%nat).1 (env 0%nat).2) st.

(** [increment(key, delta)] *)
Definition increment (k : string) (delta : float) (env : Env) (st : CacheStore)
  : Outcome Shard.OpResult * CacheStore :=
  onShard k env (Shard.increment k delta (env 0%nat).1 (env 0%nat).2) st.

(** One element of [BatchSetResponse.results] or
    [BatchDeleteResponse.results]. *)
Record BatchResult : Type := mkResult {
  key : string;
  status : string;
  version : option string;
  error : option string
}.

(** The [.then] and [.catch] callbacks of [batchSet]. *)
Definition setResult (k : string) (out : Outcome Shard.OpResult) : BatchResult :=
  match out with
  | Ok (Shard.RSet v _) | Ok (Shard.RIncr _ v) => mkResult k "created" (Some v) None
  | Ok (Shard.RBool _) => mkResult k "created" None None
  | Throw e => mkResult k "error" None (Some (message e))
  end.

(** The [.then] and [.catch] callbacks of [batchDelete]. *)
Definition deleteResult (k : string) (out : Outcome Shard.OpResult) : BatchResult :=
  match out with
  | Ok (Shard.RBool false) => mkResult k "missing" None None
  | Ok _ => mkResult k "deleted" None None
  | Throw e => mkResult k "error" None (Some (message e))
  end.

(** [itemsByShard.get(shardId)!.push(item)], creating the group on first
    use; groups stay in insertion order, as in a [Map]. *)
Fixpoint addToGroup {A : Type} (shardId : Z) (x : A) (groups : list (Z * list A))
  : list (Z * list A) :=
  match groups with
  | [] => [(shardId, [x])]
  | (id, xs) :: rest =>
      if id =? shardId then (id, (xs ++ [x])%list) :: rest
      else (id, xs) :: addToGroup shardId x rest
  end.

(** The grouping loop of the batch calls. *)
Fixpoint groupByShard {A : Type} (keyOf : A -> string) (numShards : Z) (items : list A)
  (groups : list (Z * list A)) : Outcome (list (Z * list A)) :=
  match items with
  | [] => Ok groups
  | x :: rest =>
      match Hashing.getShardForKey (keyOf x) numShards with
      | Throw e => Throw e
      | Ok shardId => groupByShard keyOf numShards rest (addToGroup shardId x groups)
      end
  end.

(** The state of a batch call in progress: the shards, the number of
    dispatcher rounds so far, and [results] in the order of the pushes. *)
Record Progress : Type := mkProgress {
  pShards : list Shard.CacheShard;
  pRound : nat;
  pResults : list BatchResult
}.

(** One iteration of the inner loop of the fan-out: issue the operation
    of one item on [shards[shardId]] ([batch] has checked that the shard
    exists).  A rejected admission is caught at once; a completion pushes
    the result of the operation it completes. *)
Definition issue {A : Type} (env : Env)
  (call : A -> Z -> string -> Shard.CacheShard
          -> Outcome (Shard.CacheShard * list Shard.Completion))
  (keyOf : A -> string)
  (toResult : string -> Outcome Shard.OpResult -> BatchResult)
  (shardId : Z) (acc : Progress) (item : A) : Progress :=
  match pShards acc !! Z.to_nat shardId with
  | None => acc
  | Some s =>
      let n := pRound acc in
      match call item (env n).1 (env n).2 s with
      | Throw e =>
          mkProgress (pShards acc) (S n)
                     (pResults acc ++ [toResult (keyOf item) (Throw e)])%list
      | Ok (s', cs) =>
          mkProgress (<[Z.to_nat shardId:=s']> (pShards acc)) (S n)
                     (pResults acc
                      ++ map (fun c => toResult (opKey c.1) c.2) cs)%list
      end
  end.

(** The inner loop of the fan-out. *)
Definition fanOutGroup {A : Type} (env : Env)
  (call : A -> Z -> string -> Shard.CacheShard
          -> Outcome (Shard.CacheShard * list Shard.Completion))
  (keyOf : A -> string)
  (toResult : string -> Outcome Shard.OpResult -> BatchResult)
  (shardId : Z) (items : list A) (p : Progress) : Progress :=
  fold_left (issue env call keyOf toResult shardId) items p.

(** The outer loop of the fan-out. *)
Definition fanOut {A : Type} (env : Env)
  (call : A -> Z -> string -> Shard.CacheShard
          -> Outcome (Shard.CacheShard * list Shard.Completion))
  (keyOf : A -> string)
  (toResult : string -> Outcome Shard.OpResult -> BatchResult)
  (groups : list (Z * list A)) (p : Progress) : Progress :=
  fold_left (fun acc g => fanOutGroup env call keyOf toResult g.1 g.2 acc) groups p.

(** One turn of every suspended dispatcher, in shard order: the shards
    after the turn, the number of rounds used, and the results pushed. *)
Fixpoint resumeShards (env : Env)
  (toResult : string -> Outcome Shard.OpResult -> BatchResult)
  (n : nat) (ss : list Shard.CacheShard)
  : list Shard.CacheShard * nat * list BatchResult :=
  match ss with
  | [] => ([], n, [])
  | s :: rest =>
      if Shard.isProcessing s then
        let (s', cs) := Shard.resume (env n).1 (env n).2 s in
        let '(rest', n', rs) := resumeShards env toResult (S n) rest in
        (s' :: rest', n', (map (fun c => toResult (opKey c.1) c.2) cs ++ rs)%list)
      else
        let '(rest', n', rs) := resumeShards env toResult n rest in
        (s :: rest', n', rs)
  end.

Definition resumeAll (env : Env)
  (toResult : string -> Outcome Shard.OpResult -> BatchResult) (p : Progress) : Progress :=
  let '(ss, n, rs) := resumeShards env toResult (pRound p) (pShards p) in
  mkProgress ss n (pResults p ++ rs)%list.

(** [await Promise.all(promises)]: turns of the dispatchers until every
    mailbox is empty. *)
Fixpoint awaitAll (fuel : nat) (env : Env)
  (toResult : string -> Outcome Shard.OpResult -> BatchResult) (p : Progress) : Progress :=
  match fuel with
  | O => p
  | S fuel' =>
      if existsb Shard.isProcessing (pShards p)
      then awaitAll fuel' env toResult (resumeAll env toResult p)
      else p
  end.

(** The longest mailbox, plus the round that finds it empty. *)
Definition roundsNeeded (l : list Shard.CacheShard) : nat :=
  S (fold_right (fun s acc => Nat.max (List.length (Shard.operationQueue s)) acc) O l).

(** [new Map(keys.map((key, index) => [key, index]))]: a later index
    replaces an earlier one for the same key. *)
Definition keyOrder (keys : list string) : gmap string Z :=
  fold_left (fun m (p : string * Z) => <[p.1:=p.2]> m)
            (zip keys (map Z.of_nat (seq 0 (List.length keys)))) ∅.

(** [keyOrder.get(key) || 0] *)
Definition orderOf (order : gmap string Z) (k : string) : Z :=
  match order !! k with
  | Some i => if truthyZ i then i else 0
  | None => 0
  end.

(** Insertion of one result in front of the first result that does not
    compare smaller. *)
Fixpoint insertResult (order : gmap string Z) (r : BatchResult) (sorted : list BatchResult)
  : list BatchResult :=
  match sorted with
  | [] => [r]
  | r' :: rest =>
      if orderOf order (key r) - orderOf order (key r') <=? 0
      then r :: r' :: rest
      else r' :: insertResult order r rest
  end.

(** [results.sort((a, b) => (keyOrder.get(a.key) || 0) - (keyOrder.get(b.key) || 0))]:
    the sort is stable, so it is the stable insertion sort by that rank. *)
Definition sortResults (order : gmap string Z) (results : list BatchResult)
  : list BatchResult :=
  fold_right (insertResult order) [] results.

(** The body shared by [batchSet] and [batchDelete]. *)
Definition batch {A : Type} (env : Env)
  (call : A -> Z -> string -> Shard.CacheShard
          -> Outcome (Shard.CacheShard * list Shard.Completion))
  (keyOf : A -> string)
  (toResult : string -> Outcome Shard.OpResult -> BatchResult)
  (items : list A) (st : CacheStore) : Outcome (list BatchResult) * CacheStore :=
  match checkBackpressure st with
  | Some e => (Throw e, st)
  | None =>
      match groupByShard keyOf (numShards st) items [] with
      | Throw e => (Throw e, st)
      | Ok groups =>
          if negb (forallb (fun g : Z * list A =>
                              match shards st !! Z.to_nat g.1 with
                              | Some _ => true
                              | None => false
                              end) groups)
          then (Throw (mkError "TypeError" "Cannot read properties of undefined"
                               None None None None false), st)
          else
          let p1 := fanOut env call keyOf toResult groups (mkProgress (shards st) O []) in
          let p2 := awaitAll (roundsNeeded (pShards p1)) env toResult p1 in
          (Ok (sortResults (keyOrder (map keyOf items)) (pResults p2)),
           with_shards (pShards p2) st)
      end
  end.

(** One element of [BatchGetResponse.hits]. *)
Record BatchHit : Type := mkHit {
  hitKey : string;
  hitValue : JsValue;
  hitType : ValueType;
  hitVersion : string
}.

(** The state of a [batchGet] in progress: the shards, the number of reads
    so far (each reads the clock), [hits] and [misses] in the order of the
    pushes, and whether [this.shards[shardId]] was [undefined]. *)
Record GetProgress : Type := mkGetProgress {
  gShards : list Shard.CacheShard;
  gRound : nat;
  gHits : list BatchHit;
  gMisses : list string;
  gFailed : bool
}.

(** One iteration of the inner loop of [batchGet]: [shard.get(key)], then
    the push on [hits] or on [misses]. *)
Definition readKey (env : Env) (shardId : Z) (acc : GetProgress) (k : string)
  : GetProgress :=
  match gShards acc !! Z.to_nat shardId with
  | None => acc
  | Some s =>
      let (r, s') := Shard.get k (env (gRound acc)).1 s in
      let shards' := <[Z.to_nat shardId:=s']> (gShards acc) in
      match r with
      | Some entry =>
          mkGetProgress shards' (S (gRound acc))
            (gHits acc ++ [mkHit k (value entry) (type entry) (Types.version entry)])%list
            (gMisses acc) (gFailed acc)
      | None =>
          mkGetProgress shards' (S (gRound acc)) (gHits acc)
            (gMisses acc ++ [k])%list (gFailed acc)
      end
  end.

(** One iteration of the outer loop of [batchGet]; a group is never
    empty, so a shard that is [undefined] fails the call at its first
    key. *)
Definition readGroup (env : Env) (acc : GetProgress) (g : Z * list string)
  : GetProgress :=
  if gFailed acc then acc
  else
    match gShards acc !! Z.to_nat g.1 with
    | None => mkGetProgress (gShards acc) (gRound acc) (gHits acc) (gMisses acc) true
    | Some _ => fold_left (readKey env g.1) g.2 acc
    end.

(** [batchGet(request)]; the reads are synchronous. *)
Definition batchGet (keys : list string) (env : Env) (st : CacheStore)
  : Outcome (list BatchHit * list string) * CacheStore :=
  match checkBackpressure st with
  | Some e => (Throw e, st)
  | None =>
      match groupByShard (fun k => k) (numShards st) keys [] with
      | Throw e => (Throw e, st)
      | Ok groups =>
          let p := fold_left (readGroup env) groups
                             (mkGetProgress (shards st) O [] [] false) in
          if gFailed p
          then (Throw (mkError "TypeError" "Cannot read properties of undefined"
                               None None None None false),
                with_shards (gShards p) st)
          else (Ok (gHits p, gMisses p), with_shards (gShards p) st)
      end
  end.

(** The account of a [batchGet] in progress over the shards [shards0],
    after the keys [seen]: every key seen is a hit or a miss, the shards
    have lost entries at most, and every hit reports an entry that the
    store held under its key. *)
Definition reading (shards0 : list Shard.CacheShard) (seen : list string)
  (acc : GetProgress) : Prop :=
  Permutation (map hitKey (gHits acc) ++ gMisses acc) seen
  /\ List.length (gShards acc) = List.length shards0
  /\ gFailed acc = false
  /\ (forall i s', gShards acc !! i = Some s' ->
        exists s, shards0 !! i = Some s /\ Shard.entries s' ⊆ Shard.entries s)
  /\ Forall (fun h => exists s e,
                s ∈ shards0 /\ Shard.entries s !! hitKey h = Some e
                /\ hitValue h = value e /\ hitType h = type e
                /\ hitVersion h = Types.version e)
            (gHits acc).

(** The keys of the operations waiting in a mailbox, and of a list of
    completions. *)
Definition queuedKeys (s : Shard.CacheShard) : list string :=
  map opKey (Shard.operationQueue s).

Definition completedKeys (cs : list Shard.Completion) : list string :=
  map (fun c => opKey c.1) cs.

(** A shard with waiting operations has a dispatcher that will take them. *)
Definition attended (s : Shard.CacheShard) : Prop :=
  Shard.operationQueue s <> [] -> Shard.isProcessing s = true.

(** The keys waiting in all mailboxes. *)
Definition pending (ss : list Shard.CacheShard) : list string :=
  concat (map queuedKeys ss).

(** The account of a batch in progress: the keys of the results pushed so
    far, with the keys still waiting, are the keys issued so far. *)
Definition accounted (p : Progress) (issued : list string) : Prop :=
  Permutation (map key (pResults p) ++ pending (pShards p)) issued
  /\ Forall attended (pShards p).

(** An item of a [BatchSetRequest]. *)
Record BatchSetItem : Type := mkItem {
  itemKey : string;
  itemValue : JsValue;
  itemTtlSec : option Z
}.

(** [batchSet(request)] *)
Definition batchSet (items : list BatchSetItem) (env : Env) (st : CacheStore)
  : Outcome (list BatchResult) * CacheStore :=
  batch env
        (fun item => Shard.set (itemKey item) (itemValue item) (itemTtlSec item) None None)
        itemKey setResult items st.

(** [batchDelete(request)] *)
Definition batchDelete (keys : list string) (env : Env) (st : CacheStore)
  : Outcome (list BatchResult) * CacheStore :=
  batch env (fun k => Shard.delete k None) (fun k => k) deleteResult keys st.

End Store.

(** ** middleware/errorHandler.ts and routes/kv.ts *)

Module Boundary.
Import Errors Types.

Inductive Body : Type :=
| ErrorBody (code : string) (message : string)
| SetBody (version : string) (expiresAt : option Z)
| NoBody.

Record Response : Type := mkResponse {
  status : Z;
  headers : list (string * string);
  body : Body
}.

Definition codeName (c : ErrorCode) : string :=
  match c with
  | CONFLICT => "CONFLICT"
  | NOT_FOUND => "NOT_FOUND"
  | BAD_REQUEST => "BAD_REQUEST"
  | PAYLOAD_TOO_LARGE => "PAYLOAD_TOO_LARGE"
  | UNAUTHORIZED => "UNAUTHORIZED"
  | INTERNAL => "INTERNAL"
  end.

(** [haystack.includes(needle)] *)
Definition includes (needle haystack : string) : bool :=
  match String.index 0 needle haystack with
  | Some _ => true
  | None => false
  end.

(** [error.retryAfter || '1'] *)
Definition retryAfterHeader (e : JsError) : string :=
  match retryAfter e with
  | Some n => if truthyZ n then pretty n else "1"
  | None => "1"
  end.

(** [errorHandler(error, req, res, next)] *)
Definition errorHandler (e : JsError) : Response :=
  match code e, statusCode e with
  | Some c, Some sc => mkResponse sc [] (ErrorBody (codeName c) (message e))
  | Some c, None => mkResponse (getStatusCode c) [] (ErrorBody (codeName c) (message e))
  | None, sc =>
      if match sc with Some n => n =? 503 | None => false end then
        mkResponse 503 [("Retry-After", retryAfterHeader e)]
                   (ErrorBody "SERVICE_UNAVAILABLE" "Service temporarily overloaded")
      else if String.eqb (name e) "ZodError" || includes "validation" (message e) then
        mkResponse 400 [] (ErrorBody "BAD_REQUEST" "Invalid request data")
      else if String.eqb (name e) "SyntaxError" && hasBody e then
        mkResponse 400 [] (ErrorBody "BAD_REQUEST" "Invalid JSON in request body")
      else if String.eqb (message e) "Request timeout" then
        mkResponse 408 [] (ErrorBody "REQUEST_TIMEOUT" "Request timed out")
      else
        mkResponse 500 [] (ErrorBody "INTERNAL" "Internal server error")
  end.

(** The error a failed [Schema.parse] throws. *)
Definition ZodError (msg : string) : JsError :=
  mkError "ZodError" msg None None None None false.

(** A [PUT /v1/kv/:key] request: the path parameter, the parsed JSON body,
    [JSON.stringify(body).length], and the two conditional headers. *)
Record PutRequest : Type := mkPut {
  putKey : string;
  putValue : JsValue;
  putTtlSec : option Z;
  payloadSize : Z;
  ifMatchHeader : option string;
  ifNoneMatchHeader : option string
}.

(** The handler of [PUT /v1/kv/:key] followed by [errorHandler]. *)
Definition putRoute (maxItemBytes : Z) (req : PutRequest) (env : Store.Env)
  (st : Store.CacheStore) : Response * Store.CacheStore :=
  if negb (Validators.KeySchema (putKey req)) then
    (errorHandler (ZodError "Invalid key"), st)
  else if negb (Validators.SetRequestSchema (putValue req) (putTtlSec req)) then
    (errorHandler (ZodError "Invalid body"), st)
  else if maxItemBytes <? payloadSize req then
    (errorHandler (PayloadTooLargeError
                     ("Payload size " +:+ pretty (payloadSize req) +:+ " exceeds limit "
                      +:+ pretty maxItemBytes)), st)
  else
    let ifMatch := ifMatchHeader req in
    let ifNoneMatch :=
      match ifNoneMatchHeader req with
      | Some h => String.eqb h "*"
      | None => false
      end in
    if truthyOS ifMatch
       && negb (Validators.VersionSchema (match ifMatch with Some m => m | None => EmptyString end))
    then (errorHandler (BadRequestError "Invalid If-Match header format"), st)
    else
      match Store.get (putKey req) (env 0%nat).1 st with
      | (Throw e, st1) => (errorHandler e, st1)
      | (Ok existingEntry, st1) =>
          let isCreate := match existingEntry with Some _ => false | None => true end in
          match Store.set (putKey req) (putValue req) (putTtlSec req) ifMatch
                          (Some ifNoneMatch) env st1 with
          | (Throw e, st2) => (errorHandler e, st2)
          | (Ok result, st2) =>
              match Store.get (putKey req) (env 0%nat).1 st2 with
              | (Throw e, st3) => (errorHandler e, st3)
              | (Ok _, st3) =>
                  (mkResponse (if isCreate then 201 else 200) []
                     (match result with
                      | Shard.RSet v ex => SetBody v (if truthyOZ ex then ex else None)
                      | Shard.RIncr _ v => SetBody v None
                      | Shard.RBool _ => SetBody EmptyString None
                      end), st3)
              end
          end
      end.

(** The end of the [DELETE] handler: [204] when [store.delete] resolved
    with a truthy value, [NotFoundError] otherwise; a rejection goes to
    [errorHandler] as it is. *)
Definition deleteResponse (k : string) (out : Outcome Shard.OpResult) : Response :=
  match out with
  | Throw e => errorHandler e
  | Ok deleted =>
      if match deleted with Shard.RBool b => b | _ => true end
      then mkResponse 204 [] NoBody
      else errorHandler (NotFoundError ("Key '" +:+ k +:+ "' not found"))
  end.

(** The handler of [DELETE /v1/kv/:key] followed by [errorHandler]. *)
Definition deleteRoute (k : string) (ifMatchHeader : option string) (env : Store.Env)
  (st : Store.CacheStore) : Response * Store.CacheStore :=
  if negb (Validators.KeySchema k) then
    (errorHandler (ZodError "Invalid key"), st)
  else if truthyOS ifMatchHeader
          && negb (Validators.VersionSchema
                     (match ifMatchHeader with Some m => m | None => EmptyString end))
  then (errorHandler (BadRequestError "Invalid If-Match header format"), st)
  else
    let (out, st1) := Store.delete k ifMatchHeader env st in
    (deleteResponse k out, st1).

End Boundary.

(** ** Sample states and requests *)

Module Scenarios.
Import Errors Types.

(** A clock that starts at 1000 ms and a version generator. *)
Definition env0 : Store.Env := fun n => (1000 + Z.of_nat n, "v" +:+ pretty n).

(** [await shard.set(key, value, ttlSec)] on an idle shard: the admission,
    which executes the operation, and the turn that leaves the loop. *)
Definition put (k : string) (v : JsValue) (ttlSec : option Z) (now : Z) (ver : string)
  (s : Shard.CacheShard) : Shard.CacheShard :=
  match Shard.set k v ttlSec None None now ver s with
  | Ok (s', _) => (Shard.resume now ver s').1
  | Throw _ => s
  end.

(** [await shard.increment(key, delta)] on an idle shard. *)
Definition incr (k : string) (delta : float) (now : Z) (ver : string)
  (s : Shard.CacheShard) : Shard.CacheShard :=
  match Shard.increment k delta now ver s with
  | Ok (s', _) => (Shard.resume now ver s').1
  | Throw _ => s
  end.

(** A shard without a memory budget and a mailbox of ten. *)
Definition shard0 : Shard.CacheShard := Shard.create 0 1000 None 10.

(** [session] is set with a TTL of one second at 1000000 ms ... *)
Definition shardTtl1 : Shard.CacheShard :=
  put "session" (JString "a") (Some 1) 1000000 "v1" shard0.

(** ... and set again half a second later with a TTL of one hour ... *)
Definition shardTtlExtended : Shard.CacheShard :=
  put "session" (JString "b") (Some 3600) 1000500 "v2" shardTtl1.

(** ... or set again without a TTL. *)
Definition shardTtlRemoved : Shard.CacheShard :=
  put "session" (JString "b") None 1000500 "v2" shardTtl1.

(** A shard with a budget of ten bytes that holds one entry of eight. *)
Definition shardTenBytes : Shard.CacheShard :=
  put "a" (JString "12345678") None 1000 "v1" (Shard.create 0 1000 (Some 10) 10).

(** A counter whose TTL of one second has passed at 1002000 ms. *)
Definition shardCounter : Shard.CacheShard :=
  put "hits" (JNumber 41%float) (Some 1) 1000000 "v1" shard0.

(** The entry that [shardCounter] holds for [hits]. *)
Definition counterEntry : CacheEntry :=
  mkEntry "hits" (JNumber 41%float) TNumber "v1" 1000000 1000000 (Some 1001000) 8.

(** A shard that holds the live entry [k] with version [v1], and the
    entry of a set request for the same key. *)
Definition shardLive : Shard.CacheShard :=
  put "k" (JString "a") None 1000 "v1" shard0.

Definition entryB : CacheEntry :=
  mkEntry "k" (JString "b") TString EmptyString 2000 2000 None 1.

(** A suspended dispatcher whose mailbox of one is full. *)
Definition shardFull : Shard.CacheShard :=
  Shard.mkShard 0 ∅ (LRU.create Infinity Infinity) []
                [mkOp OpDelete "a" None None None] 1000 1 true Shard.emptyStats.

(** A store of two shards, and one whose shards admit nothing. *)
Definition store2 : Store.CacheStore := Store.create 2 1000 None 1000 1000.
Definition storeNoMailbox : Store.CacheStore := Store.create 1 1000 None 1000 0.

(** A store of one shard that holds [shardCounter]. *)
Definition storeCounter : Store.CacheStore := Store.mkStore [shardCounter] 1 1000 0.

(** The LRU of the unit tests: three entries, one hundred bytes. *)
Definition lru3 : LRU.SizeAwareLRU string := LRU.create (Fin 3) (Fin 100).

Definition run_sets (kvs : list (string * string * Z)) (l : LRU.SizeAwareLRU string)
  : LRU.SizeAwareLRU string :=
  fold_left (fun acc kv => snd (LRU.set kv.1.1 kv.1.2 kv.2 acc)) kvs l.

(** Set operations without conditions: the entry [entryB], an entry of
    sixteen bytes, and a counter with a TTL of one second. *)
Definition opSetB : ShardOperation :=
  mkOp OpSet "k" (Some (EntryOf entryB)) None None.

Definition entryBig : CacheEntry :=
  mkEntry "big" (JString "0123456789abcdef") TString EmptyString 2000 2000 None 16.

Definition opSetBig : ShardOperation :=
  mkOp OpSet "big" (Some (EntryOf entryBig)) None None.

Definition entryNum : CacheEntry :=
  mkEntry "n" (JNumber 41%float) TNumber EmptyString 2000 2000 (Some 3000) 8.

Definition opSetNum : ShardOperation :=
  mkOp OpSet "n" (Some (EntryOf entryNum)) None None.

(** A new shard with a memory budget of ten bytes. *)
Definition shardBudget : Shard.CacheShard := Shard.create 0 1000 (Some 10) 10.

(** An LRU of ten entries and fifty bytes that holds two entries. *)
Definition lruTwo : LRU.SizeAwareLRU string :=
  run_sets [("key1", "value1", 15); ("key2", "value2", 15)]
           (LRU.create (Fin 10) (Fin 50)).

(** A heap of three records pushed latest first, and a record that
    expires before all of them. *)
Definition heap3 : MinHeap.t :=
  MinHeap.push (MinHeap.mkHeapEntry "a" 10 0)
    (MinHeap.push (MinHeap.mkHeapEntry "b" 20 0)
       (MinHeap.push (MinHeap.mkHeapEntry "c" 30 0) [])).

Definition record5 : MinHeap.HeapEntry := MinHeap.mkHeapEntry "d" 5 0.

End Scenarios.

(** * Theorems *)

(** * Facts about the size-aware LRU *)

Section LRUFacts.
Context {T : Type}.
Implicit Types (l : LRU.SizeAwareLRU T) (ns : list (LRU.LRUNode T)) (k : string).

Lemma eqb_string_true (a b : string) : String.eqb a b = true <-> a = b.
Proof. apply String.eqb_eq. Qed.

Lemma eqb_string_false (a b : string) : String.eqb a b = false <-> a <> b.
Proof. apply String.eqb_neq. Qed.

Lemma cache_get_key k ns n : LRU.cache_get k ns = Some n -> LRU.key n = k.
Proof.
  induction ns as [|x ns IH]; simpl; [discriminate|].
  destruct (String.eqb (LRU.key x) k) eqn:E.
  - intros [= <-]. by apply eqb_string_true.
  - exact IH.
Qed.

Lemma cache_get_None k ns :
  LRU.cache_get k ns = None <-> ~ In k (map LRU.key ns).
Proof.
  induction ns as [|x ns IH]; simpl; [tauto|].
  destruct (String.eqb (LRU.key x) k) eqn:E.
  - apply eqb_string_true in E. split; [discriminate|tauto].
  - apply eqb_string_false in E. rewrite IH. tauto.
Qed.

Lemma cache_get_split k ns n :
  LRU.cache_get k ns = Some n ->
  exists a b, ns = (a ++ n :: b)%list /\ LRU.removeNode k ns = (a ++ b)%list
              /\ ~ In k (map LRU.key a).
Proof.
  induction ns as [|x ns IH]; simpl; [discriminate|].
  destruct (String.eqb (LRU.key x) k) eqn:E.
  - intros [= <-]. exists [], ns. simpl. tauto.
  - intros H. destruct (IH H) as (a & b & -> & Hr & Hn).
    exists (x :: a), b. simpl. rewrite Hr. apply eqb_string_false in E.
    repeat split; [done..|]. tauto.
Qed.

Lemma removeNode_absent k ns :
  LRU.cache_get k ns = None -> LRU.removeNode k ns = ns.
Proof.
  induction ns as [|x ns IH]; simpl; [done|].
  destruct (String.eqb (LRU.key x) k); [discriminate|].
  intros H. by rewrite IH.
Qed.

Lemma sumSizes_app ns1 ns2 :
  LRU.sumSizes (ns1 ++ ns2) = LRU.sumSizes ns1 + LRU.sumSizes ns2.
Proof.
  induction ns1 as [|x ns1 IH]; simpl; [done|].
  unfold LRU.sumSizes in *. simpl. rewrite IH. lia.
Qed.

Lemma sumSizes_cons (x : LRU.LRUNode T) ns :
  LRU.sumSizes (x :: ns) = LRU.sizeBytes x + LRU.sumSizes ns.
Proof. reflexivity. Qed.

Lemma sumSizes_nil : LRU.sumSizes (@nil (LRU.LRUNode T)) = 0.
Proof. reflexivity. Qed.

Lemma sumSizes_nonneg ns :
  Forall (fun n => 0 <= LRU.sizeBytes n) ns -> 0 <= LRU.sumSizes ns.
Proof.
  induction 1 as [|x ns Hx _ IH]; [done|]. rewrite sumSizes_cons. lia.
Qed.

(** After the first half of [set] the node of the key is the most recently
    used one, whether it was updated or created. *)
Lemma upsert_nodes k (v : T) sz l :
  LRU.nodes (LRU.upsert k v sz l)
  = (LRU.removeNode k (LRU.nodes l) ++ [LRU.mkNode k v sz])%list.
Proof.
  unfold LRU.upsert. destruct (LRU.cache_get k (LRU.nodes l)) eqn:E; simpl.
  - reflexivity.
  - unfold LRU.addToFront. by rewrite removeNode_absent.
Qed.

Lemma removeNode_not_in k ns :
  NoDup (map LRU.key ns) -> ~ In k (map LRU.key (LRU.removeNode k ns)).
Proof.
  intros Hnd. destruct (LRU.cache_get k ns) as [n|] eqn:E.
  - destruct (cache_get_split _ _ _ E) as (a & b & -> & -> & Hn).
    pose proof (cache_get_key _ _ _ E) as Hk.
    rewrite map_app in *. simpl in Hnd. rewrite Hk in Hnd.
    apply NoDup_app in Hnd as (_ & Hd & Hb).
    rewrite in_app_iff. intros [?|Hin]; [done|].
    apply NoDup_cons in Hb as [Hb _]. apply Hb. by apply list_elem_of_In.
  - rewrite removeNode_absent by done. by apply cache_get_None.
Qed.

Lemma upsert_wf k (v : T) sz l :
  LRU.wf l -> 0 <= sz -> LRU.wf (LRU.upsert k v sz l).
Proof.
  intros [Hs Hb Hnd Hnn] Hsz.
  pose proof (upsert_nodes k v sz l) as Hn.
  pose proof (removeNode_not_in k _ Hnd) as Hfresh.
  unfold LRU.upsert in *. destruct (LRU.cache_get k (LRU.nodes l)) as [n|] eqn:E.
  - destruct (cache_get_split _ _ _ E) as (a & b & Hl & Hr & Hna).
    simpl in Hn. rewrite Hr in Hn, Hfresh.
    split; simpl; rewrite Hn.
    + rewrite Hs, Hl. rewrite !length_app. simpl. lia.
    + rewrite Hb, Hl. rewrite !sumSizes_app, !sumSizes_cons. simpl.
      lia.
    + assert (HP : Permutation
                (map LRU.key ((a ++ b) ++ [LRU.mkNode k v sz]))
                (map LRU.key (LRU.nodes l))).
      { rewrite Hl, !map_app. simpl. rewrite (cache_get_key _ _ _ E).
        rewrite <- app_assoc. apply Permutation_app_head. symmetry.
        apply Permutation_cons_append. }
      by rewrite HP.
    + rewrite Hl in Hnn. apply Forall_app in Hnn as [Ha Hb'].
      apply Forall_cons in Hb' as [_ Hb'].
      apply Forall_app. split; [by apply Forall_app|].
      apply Forall_cons. split; [done|constructor].
  - simpl in Hn. rewrite removeNode_absent in Hfresh by done.
    split; simpl; unfold LRU.addToFront.
    + rewrite Hs, length_app. simpl. lia.
    + rewrite Hb, sumSizes_app, sumSizes_cons, sumSizes_nil. simpl. lia.
    + rewrite map_app. simpl. rewrite <- Permutation_cons_append.
      apply NoDup_cons. split; [|done].
      rewrite list_elem_of_In. by apply cache_get_None.
    + apply Forall_app. split; [done|]. apply Forall_cons. split; [done|constructor].
Qed.

Lemma detach_nodes n l : LRU.nodes (LRU.detach n l) = drop n (LRU.nodes l).
Proof.
  revert l. induction n as [|n IH]; intros l; simpl; [by rewrite drop_0|].
  unfold LRU.evictLRU. destruct (LRU.nodes l) as [|x rest] eqn:E; simpl.
  - by rewrite E.
  - by rewrite IH.
Qed.

Lemma detach_limits n l :
  LRU.capacity (LRU.detach n l) = LRU.capacity l
  /\ LRU.maxSizeBytes (LRU.detach n l) = LRU.maxSizeBytes l.
Proof.
  revert l. induction n as [|n IH]; intros l; simpl; [done|].
  unfold LRU.evictLRU. destruct (LRU.nodes l) as [|x rest]; simpl; [done|].
  destruct (IH (LRU.mkLRU (LRU.capacity l) (LRU.maxSizeBytes l)
                  (LRU.currentSizeBytes l - LRU.sizeBytes x) (LRU.size l - 1) rest))
    as [-> ->]. done.
Qed.

Lemma evictLRU_wf l (v : T) l' :
  LRU.wf l -> LRU.evictLRU l = Some (v, l') -> LRU.wf l'.
Proof.
  intros [Hs Hb Hnd Hnn]. unfold LRU.evictLRU.
  destruct (LRU.nodes l) as [|x rest] eqn:E; [discriminate|].
  intros [= <- <-]. split; simpl.
  - rewrite Hs. simpl. lia.
  - rewrite Hb, sumSizes_cons. lia.
  - simpl in Hnd. by apply NoDup_cons in Hnd as [_ ?].
  - by apply Forall_cons in Hnn as [_ ?].
Qed.

Lemma detach_wf n l : LRU.wf l -> LRU.wf (LRU.detach n l).
Proof.
  revert l. induction n as [|n IH]; intros l Hwf; simpl; [done|].
  destruct (LRU.evictLRU l) as [[v l']|] eqn:E; [|done].
  apply IH. eapply evictLRU_wf; eauto.
Qed.

Lemma detach_cons n l x rest :
  LRU.nodes l = x :: rest ->
  LRU.detach (S n) l
  = LRU.detach n (LRU.mkLRU (LRU.capacity l) (LRU.maxSizeBytes l)
                    (LRU.currentSizeBytes l - LRU.sizeBytes x) (LRU.size l - 1) rest).
Proof. intros E. simpl. unfold LRU.evictLRU. by rewrite E. Qed.

(** The eviction loop detaches the least number of tail nodes that brings
    the counters within the limits, and reports their values in order. *)
Lemma evictLoop_detach fuel l (acc : list T) :
  (length (LRU.nodes l) < fuel)%nat ->
  exists n,
    (n <= length (LRU.nodes l))%nat
    /\ LRU.evictLoop fuel l acc
       = ((acc ++ map LRU.value (take n (LRU.nodes l)))%list, LRU.detach n l)
    /\ (forall i, (i < n)%nat -> LRU.overLimits (LRU.detach i l) = true)
    /\ (LRU.overLimits (LRU.detach n l) = false \/ LRU.nodes (LRU.detach n l) = []).
Proof.
  revert l acc. induction fuel as [|fuel IH]; intros l acc Hlen; [lia|].
  simpl. destruct (LRU.overLimits l) eqn:Hover.
  - unfold LRU.evictLRU at 1. destruct (LRU.nodes l) as [|x rest] eqn:E.
    + exists O. simpl. rewrite app_nil_r. repeat split; [lia | | by right].
      intros i Hi. lia.
    + set (l' := LRU.mkLRU _ _ _ _ rest).
      destruct (IH l' (acc ++ [LRU.value x])%list) as (n & Hn & Heq & Hlt & Hex).
      { simpl in *. lia. }
      exists (S n). rewrite (detach_cons n l x rest E). fold l'.
      repeat split.
      * simpl in *. lia.
      * rewrite Heq. simpl. by rewrite <- app_assoc.
      * intros [|i] Hi; [done|]. rewrite (detach_cons i l x rest E). apply Hlt. lia.
      * exact Hex.
  - exists O. simpl. rewrite app_nil_r. repeat split; [lia | | by left].
    intros i Hi. lia.
Qed.

(** On an empty list both counters are zero, hence within non-negative
    limits; otherwise the loop condition is false. *)
Lemma within_limits l :
  LRU.wf l ->
  LRU.overLimits l = false \/ LRU.nodes l = [] ->
  le_limit 0 (LRU.capacity l) -> le_limit 0 (LRU.maxSizeBytes l) ->
  le_limit (LRU.size l) (LRU.capacity l)
  /\ le_limit (LRU.currentSizeBytes l) (LRU.maxSizeBytes l).
Proof.
  intros [Hs Hb _ _] [Hover|Hnil] Hc Hm.
  - unfold LRU.overLimits in Hover. apply orb_false_iff in Hover as [H1 H2].
    unfold gt_limit, le_limit in *.
    destruct (LRU.capacity l), (LRU.maxSizeBytes l); split; try done; lia.
  - rewrite Hnil in Hs, Hb. simpl in Hs. rewrite sumSizes_nil in Hb.
    rewrite Hs, Hb. done.
Qed.

Lemma create_wf cap maxb : LRU.wf (@LRU.create T cap maxb).
Proof. split; simpl; [done | done | constructor | constructor]. Qed.

Lemma set_detach k (v : T) sz l :
  exists n,
    (n <= length (LRU.nodes (LRU.upsert k v sz l)))%nat
    /\ LRU.set k v sz l
       = (map LRU.value (take n (LRU.nodes (LRU.upsert k v sz l))),
          LRU.detach n (LRU.upsert k v sz l))
    /\ (forall i, (i < n)%nat ->
                  LRU.overLimits (LRU.detach i (LRU.upsert k v sz l)) = true)
    /\ (LRU.overLimits (LRU.detach n (LRU.upsert k v sz l)) = false
        \/ LRU.nodes (LRU.detach n (LRU.upsert k v sz l)) = []).
Proof.
  unfold LRU.set.
  destruct (evictLoop_detach (S (length (LRU.nodes (LRU.upsert k v sz l))))
              (LRU.upsert k v sz l) []) as (n & Hn & Heq & Hlt & Hex); [lia|].
  exists n. by rewrite Heq.
Qed.

Lemma set_wf k (v : T) sz l :
  LRU.wf l -> 0 <= sz -> LRU.wf (LRU.set k v sz l).2.
Proof.
  intros Hwf Hsz. destruct (set_detach k v sz l) as (n & _ & -> & _). simpl.
  by apply detach_wf, upsert_wf.
Qed.

Lemma get_wf k l : LRU.wf l -> LRU.wf (LRU.get k l).2.
Proof.
  intros [Hs Hb Hnd Hnn]. unfold LRU.get.
  destruct (LRU.cache_get k (LRU.nodes l)) as [n|] eqn:E; simpl; [|done].
  destruct (cache_get_split _ _ _ E) as (a & b & Hl & Hr & Hna).
  pose proof (cache_get_key _ _ _ E) as Hk.
  assert (HP : Permutation (LRU.moveToFront n (LRU.nodes l)) (LRU.nodes l)).
  { unfold LRU.moveToFront, LRU.addToFront. rewrite Hk, Hr, Hl.
    rewrite <- app_assoc. apply Permutation_app_head. symmetry.
    apply Permutation_cons_append. }
  split; simpl.
  - by rewrite Hs, HP.
  - rewrite Hb. unfold LRU.moveToFront, LRU.addToFront. rewrite Hk, Hr, Hl.
    rewrite !sumSizes_app, !sumSizes_cons, sumSizes_nil. lia.
  - by rewrite HP.
  - by rewrite HP.
Qed.

Lemma delete_wf k l : LRU.wf l -> LRU.wf (LRU.delete k l).2.
Proof.
  intros [Hs Hb Hnd Hnn]. unfold LRU.delete.
  destruct (LRU.cache_get k (LRU.nodes l)) as [n|] eqn:E; simpl; [|done].
  destruct (cache_get_split _ _ _ E) as (a & b & Hl & Hr & Hna).
  split; simpl; rewrite Hr.
  - rewrite Hs, Hl, !length_app. simpl. lia.
  - rewrite Hb, Hl, !sumSizes_app, sumSizes_cons. lia.
  - rewrite Hl, !map_app in Hnd. simpl in Hnd. rewrite map_app.
    apply NoDup_app in Hnd as (Ha & Hd & Hb').
    apply NoDup_cons in Hb' as [_ Hb'].
    apply NoDup_app. repeat split; [done| |done].
    intros x Hx Hx'. apply (Hd x Hx). by right.
  - rewrite Hl in Hnn. apply Forall_app in Hnn as [Ha Hb'].
    apply Forall_cons in Hb' as [_ Hb']. by apply Forall_app.
Qed.

(** In the list that [upsert] leaves, only the last node carries the key. *)
Lemma upsert_key_last k (v : T) sz l i x :
  LRU.wf l ->
  LRU.nodes (LRU.upsert k v sz l) !! i = Some x -> LRU.key x = k ->
  drop i (LRU.nodes (LRU.upsert k v sz l)) = [LRU.mkNode k v sz].
Proof.
  intros Hwf Hi Hk. rewrite upsert_nodes in *.
  pose proof (removeNode_not_in k _ (LRU.wf_nodup _ Hwf)) as Hfresh.
  set (rem := LRU.removeNode k (LRU.nodes l)) in *.
  destruct (decide (i < length rem)%nat) as [Hlt|Hge].
  - rewrite lookup_app_l in Hi by done. exfalso. apply Hfresh.
    rewrite <- Hk. apply in_map. apply list_elem_of_In.
    by eapply list_elem_of_lookup_2.
  - assert (i = length rem) as ->.
    { apply lookup_lt_Some in Hi. rewrite length_app in Hi. simpl in Hi. lia. }
    by rewrite drop_app_length.
Qed.

(** While the new node is linked, the byte total is at least its size. *)
Lemma detach_bytes_ge k (v : T) sz l n :
  LRU.wf l -> 0 <= sz ->
  LRU.nodes (LRU.detach n (LRU.upsert k v sz l)) <> [] ->
  sz <= LRU.currentSizeBytes (LRU.detach n (LRU.upsert k v sz l)).
Proof.
  intros Hwf Hsz Hne.
  pose proof (detach_wf n _ (upsert_wf k v sz l Hwf Hsz)) as [_ Hb _ Hnn].
  rewrite Hb. rewrite detach_nodes, upsert_nodes in *.
  set (rem := LRU.removeNode k (LRU.nodes l)) in *.
  destruct (decide (n <= length rem)%nat) as [Hle|Hgt].
  - rewrite drop_app_le in * by done.
    apply Forall_app in Hnn as [Hnn _]. apply sumSizes_nonneg in Hnn.
    rewrite sumSizes_app, sumSizes_cons, sumSizes_nil. simpl. lia.
  - exfalso. apply Hne. apply drop_ge. rewrite length_app. simpl. lia.
Qed.

End LRUFacts.

(** C5.  [set(key, value, sizeBytes)] on the size-aware LRU, from a state
    that satisfies the representation invariant and with a non-negative
    size.  Writing [l1] for the state before the eviction loop:
    - an update replaces the old size by the new one in the byte total
      ([oldSize] is [0] for a new key), and the node of the key is the
      head of the list (the last element of [nodes]);
    - the loop detaches [n] nodes from the tail, reports their values in
      that order, every one of them while [size > capacity] or
      [currentSizeBytes > maxSizeBytes], and stops when the condition is
      false or the list is empty;
    - the node of the key is detached only when it is the only node left;
    - if [sizeBytes > maxSizeBytes] the new node evicts itself and the list
      ends up empty, with [size = 0];
    - on return the counters are within the (non-negative) limits, and the
      representation invariant holds again. *)
Theorem lru_set_eviction_postcondition {T : Type} (k : string) (v : T) (sz : Z)
    (l : LRU.SizeAwareLRU T) :
  LRU.wf l -> 0 <= sz ->
  let l1 := LRU.upsert k v sz l in
  let oldSize := match LRU.cache_get k (LRU.nodes l) with
                 | Some existingNode => LRU.sizeBytes existingNode
                 | None => 0
                 end in
  exists n : nat,
    let victims := take n (LRU.nodes l1) in
    let l2 := LRU.detach n l1 in
    LRU.currentSizeBytes l1 = LRU.currentSizeBytes l - oldSize + sz
    /\ LRU.nodes l1 = (LRU.removeNode k (LRU.nodes l) ++ [LRU.mkNode k v sz])%list
    /\ LRU.set k v sz l = (map LRU.value victims, l2)
    /\ LRU.nodes l1 = (victims ++ LRU.nodes l2)%list
    /\ (forall i, (i < n)%nat -> LRU.overLimits (LRU.detach i l1) = true)
    /\ (LRU.overLimits l2 = false \/ LRU.nodes l2 = [])
    /\ (forall i x, victims !! i = Some x -> LRU.key x = k ->
          LRU.nodes (LRU.detach i l1) = [LRU.mkNode k v sz] /\ LRU.nodes l2 = [])
    /\ (gt_limit sz (LRU.maxSizeBytes l) = true ->
          LRU.nodes l2 = [] /\ LRU.size l2 = 0
          /\ last (map LRU.value victims) = Some v)
    /\ (le_limit 0 (LRU.capacity l) -> le_limit 0 (LRU.maxSizeBytes l) ->
          le_limit (LRU.size l2) (LRU.capacity l)
          /\ le_limit (LRU.currentSizeBytes l2) (LRU.maxSizeBytes l))
    /\ LRU.wf l2.
Proof.
  intros Hwf Hsz l1 oldSize.
  destruct (set_detach k v sz l) as (n & Hn & Heq & Hlt & Hex).
  fold l1 in Hn, Heq, Hlt, Hex.
  pose proof (upsert_wf k v sz l Hwf Hsz) as Hwf1. fold l1 in Hwf1.
  pose proof (detach_wf n l1 Hwf1) as Hwf2.
  pose proof (detach_limits n l1) as [Hcap Hmax].
  assert (Hcap1 : LRU.capacity l1 = LRU.capacity l
                  /\ LRU.maxSizeBytes l1 = LRU.maxSizeBytes l).
  { unfold l1, LRU.upsert. by destruct (LRU.cache_get k (LRU.nodes l)). }
  destruct Hcap1 as [Hcap1 Hmax1].
  assert (Hpath : gt_limit sz (LRU.maxSizeBytes l) = true ->
                  LRU.nodes (LRU.detach n l1) = []).
  { intros Hbig. destruct Hex as [Hover|Hnil]; [|done].
    destruct (LRU.nodes (LRU.detach n l1)) eqn:E; [done|]. exfalso.
    assert (sz <= LRU.currentSizeBytes (LRU.detach n l1)) as Hge.
    { apply detach_bytes_ge; [done..|]. fold l1. by rewrite E. }
    unfold LRU.overLimits in Hover. apply orb_false_iff in Hover as [_ Hover].
    rewrite Hmax, Hmax1 in Hover. unfold gt_limit in *.
    destruct (LRU.maxSizeBytes l); [|done]. lia. }
  exists n. cbv zeta.
  split; [|split; [|split; [|split; [|split; [|split; [|split; [|split; [|split]]]]]]]].
  - unfold l1, oldSize, LRU.upsert.
    destruct (LRU.cache_get k (LRU.nodes l)); simpl; lia.
  - apply upsert_nodes.
  - exact Heq.
  - rewrite detach_nodes. by rewrite take_drop.
  - exact Hlt.
  - exact Hex.
  - intros i x [Hx Hi]%lookup_take_Some Hk.
    pose proof (upsert_key_last k v sz l i x Hwf Hx Hk) as Hd. fold l1 in Hd.
    rewrite !detach_nodes. split; [done|].
    assert (length (drop i (LRU.nodes l1)) = 1%nat) as Hlen by by rewrite Hd.
    rewrite length_drop in Hlen. apply drop_ge. lia.
  - intros Hbig. pose proof (Hpath Hbig) as Hnil.
    split; [done|]. split.
    + rewrite (LRU.wf_size _ Hwf2), Hnil. done.
    + rewrite detach_nodes in Hnil.
      assert (take n (LRU.nodes l1) = LRU.nodes l1) as ->.
      { rewrite <- (take_drop n (LRU.nodes l1)) at 2. by rewrite Hnil, app_nil_r. }
      unfold l1. rewrite upsert_nodes, map_app. simpl. by rewrite last_snoc.
  - intros Hc Hm. rewrite <- Hcap1, <- Hcap, <- Hmax1, <- Hmax.
    apply within_limits; [done|done| |].
    + by rewrite Hcap, Hcap1.
    + by rewrite Hmax, Hmax1.
  - exact Hwf2.
Qed.

(** The new node evicts itself exactly when it alone exceeds a limit: the
    capacity is below one entry, or its size is above [maxSizeBytes]. *)
Lemma lru_set_self_eviction {T : Type} (k : string) (v : T) (sz : Z)
    (l : LRU.SizeAwareLRU T) :
  LRU.wf l -> 0 <= sz ->
  LRU.nodes (LRU.set k v sz l).2 = []
  <-> gt_limit 1 (LRU.capacity l) = true \/ gt_limit sz (LRU.maxSizeBytes l) = true.
Proof.
  intros Hwf Hsz.
  destruct (set_detach k v sz l) as (n & Hn & Heq & Hlt & Hex). rewrite Heq. simpl.
  set (l1 := LRU.upsert k v sz l) in *.
  pose proof (upsert_wf k v sz l Hwf Hsz) as Hwf1. fold l1 in Hwf1.
  pose proof (upsert_nodes k v sz l) as Hn1. fold l1 in Hn1.
  assert (Hlim : forall i, LRU.capacity (LRU.detach i l1) = LRU.capacity l
                           /\ LRU.maxSizeBytes (LRU.detach i l1) = LRU.maxSizeBytes l).
  { intros i. destruct (detach_limits i l1) as [-> ->].
    unfold l1, LRU.upsert. by destruct (LRU.cache_get k (LRU.nodes l)). }
  set (rem := LRU.removeNode k (LRU.nodes l)) in *.
  split.
  - intros Hnil. rewrite detach_nodes in Hnil.
    assert (length rem < n)%nat as Hm.
    { apply (f_equal length) in Hnil. rewrite length_drop, Hn1, length_app in Hnil.
      simpl in Hnil. lia. }
    specialize (Hlt (length rem) Hm).
    pose proof (detach_wf (length rem) l1 Hwf1) as [Hs Hb _ _].
    rewrite detach_nodes, Hn1, drop_app_length in Hs, Hb.
    simpl in Hs. rewrite sumSizes_cons, sumSizes_nil in Hb. simpl in Hb.
    unfold LRU.overLimits in Hlt. destruct (Hlim (length rem)) as [Hc Hx].
    rewrite Hc, Hx, Hs, Hb in Hlt. rewrite Z.add_0_r in Hlt.
    by apply orb_true_iff in Hlt.
  - intros Hbig. destruct Hex as [Hover|Hnil]; [|done].
    destruct (LRU.nodes (LRU.detach n l1)) as [|x rest] eqn:E; [done|]. exfalso.
    assert (sz <= LRU.currentSizeBytes (LRU.detach n l1)) as Hge.
    { apply detach_bytes_ge; [done..|]. fold l1. by rewrite E. }
    pose proof (detach_wf n l1 Hwf1) as [Hs _ _ _]. rewrite E in Hs. simpl in Hs.
    unfold LRU.overLimits in Hover. apply orb_false_iff in Hover as [H1 H2].
    destruct (Hlim n) as [Hc Hx]. rewrite Hc in H1. rewrite Hx in H2.
    unfold gt_limit in *.
    destruct Hbig as [Hbig|Hbig].
    + destruct (LRU.capacity l); [|done]. lia.
    + destruct (LRU.maxSizeBytes l); [|done]. lia.
Qed.

(** ** The unit tests of the LRU, replayed on the model *)

Example lru_test_evict_by_count :
  let l := Scenarios.run_sets [("key1", "value1", 10); ("key2", "value2", 10); ("key3", "value3", 10)] Scenarios.lru3 in
  let r := LRU.set "key4" "value4" 10 l in
  r.1 = ["value1"] /\ LRU.size r.2 = 3 /\ LRU.keys r.2 = ["key2"; "key3"; "key4"].
Proof. vm_compute. auto. Qed.

Example lru_test_order_on_access :
  let l := Scenarios.run_sets [("key1", "value1", 10); ("key2", "value2", 10); ("key3", "value3", 10)] Scenarios.lru3 in
  LRU.keys (LRU.get "key1" l).2 = ["key2"; "key3"; "key1"].
Proof. vm_compute. reflexivity. Qed.

Example lru_test_evict_multiple :
  let l := Scenarios.run_sets [("key1", "value1", 15); ("key2", "value2", 15); ("key3", "value3", 15)]
                    (LRU.create (Fin 10) (Fin 50)) in
  let r := LRU.set "key4" "value4" 30 l in
  r.1 = ["value1"; "value2"] /\ LRU.memoryBytes r.2 = 45.
Proof. vm_compute. auto. Qed.

Example lru_test_zero_capacity :
  let r := LRU.set "key1" "value1" 10 (LRU.create (Fin 0) (Fin 100)) in
  r.1 = ["value1"] /\ LRU.size r.2 = 0.
Proof. vm_compute. auto. Qed.

Example lru_test_zero_memory_limit :
  let r := LRU.set "key1" "value1" 10 (LRU.create (Fin 10) (Fin 0)) in
  r.1 = ["value1"] /\ LRU.size r.2 = 0.
Proof. vm_compute. auto. Qed.

(** * The heap of expirations *)

Lemma swap_length (i j : nat) (heap : MinHeap.t) :
  length (MinHeap.swap i j heap) = length heap.
Proof.
  unfold MinHeap.swap. destruct (heap !! i), (heap !! j); try done.
  by rewrite !length_insert.
Qed.

Lemma heapifyUp_length (fuel index : nat) (heap : MinHeap.t) :
  length (MinHeap.heapifyUp fuel index heap) = length heap.
Proof.
  revert index heap. induction fuel as [|fuel IH]; intros index heap; [done|].
  simpl. destruct index; [done|]. destruct (MinHeap.lt_at _ _ _); [|done].
  by rewrite IH, swap_length.
Qed.

Lemma heapifyDown_length (fuel index : nat) (heap : MinHeap.t) :
  length (MinHeap.heapifyDown fuel index heap) = length heap.
Proof.
  revert index heap. induction fuel as [|fuel IH]; intros index heap; [done|].
  simpl. destruct (_ =? _)%nat; [done|]. by rewrite IH, swap_length.
Qed.

(** [heapifyUp] stops after at most [index] swaps: more rounds change
    nothing. *)
Lemma heapifyUp_fuel (fuel1 fuel2 index : nat) (heap : MinHeap.t) :
  (index < fuel1)%nat -> (index < fuel2)%nat ->
  MinHeap.heapifyUp fuel1 index heap = MinHeap.heapifyUp fuel2 index heap.
Proof.
  revert fuel2 index heap.
  induction fuel1 as [|fuel1 IH]; intros fuel2 index heap H1 H2; [lia|].
  destruct fuel2 as [|fuel2]; [lia|]. cbn -[Nat.div Nat.sub].
  destruct index as [|i]; [done|]. destruct (MinHeap.lt_at _ _ _); [|done].
  assert ((S i - 1) / 2 <= i)%nat.
  { replace (S i - 1)%nat with i by lia. apply Nat.Div0.div_le_upper_bound. lia. }
  apply IH; lia.
Qed.

Lemma heapifyDown_outside (fuel index : nat) (heap : MinHeap.t) :
  (length heap <= index)%nat -> MinHeap.heapifyDown fuel index heap = heap.
Proof.
  intros Hlen. destruct fuel as [|fuel]; [done|].
  cbn -[Nat.mul Nat.add Nat.ltb Nat.eqb].
  assert ((2 * index + 1 <? length heap)%nat = false) as -> by (apply Nat.ltb_ge; lia).
  assert ((2 * index + 2 <? length heap)%nat = false) as -> by (apply Nat.ltb_ge; lia).
  cbn -[Nat.mul Nat.add Nat.ltb Nat.eqb]. by rewrite Nat.eqb_refl.
Qed.

(** [heapifyDown] moves to a child inside the array: [heap.length - index]
    rounds are enough. *)
Lemma heapifyDown_fuel (fuel1 fuel2 index : nat) (heap : MinHeap.t) :
  (length heap - index <= fuel1)%nat -> (length heap - index <= fuel2)%nat ->
  MinHeap.heapifyDown fuel1 index heap = MinHeap.heapifyDown fuel2 index heap.
Proof.
  revert fuel2 index heap.
  induction fuel1 as [|fuel1 IH]; intros fuel2 index heap H1 H2.
  - rewrite (heapifyDown_outside fuel2) by lia. done.
  - destruct fuel2 as [|fuel2].
    + rewrite (heapifyDown_outside (S fuel1)) by lia. done.
    + cbn -[Nat.mul Nat.add Nat.ltb Nat.eqb].
      set (smallest1 := if ((2 * index + 1 <? length heap)%nat
                            && MinHeap.lt_at heap (2 * index + 1) index)
                        then (2 * index + 1)%nat else index).
      set (smallest := if ((2 * index + 2 <? length heap)%nat
                           && MinHeap.lt_at heap (2 * index + 2) smallest1)
                       then (2 * index + 2)%nat else smallest1).
      destruct (smallest =? index)%nat eqn:E; [done|].
      apply Nat.eqb_neq in E.
      assert (index < smallest < length heap)%nat.
      { unfold smallest, smallest1 in *.
        destruct (2 * index + 1 <? length heap)%nat eqn:E1;
          destruct (2 * index + 2 <? length heap)%nat eqn:E2;
          try apply Nat.ltb_lt in E1; try apply Nat.ltb_lt in E2;
          cbn -[Nat.mul Nat.add] in *;
          repeat (destruct (MinHeap.lt_at _ _ _)); cbn -[Nat.mul Nat.add] in *; lia. }
      apply IH; rewrite swap_length; lia.
Qed.

Lemma pop_length (heap : MinHeap.t) :
  length (MinHeap.pop heap).2 = (length heap - 1)%nat.
Proof.
  destruct heap as [|e [|e' heap]]; [done..|].
  unfold MinHeap.pop. cbn [snd]. rewrite heapifyDown_length, length_insert.
  rewrite removelast_firstn_len, length_take. simpl. lia.
Qed.

Lemma pop_root (heap : MinHeap.t) (root : MinHeap.HeapEntry) :
  heap !! 0%nat = Some root -> (MinHeap.pop heap).1 = Some root.
Proof.
  destruct heap as [|e [|e' heap]]; simpl; [done| |]; by intros [= ->].
Qed.

Lemma popExpiredLoop_expired (fuel : nat) (now : Z) (heap : MinHeap.t)
    (expired : list MinHeap.HeapEntry) :
  Forall (fun e => MinHeap.expiresAt e <= now) expired ->
  Forall (fun e => MinHeap.expiresAt e <= now)
         (MinHeap.popExpiredLoop fuel now heap expired).1.
Proof.
  revert heap expired. induction fuel as [|fuel IH]; intros heap expired Hacc; [done|].
  simpl. destruct (heap !! 0%nat) as [root|] eqn:Hroot; [|done].
  destruct (MinHeap.expiresAt root <=? now) eqn:Hle; [|done].
  pose proof (pop_root heap root Hroot) as Hpop.
  destruct (MinHeap.pop heap) as [[entry|] heap']; simpl in Hpop; [|discriminate].
  injection Hpop as ->. apply IH. apply Forall_app. split; [done|].
  apply Z.leb_le in Hle. by repeat constructor.
Qed.

Lemma popExpiredLoop_done (fuel : nat) (now : Z) (heap : MinHeap.t)
    (expired : list MinHeap.HeapEntry) :
  (length heap <= fuel)%nat ->
  match (MinHeap.popExpiredLoop fuel now heap expired).2 !! 0%nat with
  | Some root => now < MinHeap.expiresAt root
  | None => True
  end.
Proof.
  revert heap expired. induction fuel as [|fuel IH]; intros heap expired Hlen.
  - simpl. destruct heap; [done|simpl in Hlen; lia].
  - simpl. destruct (heap !! 0%nat) as [root|] eqn:Hroot; [|simpl; by rewrite ?Hroot].
    destruct (MinHeap.expiresAt root <=? now) eqn:Hle.
    + pose proof (pop_length heap) as Hpop.
      assert (0 < length heap)%nat by by eapply lookup_lt_Some.
      destruct (MinHeap.pop heap) as [[entry|] heap']; simpl in Hpop; apply IH; lia.
    + simpl. rewrite Hroot. by apply Z.leb_gt.
Qed.

(** [popExpired(now)] returns only records with [expiresAt <= now], and it
    stops on an empty heap or on a root that has not expired: the rounds
    it is given suffice. *)
Lemma popExpired_spec (now : Z) (heap : MinHeap.t) :
  Forall (fun e => MinHeap.expiresAt e <= now) (MinHeap.popExpired now heap).1
  /\ match MinHeap.peek (MinHeap.popExpired now heap).2 with
     | Some root => now < MinHeap.expiresAt root
     | None => True
     end.
Proof.
  split.
  - apply popExpiredLoop_expired. constructor.
  - by apply popExpiredLoop_done.
Qed.

(** * The shard: reads *)

Lemma expiredAt_true (o : option Z) (now : Z) :
  Shard.expiredAt o now = true <-> exists t, o = Some t /\ t <> 0 /\ t <= now.
Proof.
  unfold Shard.expiredAt, truthyZ. destruct o as [t|].
  - rewrite andb_true_iff, negb_true_iff, Z.eqb_neq, Z.leb_le.
    split; [intros [? ?]; eauto|]. by intros (? & [= <-] & ? & ?).
  - split; [done|]. by intros (? & ? & _).
Qed.

Lemma lru_delete_gone {T : Type} (k : string) (l : LRU.SizeAwareLRU T) :
  LRU.wf l -> LRU.has k (LRU.delete k l).2 = false.
Proof.
  intros Hwf. unfold LRU.has, LRU.delete.
  destruct (LRU.cache_get k (LRU.nodes l)) as [n|] eqn:E; simpl.
  - pose proof (removeNode_not_in k _ (LRU.wf_nodup _ Hwf)) as Hn.
    apply cache_get_None in Hn. by rewrite Hn.
  - by rewrite E.
Qed.

(** C3.  Lazy expiry on the read path.  If the stored entry of [key] has
    [expiresAt] set (a non-zero timestamp, the test the source makes) and
    [expiresAt <= now], then [get(key)] returns [undefined], removes the
    entry from the entry index and applies [delete] to the LRU (which
    leaves no node for the key), and increments [misses] and [expirations]
    and nothing else; the TTL heap is not consulted.  Consequently an entry
    that [get] does return has no expiry, or one later than [now]. *)
Theorem get_never_returns_expired (s : Shard.CacheShard) (k : string) (now : Z) :
  (forall e t,
      Shard.entries s !! k = Some e ->
      Types.expiresAt e = Some t -> t <> 0 -> t <= now ->
      let r := Shard.get k now s in
      r.1 = None
      /\ Shard.entries r.2 = delete k (Shard.entries s)
      /\ Shard.entries r.2 !! k = None
      /\ Shard.lru r.2 = (LRU.delete k (Shard.lru s)).2
      /\ (LRU.wf (Shard.lru s) -> LRU.has k (Shard.lru r.2) = false)
      /\ Types.misses (Shard.stats r.2) = Types.misses (Shard.stats s) + 1
      /\ Types.expirations (Shard.stats r.2) = Types.expirations (Shard.stats s) + 1
      /\ Types.hits (Shard.stats r.2) = Types.hits (Shard.stats s)
      /\ Shard.ttlHeap r.2 = Shard.ttlHeap s)
  /\ (forall e t,
         (Shard.get k now s).1 = Some e ->
         Types.expiresAt e = Some t -> t <> 0 -> now < t).
Proof.
  split.
  - intros e t He Ht Hnz Hle r.
    assert (Hexp : Shard.expiredAt (Types.expiresAt e) now = true).
    { apply expiredAt_true. eauto. }
    unfold r, Shard.get, Shard.deleteEntry. rewrite He, Hexp. simpl.
    repeat split; try reflexivity.
    + apply lookup_delete_eq.
    + intros Hwf. by apply lru_delete_gone.
  - intros e t Hget Ht Hnz. unfold Shard.get in Hget.
    destruct (Shard.entries s !! k) as [e'|] eqn:He; [|discriminate].
    destruct (Shard.expiredAt (Types.expiresAt e') now) eqn:Hexp; [discriminate|].
    simpl in Hget. injection Hget as ->.
    destruct (Z.lt_ge_cases now t) as [?|Hle]; [done|]. exfalso.
    assert (Shard.expiredAt (Types.expiresAt e) now = true) as Hyes.
    { apply expiredAt_true. eauto. }
    congruence.
Qed.

(** * The shard: mutations *)

Lemma effectiveEntry_expired (s : Shard.CacheShard) (k : string) (now : Z) e t :
  Shard.entries s !! k = Some e ->
  Types.expiresAt e = Some t -> t <> 0 -> t <= now ->
  Shard.effectiveEntry k now s = None.
Proof.
  intros He Ht Hnz Hle. unfold Shard.effectiveEntry. rewrite He.
  assert (Shard.expiredAt (Types.expiresAt e) now = true) as ->; [|done].
  apply expiredAt_true. eauto.
Qed.

Lemma effectiveEntry_absent (s : Shard.CacheShard) (k : string) (now : Z) :
  Shard.entries s !! k = None -> Shard.effectiveEntry k now s = None.
Proof. intros He. unfold Shard.effectiveEntry. by rewrite He. Qed.

Lemma effectiveEntry_Some (s : Shard.CacheShard) (k : string) (now : Z) e :
  Shard.effectiveEntry k now s = Some e <->
  Shard.entries s !! k = Some e /\ Shard.expiredAt (Types.expiresAt e) now = false.
Proof.
  unfold Shard.effectiveEntry. destruct (Shard.entries s !! k) as [e'|].
  - destruct (Shard.expiredAt (Types.expiresAt e') now) eqn:E.
    + split; [done|]. intros [[= ->] ?]. congruence.
    + split; [by intros [= ->]|]. by intros [[= ->] _].
  - split; [done|]. by intros [? _].
Qed.

Lemma truthyOS_Some (m : string) : m <> EmptyString -> truthyOS (Some m) = true.
Proof. by destruct m. Qed.

(** C4 (as amended).  [executeSet] on a real entry.  An existing entry
    that has expired by the clock is absent for the two checks.  (1) With
    [ifNoneMatch] set and the key effectively present, the set throws
    [ConflictError('Key already exists', { key })] and the shard is
    unchanged.  (2) With a non-empty [ifMatch], when check (1) does not
    fire and the key is effectively absent or its version differs, the set
    throws [ConflictError('Version mismatch', { key, expected, actual })]
    with [expected = ifMatch] and [actual] the live version or [null], and
    the shard is unchanged. *)
Theorem cas_conditional_set (op : Types.ShardOperation) (entry : Types.CacheEntry)
    (now : Z) (ver : string) (s : Shard.CacheShard) :
  Types.entry op = Some (Types.EntryOf entry) ->
  let k := Types.opKey op in
  let effective := Shard.effectiveEntry k now s in
  (forall e t, Shard.entries s !! k = Some e ->
               Types.expiresAt e = Some t -> t <> 0 -> t <= now ->
               effective = None)
  /\ (Types.ifNoneMatch op = Some true -> is_Some effective ->
      Shard.executeSet op now ver s
      = (Errors.Throw (Errors.ConflictError "Key already exists"
                         [("key", Errors.DString k)]), s))
  /\ (forall m, Types.ifMatch op = Some m -> m <> EmptyString ->
        (Types.ifNoneMatch op = Some true -> effective = None) ->
        (effective = None
         \/ exists e, effective = Some e /\ Types.version e <> m) ->
        Shard.executeSet op now ver s
        = (Errors.Throw (Errors.ConflictError "Version mismatch"
                           [("key", Errors.DString k);
                            ("expected", Errors.DString m);
                            ("actual", Shard.actualVersion effective)]), s)).
Proof.
  intros Hentry k effective. split; [|split].
  - intros e t He Ht Hnz Hle. by eapply effectiveEntry_expired.
  - intros Hnm [e He]. unfold Shard.executeSet. rewrite Hentry, Hnm.
    fold k. fold effective. by rewrite He.
  - intros m Hm Hne Hfirst Hsecond. unfold Shard.executeSet.
    rewrite Hentry. fold k. fold effective.
    assert ((match Types.ifNoneMatch op with Some b => b | None => false end)
            && (match effective with Some _ => true | None => false end) = false)
      as ->.
    { destruct (Types.ifNoneMatch op) as [[|]|]; [|done..].
      by rewrite Hfirst. }
    unfold Shard.ifMatchText. rewrite Hm, (truthyOS_Some m Hne).
    destruct Hsecond as [->|(e & -> & Hv)]; [done|].
    apply eqb_string_false in Hv. by rewrite Hv.
Qed.

(** C8.  [executeDelete] misses the expiry check of its siblings.  It
    reads neither the clock nor [expiresAt]: it returns [false], and the
    boundary answers 404 [NOT_FOUND], exactly when the key is absent from
    the entry index.  An entry that is still in the index, expired or
    not, is deleted and reported with [true] (204 at the boundary),
    provided [ifMatch] is empty or equals its version.  So for an entry
    that has expired by the clock, which [get] reports as a miss and
    which [executeSet] treats as non-existent for its conditions, the
    delete is answered with 204, or with the 409 of a version conflict
    against the expired entry, and never with 404. *)
Theorem delete_ignores_expiry (op : Types.ShardOperation) (s : Shard.CacheShard) :
  let k := Types.opKey op in
  (Shard.entries s !! k = None ->
     Shard.executeDelete op s = (Errors.Ok (Shard.RBool false), s)
     /\ Boundary.status (Boundary.deleteResponse k (Shard.executeDelete op s).1) = 404)
  /\ (forall e,
        Shard.entries s !! k = Some e ->
        truthyOS (Types.ifMatch op) = false
        \/ Types.ifMatch op = Some (Types.version e) ->
        let r := Shard.executeDelete op s in
        r.1 = Errors.Ok (Shard.RBool true)
        /\ Shard.entries r.2 = delete k (Shard.entries s)
        /\ Shard.lru r.2 = (LRU.delete k (Shard.lru s)).2
        /\ Types.deletes (Shard.stats r.2) = Types.deletes (Shard.stats s) + 1
        /\ Boundary.status (Boundary.deleteResponse k r.1) = 204)
  /\ ((Shard.executeDelete op s).1 = Errors.Ok (Shard.RBool false)
      <-> Shard.entries s !! k = None)
  /\ (forall e t now,
        Shard.entries s !! k = Some e ->
        Types.expiresAt e = Some t -> t <> 0 -> t <= now ->
        (Shard.get k now s).1 = None
        /\ Shard.effectiveEntry k now s = None
        /\ (Boundary.status (Boundary.deleteResponse k (Shard.executeDelete op s).1) = 204
            \/ Boundary.status (Boundary.deleteResponse k (Shard.executeDelete op s).1)
               = 409)).
Proof.
  intros k. split; [|split; [|split]].
  - intros He. unfold Shard.executeDelete. fold k. rewrite He. by split.
  - intros e He Hm r. unfold r, Shard.executeDelete, Shard.deleteEntry.
    fold k. rewrite He.
    assert (truthyOS (Types.ifMatch op)
            && negb (String.eqb (Types.version e) (Shard.ifMatchText op)) = false) as ->.
    { destruct Hm as [->|Hm]; [done|]. unfold Shard.ifMatchText. rewrite Hm.
      rewrite String.eqb_refl. simpl. apply andb_false_r. }
    simpl. done.
  - unfold Shard.executeDelete. fold k.
    destruct (Shard.entries s !! k) as [e|] eqn:He; [|done].
    split; [|done].
    destruct (truthyOS (Types.ifMatch op)
              && negb (String.eqb (Types.version e) (Shard.ifMatchText op)));
      discriminate.
  - intros e t now He Ht Hnz Hle.
    assert (Hexp : Shard.expiredAt (Types.expiresAt e) now = true).
    { apply expiredAt_true. eauto. }
    split; [|split].
    + unfold Shard.get. rewrite He, Hexp. done.
    + by eapply effectiveEntry_expired.
    + unfold Shard.executeDelete. fold k. rewrite He.
      destruct (truthyOS (Types.ifMatch op)
                && negb (String.eqb (Types.version e) (Shard.ifMatchText op)));
        [right|left]; reflexivity.
Qed.

(** C10.  [executeIncrement] does not look at [expiresAt].  On a key whose
    number-typed entry has expired by the clock it adds [delta] to the
    stale value, returns the sum, and stores it as an entry without
    [expiresAt], which every later [get] returns: the expired key is back
    as a permanent entry.  The set path on the same state sees no entry:
    [effectiveEntry] is [undefined] there, so a set with [ifNoneMatch]
    is not refused. *)
Theorem increment_resurrects_expired (s : Shard.CacheShard) (k : string)
    (e : Types.CacheEntry) (t : Z) (x delta : float) (now : Z) (ver : string) :
  Shard.entries s !! k = Some e ->
  Types.type e = Types.TNumber -> Types.value e = Types.JNumber x ->
  Types.expiresAt e = Some t -> t <> 0 -> t <= now ->
  let r := Shard.executeIncrement k delta now ver s in
  let newEntry :=
    Types.mkEntry k (Types.JNumber (x + delta)%float) Types.TNumber ver
                  (Shard.createdAtOr (Some e) now) now None 8 in
  r.1 = Errors.Ok (Shard.RIncr (x + delta)%float ver)
  /\ Shard.entries r.2 !! k = Some newEntry
  /\ Types.expiresAt newEntry = None
  /\ (forall later, (Shard.get k later r.2).1 = Some newEntry)
  /\ (Shard.get k now s).1 = None
  /\ Shard.effectiveEntry k now s = None
  /\ (forall op entry,
        Types.opKey op = k -> Types.entry op = Some (Types.EntryOf entry) ->
        Types.ifNoneMatch op = Some true ->
        (Shard.executeSet op now ver s).1
        <> Errors.Throw (Errors.ConflictError "Key already exists"
                           [("key", Errors.DString k)])).
Proof.
  intros He Hty Hval Ht Hnz Hle r newEntry.
  assert (Heff : Shard.effectiveEntry k now s = None).
  { by eapply effectiveEntry_expired. }
  assert (Hexp : Shard.expiredAt (Types.expiresAt e) now = true).
  { apply expiredAt_true. eauto. }
  unfold r, Shard.executeIncrement. rewrite He, Hty, Hval. simpl.
  split; [done|]. split; [apply lookup_insert_eq|]. split; [done|].
  split; [|split; [|split; [done|]]].
  - intros later. unfold Shard.get. simpl. by rewrite lookup_insert_eq.
  - unfold Shard.get. by rewrite He, Hexp.
  - intros op entry Hk Hentry Hnm. unfold Shard.executeSet.
    rewrite Hentry, Hnm, Hk, Heff. simpl.
    destruct (truthyOS (Types.ifMatch op)); simpl; [discriminate|].
    destruct (Shard.maxItemBytes s <? Types.sizeBytes entry); simpl; [discriminate|].
    destruct (LRU.set _ _ _ _). discriminate.
Qed.

(** * The accounting invariant on the paths that keep it *)

Section IndexFacts.
Context {T : Type}.
Implicit Types (ns : list (LRU.LRUNode T)) (k : string).

Lemma cache_get_Some_iff k ns n :
  NoDup (map LRU.key ns) ->
  LRU.cache_get k ns = Some n <-> In n ns /\ LRU.key n = k.
Proof.
  intros Hnd. split.
  - intros H. split; [|by eapply cache_get_key].
    destruct (cache_get_split _ _ _ H) as (a & b & -> & _). apply in_elt.
  - intros [Hin Hk]. induction ns as [|x ns IH]; [done|]. simpl in *.
    apply NoDup_cons in Hnd as [Hx Hnd].
    destruct (String.eqb (LRU.key x) k) eqn:E.
    + apply eqb_string_true in E. destruct Hin as [->|Hin]; [done|].
      exfalso. apply Hx. rewrite E, <- Hk. apply list_elem_of_In. by apply in_map.
    + apply eqb_string_false in E. destruct Hin as [->|Hin]; [done|]. by apply IH.
Qed.

(** Under distinct keys the index does not depend on the list order. *)
Lemma cache_get_perm k ns ns' :
  NoDup (map LRU.key ns) -> Permutation ns ns' ->
  LRU.cache_get k ns = LRU.cache_get k ns'.
Proof.
  intros Hnd HP.
  assert (Hnd' : NoDup (map LRU.key ns')) by by rewrite <- HP.
  destruct (LRU.cache_get k ns) as [n|] eqn:E.
  - symmetry. apply cache_get_Some_iff; [done|].
    apply cache_get_Some_iff in E as [Hin Hk]; [|done].
    split; [|done]. eapply Permutation_in; eauto.
  - symmetry. apply cache_get_None. apply cache_get_None in E.
    intros Hin. apply E. eapply Permutation_in; [|exact Hin].
    apply Permutation_map. by symmetry.
Qed.

Lemma cache_get_removeNode_eq k ns :
  NoDup (map LRU.key ns) -> LRU.cache_get k (LRU.removeNode k ns) = None.
Proof. intros Hnd. by apply cache_get_None, removeNode_not_in. Qed.

Lemma cache_get_removeNode_ne k k' ns :
  k <> k' -> LRU.cache_get k' (LRU.removeNode k ns) = LRU.cache_get k' ns.
Proof.
  intros Hne. induction ns as [|x ns IH]; simpl; [done|].
  destruct (String.eqb (LRU.key x) k) eqn:E; simpl.
  - apply eqb_string_true in E.
    assert (String.eqb (LRU.key x) k' = false) as ->; [|done].
    apply eqb_string_false. congruence.
  - by rewrite IH.
Qed.

Lemma cache_get_app k ns1 ns2 :
  LRU.cache_get k (ns1 ++ ns2)
  = match LRU.cache_get k ns1 with
    | Some n => Some n
    | None => LRU.cache_get k ns2
    end.
Proof.
  induction ns1 as [|x ns1 IH]; simpl; [done|].
  by destruct (String.eqb (LRU.key x) k).
Qed.

Lemma cache_get_drop k ns n :
  NoDup (map LRU.key ns) ->
  LRU.cache_get k (drop n ns)
  = if bool_decide (k ∈ map LRU.key (take n ns)) then None else LRU.cache_get k ns.
Proof.
  intros Hnd. rewrite <- (take_drop n ns) in Hnd at 1.
  rewrite map_app in Hnd. apply NoDup_app in Hnd as (_ & Hdisj & _).
  case_bool_decide as Hin.
  - apply cache_get_None. rewrite <- list_elem_of_In. by apply Hdisj.
  - rewrite <- (take_drop n ns) at 2. rewrite cache_get_app.
    assert (LRU.cache_get k (take n ns) = None) as ->; [|done].
    apply cache_get_None. by rewrite <- list_elem_of_In.
Qed.

(** The index as a finite map from keys to sizes. *)
Lemma list_to_map_cache_get k ns :
  (list_to_map (map (fun n => (LRU.key n, LRU.sizeBytes n)) ns) : gmap string Z) !! k
  = LRU.sizeBytes <$> LRU.cache_get k ns.
Proof.
  induction ns as [|x ns IH]; simpl; [done|].
  destruct (String.eqb (LRU.key x) k) eqn:E.
  - apply eqb_string_true in E. rewrite E. by rewrite lookup_insert_eq.
  - apply eqb_string_false in E. by rewrite lookup_insert_ne.
Qed.

End IndexFacts.

Lemma sumSnd_perm (l l' : list (string * Z)) :
  Permutation l l' -> Shard.sumSnd l = Shard.sumSnd l'.
Proof.
  induction 1 as [|x l l' _ IH|x y l|l l' l'' _ IH1 _ IH2];
    unfold Shard.sumSnd in *; simpl; lia.
Qed.

Lemma entryBytes_sumSnd (m : gmap string Types.CacheEntry) :
  Shard.entryBytes m = Shard.sumSnd (map_to_list (Types.sizeBytes <$> m)).
Proof.
  rewrite map_to_list_fmap.
  unfold Shard.entryBytes. induction (map_to_list m) as [|[k e] l IH]; simpl; [done|].
  unfold Shard.sumSnd in *. simpl. by rewrite IH.
Qed.

Lemma sumSnd_nodes {T : Type} (ns : list (LRU.LRUNode T)) :
  Shard.sumSnd (map (fun n => (LRU.key n, LRU.sizeBytes n)) ns) = LRU.sumSizes ns.
Proof.
  induction ns as [|x ns IH]; simpl; [done|].
  unfold Shard.sumSnd, LRU.sumSizes in *. simpl. by rewrite IH.
Qed.

(** The key-by-key agreement gives the two equations of the invariant. *)
Lemma linked_accounting (s : Shard.CacheShard) :
  Shard.linked s -> Shard.accounting s.
Proof.
  intros ([Hs Hb Hnd Hnn] & _ & Hk).
  set (pairs := map (fun n => (LRU.key n, LRU.sizeBytes n)) (LRU.nodes (Shard.lru s))).
  assert (Hmap : Types.sizeBytes <$> Shard.entries s = list_to_map pairs).
  { apply map_eq. intros k. rewrite lookup_fmap, Hk. unfold pairs.
    by rewrite list_to_map_cache_get. }
  assert (Hnd' : NoDup pairs.*1).
  { unfold pairs. rewrite <- list_fmap_compose.
    replace (fmap (fst ∘ _) _) with (map LRU.key (LRU.nodes (Shard.lru s))); [done|].
    by apply map_ext. }
  pose proof (map_to_list_to_map pairs Hnd') as HP. rewrite <- Hmap in HP.
  split.
  - rewrite entryBytes_sumSnd, (sumSnd_perm _ _ HP), Hb. apply sumSnd_nodes.
  - rewrite Hs, <- (map_size_fmap Types.sizeBytes), <- length_map_to_list.
    rewrite (Permutation_length HP). unfold pairs. by rewrite length_map.
Qed.

Lemma delete_nodes {T : Type} (k : string) (l : LRU.SizeAwareLRU T) :
  LRU.nodes (LRU.delete k l).2 = LRU.removeNode k (LRU.nodes l).
Proof.
  unfold LRU.delete. destruct (LRU.cache_get k (LRU.nodes l)) eqn:E; simpl; [done|].
  by rewrite removeNode_absent.
Qed.

Lemma delete_absent {T : Type} (k : string) (l : LRU.SizeAwareLRU T) :
  LRU.cache_get k (LRU.nodes l) = None -> (LRU.delete k l).2 = l.
Proof. intros E. unfold LRU.delete. by rewrite E. Qed.

Lemma Forall_removeNode {T : Type} (P : LRU.LRUNode T -> Prop) (k : string)
    (ns : list (LRU.LRUNode T)) :
  Forall P ns -> Forall P (LRU.removeNode k ns).
Proof.
  induction 1 as [|x ns Hx Hns IH]; simpl; [constructor|].
  destruct (String.eqb (LRU.key x) k); [done|]. by constructor.
Qed.

Lemma get_nodes_perm {T : Type} (k : string) (l : LRU.SizeAwareLRU T) :
  Permutation (LRU.nodes (LRU.get k l).2) (LRU.nodes l).
Proof.
  unfold LRU.get. destruct (LRU.cache_get k (LRU.nodes l)) as [n|] eqn:E; simpl; [|done].
  destruct (cache_get_split _ _ _ E) as (a & b & Hl & Hr & _).
  unfold LRU.moveToFront, LRU.addToFront.
  rewrite (cache_get_key _ _ _ E), Hr, Hl, <- app_assoc.
  apply Permutation_app_head. symmetry. apply Permutation_cons_append.
Qed.

Lemma linked_create (shardId maxItemBytes : Z) (budget : option Z) (maxMailboxSize : Z) :
  Shard.linked (Shard.create shardId maxItemBytes budget maxMailboxSize).
Proof. split; [apply create_wf|]. split; [constructor|done]. Qed.

Lemma linked_deleteEntry (k : string) (s : Shard.CacheShard) :
  Shard.linked s -> Shard.linked (Shard.deleteEntry k s).2.
Proof.
  intros (Hwf & Hval & Hk). unfold Shard.deleteEntry.
  destruct (Shard.entries s !! k) as [e|] eqn:He; [|done].
  unfold Shard.linked. cbn -[LRU.delete].
  split; [by apply delete_wf|]. rewrite delete_nodes. split.
  - by apply Forall_removeNode.
  - intros k'. destruct (decide (k = k')) as [<-|Hne].
    + rewrite lookup_delete_eq, cache_get_removeNode_eq; [done|].
      apply (LRU.wf_nodup _ Hwf).
    + rewrite lookup_delete_ne by done. by rewrite cache_get_removeNode_ne.
Qed.

(** The read path keeps the invariant, also when it expires the entry. *)
Lemma linked_get (k : string) (now : Z) (s : Shard.CacheShard) :
  Shard.linked s -> Shard.linked (Shard.get k now s).2.
Proof.
  intros Hl. unfold Shard.get.
  destruct (Shard.entries s !! k) as [e|] eqn:He; [|done].
  destruct (Shard.expiredAt (Types.expiresAt e) now).
  - by apply (linked_deleteEntry k) in Hl.
  - destruct Hl as (Hwf & Hval & Hk). unfold Shard.linked. cbn -[LRU.get].
    pose proof (get_nodes_perm k (Shard.lru s)) as HP.
    split; [by apply get_wf|]. split.
    + by rewrite HP.
    + intros k'. rewrite Hk. f_equal. symmetry. apply cache_get_perm; [|done].
      rewrite HP. apply (LRU.wf_nodup _ Hwf).
Qed.

Lemma linked_executeDelete (op : Types.ShardOperation) (s : Shard.CacheShard) :
  Shard.linked s -> Shard.linked (Shard.executeDelete op s).2.
Proof.
  intros Hl. unfold Shard.executeDelete.
  destruct (Shard.entries s !! Types.opKey op); [|done].
  destruct (_ && _); [done|]. by apply (linked_deleteEntry (Types.opKey op)) in Hl.
Qed.

Lemma linked_executeExpire (op : Types.ShardOperation) (s : Shard.CacheShard) :
  Shard.linked s -> Shard.linked (Shard.executeExpire op s).2.
Proof.
  intros Hl. unfold Shard.executeExpire.
  pose proof (linked_deleteEntry (Types.opKey op) s Hl).
  by destruct (Shard.deleteEntry (Types.opKey op) s).
Qed.

Lemma linked_executeEvict (op : Types.ShardOperation) (s : Shard.CacheShard) :
  Shard.linked s -> Shard.linked (Shard.executeEvict op s).2.
Proof.
  intros Hl. unfold Shard.executeEvict.
  pose proof (linked_deleteEntry (Types.opKey op) s Hl).
  by destruct (Shard.deleteEntry (Types.opKey op) s).
Qed.

(** The drain of keys that the LRU no longer holds only touches the entry
    index and the counter of evictions. *)
Lemma drainEvicted_fields (evicted : list string) (s : Shard.CacheShard) :
  (forall k, In k evicted -> LRU.cache_get k (LRU.nodes (Shard.lru s)) = None) ->
  Shard.lru (Shard.drainEvicted evicted s) = Shard.lru s
  /\ Shard.entries (Shard.drainEvicted evicted s)
     = fold_left (fun m k => delete k m) evicted (Shard.entries s)
  /\ Shard.ttlHeap (Shard.drainEvicted evicted s) = Shard.ttlHeap s
  /\ Shard.shardId (Shard.drainEvicted evicted s) = Shard.shardId s.
Proof.
  revert s. induction evicted as [|ek evicted IH]; intros s Hgone; simpl; [done|].
  set (s1 := Shard.with_stats _ _).
  assert (Shard.lru s1 = Shard.lru s /\ Shard.entries s1 = delete ek (Shard.entries s)
          /\ Shard.ttlHeap s1 = Shard.ttlHeap s /\ Shard.shardId s1 = Shard.shardId s)
    as (Hlru & Hent & Hheap & Hid).
  { unfold s1, Shard.deleteEntry.
    destruct (Shard.entries s !! ek) eqn:He; simpl.
    - rewrite delete_absent; [done|]. apply Hgone. by left.
    - by rewrite delete_id. }
  destruct (IH s1) as (-> & -> & -> & ->).
  { intros k Hk. rewrite Hlru. apply Hgone. by right. }
  by rewrite Hlru, Hent, Hheap, Hid.
Qed.

Lemma lookup_fold_delete {A : Type} (ks : list string) (m : gmap string A) (k : string) :
  fold_left (fun m k => delete k m) ks m !! k
  = if bool_decide (k ∈ ks) then None else m !! k.
Proof.
  revert m. induction ks as [|k' ks IH]; intros m; simpl; [done|].
  rewrite IH. destruct (decide (k = k')) as [->|Hne].
  - rewrite lookup_delete_eq. rewrite (bool_decide_eq_true_2 (k' ∈ k' :: ks)) by by left.
    by case_bool_decide.
  - rewrite lookup_delete_ne by done.
    case_bool_decide as H1; case_bool_decide as H2; try done.
    + exfalso. apply H2. by right.
    + exfalso. apply elem_of_cons in H2 as [?|?]; done.
Qed.

(** [executeSet] keeps the invariant: it drains the keys that the LRU
    evicted. *)
Lemma linked_executeSet (op : Types.ShardOperation) (entry : Types.CacheEntry)
    (now : Z) (ver : string) (s : Shard.CacheShard) :
  Types.entry op = Some (Types.EntryOf entry) -> 0 <= Types.sizeBytes entry ->
  Shard.linked s -> Shard.linked (Shard.executeSet op now ver s).2.
Proof.
  intros Hentry Hsz Hl. unfold Shard.executeSet. rewrite Hentry.
  destruct (_ && _); [done|]. destruct (_ && _); [done|]. destruct (_ <? _); [done|].
  destruct Hl as (Hwf & Hval & Hk). cbn [Types.sizeBytes].
  set (k := Types.opKey op). set (sz := Types.sizeBytes entry).
  set (newEntry := Types.mkEntry _ _ _ _ _ _ _ _).
  set (s2 := Shard.with_stats _ _).
  assert (Hlru2 : Shard.lru s2 = Shard.lru s) by done. rewrite Hlru2.
  destruct (set_detach k k sz (Shard.lru s)) as (n & Hn & -> & _ & _).
  set (l1 := LRU.upsert k k sz (Shard.lru s)) in *.
  pose proof (upsert_wf k k sz _ Hwf Hsz) as Hwf1. fold l1 in Hwf1.
  pose proof (upsert_nodes k k sz (Shard.lru s)) as Hn1. fold l1 in Hn1.
  assert (Hval1 : Forall (fun n => LRU.value n = LRU.key n) (LRU.nodes l1)).
  { rewrite Hn1. apply Forall_app. split; [by apply Forall_removeNode|].
    by repeat constructor. }
  assert (Hev : map LRU.value (take n (LRU.nodes l1))
                = map LRU.key (take n (LRU.nodes l1))).
  { apply Forall_take with (n := n) in Hval1.
    induction Hval1 as [|x l Hx _ IH]; simpl; [done|]. by rewrite Hx, IH. }
  rewrite Hev.
  set (s3 := Shard.with_lru _ s2).
  destruct (drainEvicted_fields (map LRU.key (take n (LRU.nodes l1))) s3)
    as (Hlru & Hent & _).
  { intros k' Hin. unfold s3. simpl. rewrite detach_nodes.
    rewrite cache_get_drop by apply (LRU.wf_nodup _ Hwf1).
    rewrite bool_decide_eq_true_2; [done|]. by apply list_elem_of_In. }
  assert (Hfinal : forall s4,
             Shard.lru s4 = Shard.lru (Shard.drainEvicted
                                         (map LRU.key (take n (LRU.nodes l1))) s3) ->
             Shard.entries s4 = Shard.entries (Shard.drainEvicted
                                         (map LRU.key (take n (LRU.nodes l1))) s3) ->
             Shard.linked s4).
  { intros s4 Hl4 He4. unfold Shard.linked. rewrite Hl4, He4, Hlru, Hent.
    unfold s3. simpl. split; [by apply detach_wf|]. rewrite detach_nodes. split.
    - by apply Forall_drop.
    - intros k'. rewrite lookup_fold_delete.
      rewrite cache_get_drop by apply (LRU.wf_nodup _ Hwf1).
      case_bool_decide; [done|].
      rewrite Hn1, cache_get_app. simpl.
      destruct (decide (k = k')) as [<-|Hne].
      + rewrite lookup_insert_eq, cache_get_removeNode_eq by apply (LRU.wf_nodup _ Hwf).
        by rewrite String.eqb_refl.
      + rewrite lookup_insert_ne by done. rewrite cache_get_removeNode_ne by done.
        rewrite Hk. destruct (LRU.cache_get k' _); [done|].
        apply eqb_string_false in Hne. by rewrite Hne. }
  simpl. apply Hfinal.
  - destruct (Types.expiresAt entry) as [t|]; [|done]. by destruct (truthyZ t).
  - destruct (Types.expiresAt entry) as [t|]; [|done]. by destruct (truthyZ t).
Qed.

(** [executeIncrement] keeps the invariant as long as its [lru.set]
    evicts nothing. *)
Lemma linked_executeIncrement (k : string) (delta : float) (now : Z) (ver : string)
    (s : Shard.CacheShard) :
  (LRU.set k k 8 (Shard.lru s)).1 = [] ->
  Shard.linked s -> Shard.linked (Shard.executeIncrement k delta now ver s).2.
Proof.
  intros Hnone Hl. unfold Shard.executeIncrement.
  set (check := match Shard.entries s !! k with Some _ => _ | None => _ end).
  destruct check as [currentValue|err]; [|done].
  destruct Hl as (Hwf & Hval & Hk).
  unfold Shard.linked. cbn -[LRU.set].
  destruct (set_detach k k 8 (Shard.lru s)) as (n & Hn & Heq & _ & _).
  rewrite Heq in Hnone |- *. simpl in Hnone. cbn [snd].
  pose proof (upsert_nodes k k 8 (Shard.lru s)) as Hn1.
  assert (n = O) as ->.
  { destruct n as [|n]; [done|]. rewrite Hn1 in Hnone.
    destruct (LRU.removeNode k (LRU.nodes (Shard.lru s))); discriminate. }
  simpl. split; [by apply upsert_wf|]. rewrite Hn1. split.
  - apply Forall_app. split; [by apply Forall_removeNode|]. by repeat constructor.
  - intros k'. rewrite cache_get_app. simpl.
    destruct (decide (k = k')) as [<-|Hne].
    + rewrite lookup_insert_eq, cache_get_removeNode_eq by apply (LRU.wf_nodup _ Hwf).
      by rewrite String.eqb_refl.
    + rewrite lookup_insert_ne by done. rewrite cache_get_removeNode_ne by done.
      rewrite Hk. destruct (LRU.cache_get k' _); [done|].
      apply eqb_string_false in Hne. by rewrite Hne.
Qed.

Lemma calculateValueSize_nonneg (v : Types.JsValue) (t : Types.ValueType) :
  0 <= Validators.calculateValueSize v t.
Proof.
  unfold Validators.calculateValueSize, Validators.bufferLength.
  destruct t, v; lia.
Qed.

Lemma createEntry_size_nonneg (k : string) (v : Types.JsValue) (ttlSec : option Z)
    (now : Z) (e : Types.CacheEntry) :
  Shard.createEntry k v ttlSec now = Errors.Ok e -> 0 <= Types.sizeBytes e.
Proof.
  unfold Shard.createEntry.
  destruct (Validators.validateInferredValue v) as [[v' t]|]; [|discriminate].
  intros [= <-]. apply calculateValueSize_nonneg.
Qed.

(** Every operation of the dispatcher keeps the key-by-key agreement,
    and with it the accounting invariant, except an increment whose
    [lru.set] evicts. *)
Lemma linked_executeOperation (op : Types.ShardOperation) (now : Z) (ver : string)
    (s : Shard.CacheShard) :
  (forall e, Types.entry op = Some (Types.EntryOf e) -> 0 <= Types.sizeBytes e) ->
  (forall delta, Types.opType op = Types.OpSet ->
                 Types.entry op = Some (Types.DeltaMarker delta) ->
                 (LRU.set (Types.opKey op) (Types.opKey op) 8 (Shard.lru s)).1 = []) ->
  Shard.linked s ->
  Shard.linked (Shard.executeOperation op now ver s).2
  /\ Shard.accounting (Shard.executeOperation op now ver s).2.
Proof.
  intros Hsz Hincr Hl.
  assert (Shard.linked (Shard.executeOperation op now ver s).2) as H;
    [|split; [done|by apply linked_accounting]].
  unfold Shard.executeOperation. destruct (Types.opType op) eqn:Ety.
  - destruct (Types.entry op) as [[e|delta]|] eqn:Hentry.
    + by apply (linked_executeSet op e); [|apply Hsz|].
    + unfold Shard.executeSet. rewrite Hentry.
      apply linked_executeIncrement; [|done]. by apply (Hincr delta).
    + unfold Shard.executeSet. by rewrite Hentry.
  - by apply linked_executeDelete.
  - by apply linked_executeExpire.
  - by apply linked_executeEvict.
Qed.

(** * The sweeper *)

(** [executeExpire] removes whatever entry the key has: it compares
    neither the clock nor the expiry of the heap record. *)
Lemma executeExpire_removes (op : Types.ShardOperation) (s : Shard.CacheShard)
    (e : Types.CacheEntry) :
  Shard.entries s !! Types.opKey op = Some e ->
  (Shard.executeExpire op s).1 = Errors.Ok (Shard.RBool true)
  /\ Shard.entries (Shard.executeExpire op s).2 !! Types.opKey op = None.
Proof.
  intros He. unfold Shard.executeExpire, Shard.deleteEntry. rewrite He. simpl.
  split; [done|]. apply lookup_delete_eq.
Qed.

(** C1.  The sweeper removes an entry whose TTL was extended.  [session]
    is set at 1000000 ms with a TTL of one second and set again at
    1000500 ms with a TTL of one hour (or with none).  At 1001200 ms the
    entry is live: its [expiresAt] is 4600500 (or absent) and [get]
    returns it.  The tick of the sweeper at that instant pops the heap
    record of the first set, finds the key in the index, and the [expire]
    operation it enqueues deletes the live entry. *)
Theorem sweeper_removes_extended_entry :
  let now := 1001200 in
  (Types.expiresAt <$> Shard.entries Scenarios.shardTtlExtended !! "session"
   = Some (Some 4600500)
   /\ (Types.value <$> (Shard.get "session" now Scenarios.shardTtlExtended).1)
      = Some (Types.JString "b")
   /\ (MinHeap.popExpired now (Shard.ttlHeap Scenarios.shardTtlExtended)).1
      = [MinHeap.mkHeapEntry "session" 1001000 0]
   /\ Shard.entries (Shard.processExpirations now "v3" Scenarios.shardTtlExtended)
        !! "session" = None)
  /\ (Types.expiresAt <$> Shard.entries Scenarios.shardTtlRemoved !! "session"
      = Some None
      /\ (Types.value <$> (Shard.get "session" now Scenarios.shardTtlRemoved).1)
         = Some (Types.JString "b")
      /\ Shard.entries (Shard.processExpirations now "v3" Scenarios.shardTtlRemoved)
           !! "session" = None).
Proof. vm_compute. repeat split; reflexivity. Qed.

(** * Accounting *)

(** C2.  [executeIncrement] breaks the accounting invariant.  On a shard
    with a budget of ten bytes that holds the entry [a] of eight bytes,
    the invariant holds; [increment('b', 1)] inserts an entry of eight
    bytes, the LRU evicts [a], and the list of evicted keys is dropped:
    [a] stays in the entry index.  Afterwards the index holds two entries
    and sixteen bytes, the LRU one node and eight bytes. *)
Theorem increment_breaks_accounting :
  let s := Scenarios.shardTenBytes in
  let s' := Scenarios.incr "b" 1%float 2000 "v2" s in
  Shard.accounting s
  /\ (LRU.set "b" "b" 8 (Shard.lru s)).1 = ["a"]
  /\ is_Some (Shard.entries s' !! "a")
  /\ LRU.has "a" (Shard.lru s') = false
  /\ Shard.entryBytes (Shard.entries s') = 16
  /\ LRU.currentSizeBytes (Shard.lru s') = 8
  /\ size (Shard.entries s') = 2%nat
  /\ LRU.size (Shard.lru s') = 1
  /\ ~ Shard.accounting s'.
Proof.
  cbv zeta. unfold Shard.accounting.
  repeat split; try (vm_compute; reflexivity).
  - vm_compute. eauto.
  - intros [H _]. vm_compute in H. discriminate.
Qed.

(** * Backpressure *)

(** C6.  A full mailbox surfaces as 500.  When the mailbox holds
    [maxMailboxSize] operations (or more), [enqueueOperation] throws the
    plain [Error('Shard mailbox full')]: it is no [CacheError] and has no
    [statusCode], so [errorHandler] falls through to its last case and
    answers 500 [INTERNAL] without a [Retry-After] header. *)
Theorem mailbox_full_is_internal_error (s : Shard.CacheShard)
    (op : Types.ShardOperation) (now : Z) (ver : string) :
  Shard.maxMailboxSize s <= Z.of_nat (length (Shard.operationQueue s)) ->
  let e := Errors.Error "Shard mailbox full" in
  Shard.enqueueOperation op now ver s = Errors.Throw e
  /\ Errors.isCacheError e = false
  /\ Errors.statusCode e = None
  /\ Boundary.errorHandler e
     = Boundary.mkResponse 500 [] (Boundary.ErrorBody "INTERNAL" "Internal server error").
Proof.
  intros Hfull e. unfold Shard.enqueueOperation.
  apply Z.leb_le in Hfull. rewrite Hfull. repeat split; reflexivity.
Qed.

Lemma mailbox_full_is_internal_error_witness :
  Shard.enqueueOperation (Types.mkOp Types.OpDelete "b" None None None) 1000 "v1"
                         Scenarios.shardFull
  = Errors.Throw (Errors.Error "Shard mailbox full").
Proof.
  apply (mailbox_full_is_internal_error Scenarios.shardFull
           (Types.mkOp Types.OpDelete "b" None None None) 1000 "v1").
  vm_compute. discriminate.
Defined.

(** The same through the route: a [PUT] on a store whose mailboxes admit
    nothing is answered with 500, where the in-flight limit of the same
    store is answered with 503. *)
Example put_on_full_mailbox :
  Boundary.status
    (Boundary.putRoute 1000 (Boundary.mkPut "k" (Types.JString "x") (Some 5) 20 None None)
                       Scenarios.env0 Scenarios.storeNoMailbox).1 = 500
  /\ Boundary.status (Boundary.errorHandler Store.overloadedError) = 503.
Proof. vm_compute. split; reflexivity. Qed.

(** * Batch results *)

Section SortFacts.
Variable order : gmap string Z.

Let rank (k : string) : Z := Store.orderOf order k.
Let le_rank (a b : string) : Prop := rank a <= rank b.

Lemma insertResult_perm (r : Store.BatchResult) (l : list Store.BatchResult) :
  Permutation (Store.insertResult order r l) (r :: l).
Proof.
  induction l as [|x l IH]; simpl; [done|].
  destruct (_ <=? 0); [done|]. rewrite IH. apply perm_swap.
Qed.

Lemma sortResults_perm (l : list Store.BatchResult) :
  Permutation (Store.sortResults order l) l.
Proof.
  induction l as [|x l IH]; simpl; [done|].
  rewrite insertResult_perm. by constructor.
Qed.

Lemma sortResults_length (l : list Store.BatchResult) :
  length (Store.sortResults order l) = length l.
Proof. apply Permutation_length, sortResults_perm. Qed.

Lemma insertResult_sorted (r : Store.BatchResult) (l : list Store.BatchResult) :
  StronglySorted le_rank (map Store.key l) ->
  StronglySorted le_rank (map Store.key (Store.insertResult order r l)).
Proof.
  induction l as [|x l IH]; simpl; intros Hs.
  - repeat constructor.
  - apply StronglySorted_inv in Hs as [Hs Hx].
    destruct (_ <=? 0) eqn:E.
    + apply Z.leb_le in E. simpl. constructor; [by constructor|].
      constructor; [unfold le_rank, rank; lia|].
      eapply Forall_impl; [exact Hx|]. unfold le_rank, rank. intros; simpl in *. lia.
    + apply Z.leb_gt in E. simpl. constructor; [by apply IH|].
      assert (HP : Permutation (map Store.key (Store.insertResult order r l))
                               (Store.key r :: map Store.key l)).
      { change (Store.key r :: map Store.key l) with (map Store.key (r :: l)).
        apply Permutation_map, insertResult_perm. }
      rewrite HP. constructor; [unfold le_rank, rank; lia|done].
Qed.

Lemma sortResults_sorted (l : list Store.BatchResult) :
  StronglySorted le_rank (map Store.key (Store.sortResults order l)).
Proof.
  induction l as [|x l IH]; simpl; [constructor|]. by apply insertResult_sorted.
Qed.

(** Two lists of keys in rank order with the same elements are equal when
    distinct keys have distinct ranks. *)
Lemma sorted_keys_unique (l1 l2 : list string) :
  StronglySorted le_rank l1 -> StronglySorted le_rank l2 ->
  Permutation l1 l2 ->
  (forall a b, In a l1 -> In b l1 -> rank a = rank b -> a = b) ->
  l1 = l2.
Proof.
  revert l2. induction l1 as [|a l1 IH]; intros l2 H1 H2 HP Hinj.
  - by apply Permutation_nil in HP.
  - destruct l2 as [|b l2]; [by apply Permutation_sym, Permutation_nil in HP|].
    apply StronglySorted_inv in H1 as [H1 Ha].
    apply StronglySorted_inv in H2 as [H2 Hb].
    assert (a = b) as <-.
    { assert (In a (b :: l2)) as Hin by (eapply Permutation_in; [exact HP|by left]).
      assert (In b (a :: l1)) as Hin'.
      { eapply Permutation_in; [symmetry; exact HP|by left]. }
      apply Hinj; [by left|done|].
      assert (rank b <= rank a).
      { destruct Hin as [->|Hin]; [lia|].
        rewrite Forall_forall in Hb. apply Hb. by apply list_elem_of_In. }
      assert (rank a <= rank b).
      { destruct Hin' as [->|Hin']; [lia|].
        rewrite Forall_forall in Ha. apply Ha. by apply list_elem_of_In. }
      lia. }
    f_equal. apply IH; [done|done| |].
    + by apply Permutation_cons_inv in HP.
    + intros x y Hx Hy. apply Hinj; by right.
Qed.

(** Whatever the order in which the operations completed, the sorted keys
    are the keys in rank order. *)
Lemma sortResults_keys (results : list Store.BatchResult) (sorted : list string) :
  Permutation (map Store.key results) sorted ->
  StronglySorted le_rank sorted ->
  (forall a b, In a sorted -> In b sorted -> rank a = rank b -> a = b) ->
  map Store.key (Store.sortResults order results) = sorted.
Proof.
  intros HP Hs Hinj.
  assert (HP' : Permutation (map Store.key (Store.sortResults order results)) sorted).
  { rewrite <- HP. apply Permutation_map, sortResults_perm. }
  apply sorted_keys_unique; [apply sortResults_sorted|done|done|].
  intros a b Ha Hb. apply Hinj; eapply Permutation_in; eauto.
Qed.

End SortFacts.

Lemma keyOrder_snoc (keys : list string) (k : string) :
  Store.keyOrder (keys ++ [k]) = <[k:=Z.of_nat (length keys)]> (Store.keyOrder keys).
Proof.
  unfold Store.keyOrder. rewrite length_app. simpl.
  rewrite Nat.add_1_r, seq_S, map_app. simpl.
  rewrite zip_with_app by by rewrite length_map, length_seq.
  by rewrite fold_left_app.
Qed.

(** For distinct keys the index map sends every key to its position. *)
Lemma keyOrder_lookup (keys : list string) (i : nat) (k : string) :
  NoDup keys -> keys !! i = Some k ->
  Store.keyOrder keys !! k = Some (Z.of_nat i).
Proof.
  revert i. induction keys as [|k' keys IH] using rev_ind; intros i Hnd Hi; [done|].
  rewrite keyOrder_snoc. apply NoDup_app in Hnd as (Hnd & Hdisj & _).
  destruct (decide (i < length keys)%nat) as [Hlt|Hge].
  - rewrite lookup_app_l in Hi by done.
    rewrite lookup_insert_ne; [by apply IH|].
    intros ->. apply (Hdisj k); [by eapply list_elem_of_lookup_2|by left].
  - pose proof (lookup_lt_Some _ _ _ Hi) as Hlen. rewrite length_app in Hlen.
    simpl in Hlen. assert (i = length keys) as -> by lia.
    rewrite list_lookup_middle in Hi by done. injection Hi as ->.
    apply lookup_insert_eq.
Qed.

Lemma orderOf_index (keys : list string) (i : nat) (k : string) :
  NoDup keys -> keys !! i = Some k ->
  Store.orderOf (Store.keyOrder keys) k = Z.of_nat i.
Proof.
  intros Hnd Hi. unfold Store.orderOf. rewrite (keyOrder_lookup keys i k Hnd Hi).
  unfold truthyZ. destruct (Z.of_nat i =? 0) eqn:E; simpl; [|done].
  apply Z.eqb_eq in E. lia.
Qed.

(** Distinct keys are in rank order and have distinct ranks. *)
Lemma keys_sorted_by_index (keys : list string) :
  NoDup keys ->
  StronglySorted (fun a b => Store.orderOf (Store.keyOrder keys) a
                             <= Store.orderOf (Store.keyOrder keys) b) keys
  /\ (forall a b, In a keys -> In b keys ->
        Store.orderOf (Store.keyOrder keys) a = Store.orderOf (Store.keyOrder keys) b ->
        a = b).
Proof.
  intros Hnd. split.
  - assert (forall pre suf, keys = (pre ++ suf)%list ->
              StronglySorted (fun a b => Store.orderOf (Store.keyOrder keys) a
                                         <= Store.orderOf (Store.keyOrder keys) b) suf)
      as Hgen; [|by apply (Hgen [])].
    intros pre suf. revert pre. induction suf as [|x suf IH]; intros pre Heq.
    + constructor.
    + constructor.
      * apply (IH (pre ++ [x])%list). by rewrite <- app_assoc.
      * apply Forall_forall. intros y Hy.
        apply list_elem_of_lookup in Hy as [j Hj].
        assert (keys !! length pre = Some x) as Hx.
        { rewrite Heq. by rewrite list_lookup_middle. }
        assert (keys !! (length pre + S j)%nat = Some y) as Hy.
        { rewrite Heq. rewrite lookup_app_r by lia.
          replace (length pre + S j - length pre)%nat with (S j) by lia. done. }
        rewrite (orderOf_index keys _ x Hnd Hx), (orderOf_index keys _ y Hnd Hy). lia.
  - intros a b Ha Hb.
    apply list_elem_of_In, list_elem_of_lookup in Ha as [i Hi].
    apply list_elem_of_In, list_elem_of_lookup in Hb as [j Hj].
    rewrite (orderOf_index keys i a Hnd Hi), (orderOf_index keys j b Hnd Hj).
    intros Heq. assert (i = j) as -> by lia. congruence.
Qed.

(** When the input keys are distinct, the sort restores the input order
    from any completion order. *)
Lemma sortResults_distinct_keys (keys : list string) (results : list Store.BatchResult) :
  NoDup keys ->
  Permutation (map Store.key results) keys ->
  map Store.key (Store.sortResults (Store.keyOrder keys) results) = keys
  /\ length (Store.sortResults (Store.keyOrder keys) results) = length keys.
Proof.
  intros Hnd HP. destruct (keys_sorted_by_index keys Hnd) as [Hs Hinj]. split.
  - by apply sortResults_keys.
  - rewrite sortResults_length, <- (Permutation_length HP). by rewrite length_map.
Qed.

(** C7.  With a duplicate key the results leave the sort in another order
    than the input.  [keyOrder] keeps one index per key, the last one, so
    for the keys [a, b, a] both results of [a] rank after the result of
    [b]: the batch answers with the keys [b, a, a], whatever the order in
    which the operations completed.  The length is still the length of
    the input. *)
Theorem batch_duplicate_keys_misordered :
  let keys := ["a"; "b"; "a"] in
  let items := map (fun k => Store.mkItem k (Types.JString "x") None) keys in
  (exists results,
      (Store.batchDelete keys Scenarios.env0 Scenarios.store2).1 = Errors.Ok results
      /\ length results = 3%nat
      /\ map Store.key results = ["b"; "a"; "a"])
  /\ (exists results,
         (Store.batchSet items Scenarios.env0 Scenarios.store2).1 = Errors.Ok results
         /\ length results = 3%nat
         /\ map Store.key results = ["b"; "a"; "a"])
  /\ (forall completed,
         Permutation (map Store.key completed) keys ->
         map Store.key (Store.sortResults (Store.keyOrder keys) completed)
         = ["b"; "a"; "a"]).
Proof.
  cbv zeta. split; [|split].
  - eexists. split; [vm_compute; reflexivity|]. by vm_compute.
  - eexists. split; [vm_compute; reflexivity|]. by vm_compute.
  - intros completed HP. apply sortResults_keys.
    + rewrite HP. apply perm_swap.
    + repeat constructor; vm_compute; discriminate.
    + intros a b Ha Hb. simpl in Ha, Hb.
      destruct Ha as [<-|[<-|[<-|[]]]], Hb as [<-|[<-|[<-|[]]]];
        vm_compute; congruence.
Qed.

(** * The batch calls: every item yields one result *)

(** No operation touches the mailbox or the dispatcher flag. *)
Lemma deleteEntry_control (k : string) (s : Shard.CacheShard) :
  Shard.operationQueue (Shard.deleteEntry k s).2 = Shard.operationQueue s
  /\ Shard.isProcessing (Shard.deleteEntry k s).2 = Shard.isProcessing s.
Proof. unfold Shard.deleteEntry. by destruct (Shard.entries s !! k). Qed.

Lemma drainEvicted_control (evicted : list string) (s : Shard.CacheShard) :
  Shard.operationQueue (Shard.drainEvicted evicted s) = Shard.operationQueue s
  /\ Shard.isProcessing (Shard.drainEvicted evicted s) = Shard.isProcessing s.
Proof.
  revert s. induction evicted as [|k evicted IH]; intros s; [done|]. simpl.
  destruct (IH (Shard.with_stats
                  (Shard.incr_evictions (Shard.stats (Shard.deleteEntry k s).2))
                  (Shard.deleteEntry k s).2)) as [-> ->].
  simpl. apply deleteEntry_control.
Qed.

Lemma executeOperation_control (op : Types.ShardOperation) (now : Z) (ver : string)
    (s : Shard.CacheShard) :
  Shard.operationQueue (Shard.executeOperation op now ver s).2 = Shard.operationQueue s
  /\ Shard.isProcessing (Shard.executeOperation op now ver s).2 = Shard.isProcessing s.
Proof.
  unfold Shard.executeOperation. destruct (Types.opType op).
  - unfold Shard.executeSet. destruct (Types.entry op) as [[e|delta]|]; [| |done].
    + destruct (_ && _); [done|]. destruct (_ && _); [done|].
      destruct (_ <? _); [done|].
      destruct (LRU.set _ _ _ _) as [evicted l']. cbn [snd].
      set (s3 := Shard.drainEvicted _ _).
      assert (Shard.operationQueue s3 = Shard.operationQueue s
              /\ Shard.isProcessing s3 = Shard.isProcessing s) as [Hq Hp].
      { unfold s3. destruct (drainEvicted_control evicted
          (Shard.with_lru l' (Shard.with_stats
             (Shard.incr_sets (Shard.stats (Shard.with_entries
                (<[Types.opKey op:=Types.mkEntry (Types.key e) (Types.value e)
                     (Types.type e) ver
                     (Shard.createdAtOr (Shard.entries s !! Types.opKey op) now) now
                     (Types.expiresAt e) (Types.sizeBytes e)]> (Shard.entries s)) s)))
             (Shard.with_entries
                (<[Types.opKey op:=Types.mkEntry (Types.key e) (Types.value e)
                     (Types.type e) ver
                     (Shard.createdAtOr (Shard.entries s !! Types.opKey op) now) now
                     (Types.expiresAt e) (Types.sizeBytes e)]> (Shard.entries s)) s))))
          as [-> ->]. done. }
      cbn [Types.expiresAt]. destruct (Types.expiresAt e) as [t|]; [|done].
      by destruct (truthyZ t).
    + unfold Shard.executeIncrement.
      destruct (match Shard.entries s !! Types.opKey op with
                | Some _ => _ | None => _ end); done.
  - unfold Shard.executeDelete. destruct (Shard.entries s !! Types.opKey op); [|done].
    destruct (_ && _); [done|]. simpl. apply deleteEntry_control.
  - unfold Shard.executeExpire.
    pose proof (deleteEntry_control (Types.opKey op) s).
    by destruct (Shard.deleteEntry (Types.opKey op) s).
  - unfold Shard.executeEvict.
    pose proof (deleteEntry_control (Types.opKey op) s).
    by destruct (Shard.deleteEntry (Types.opKey op) s).
Qed.

Lemma dispatchNext_effect (now : Z) (ver : string) (s : Shard.CacheShard) :
  Shard.isProcessing s = true ->
  let r := Shard.dispatchNext now ver s in
  (Store.completedKeys r.2 ++ Store.queuedKeys r.1)%list = Store.queuedKeys s
  /\ Store.attended r.1
  /\ length (Shard.operationQueue r.1) = pred (length (Shard.operationQueue s)).
Proof.
  intros Hp. unfold Shard.dispatchNext, Store.queuedKeys, Store.attended.
  destruct (Shard.operationQueue s) as [|op q] eqn:Hq; simpl.
  - by rewrite Hq.
  - destruct (executeOperation_control op now ver (Shard.with_operationQueue q s))
      as [Hq' Hp'].
    destruct (Shard.executeOperation op now ver (Shard.with_operationQueue q s))
      as [r s']. simpl in *. rewrite Hq', Hp'. done.
Qed.

Lemma resume_effect (now : Z) (ver : string) (s : Shard.CacheShard) :
  Store.attended s ->
  let r := Shard.resume now ver s in
  (Store.completedKeys r.2 ++ Store.queuedKeys r.1)%list = Store.queuedKeys s
  /\ Store.attended r.1
  /\ length (Shard.operationQueue r.1) = pred (length (Shard.operationQueue s)).
Proof.
  intros Hatt. unfold Shard.resume. destruct (Shard.isProcessing s) eqn:Hp.
  - by apply dispatchNext_effect.
  - simpl. split; [done|]. split; [done|].
    destruct (Shard.operationQueue s) eqn:Hq; [done|].
    unfold Store.attended in Hatt. rewrite Hq, Hp in Hatt. by discriminate Hatt.
Qed.

Lemma enqueue_effect (op : Types.ShardOperation) (now : Z) (ver : string)
    (s s' : Shard.CacheShard) (cs : list Shard.Completion) :
  Shard.enqueueOperation op now ver s = Errors.Ok (s', cs) ->
  (Store.completedKeys cs ++ Store.queuedKeys s')%list = (Store.queuedKeys s ++ [Types.opKey op])%list
  /\ Store.attended s'.
Proof.
  unfold Shard.enqueueOperation. destruct (_ <=? _); [discriminate|].
  intros [= Heq]. unfold Shard.processOperations in Heq.
  destruct (Shard.isProcessing _) eqn:Hp.
  - injection Heq as <- <-. simpl. unfold Store.queuedKeys, Store.attended. simpl.
    by rewrite map_app.
  - set (s1 := Shard.with_isProcessing true _) in Heq.
    destruct (dispatchNext_effect now ver s1) as (Hk & Hatt & _); [done|].
    rewrite Heq in Hk, Hatt. simpl in Hk, Hatt. split; [|done].
    rewrite Hk. unfold Store.queuedKeys, s1. simpl. by rewrite map_app.
Qed.

Lemma pending_insert (ss : list Shard.CacheShard) (i : nat) (s : Shard.CacheShard) :
  ss !! i = Some s ->
  exists others,
    Permutation (Store.pending ss) (Store.queuedKeys s ++ others)
    /\ forall s', Permutation (Store.pending (<[i:=s']> ss)) (Store.queuedKeys s' ++ others).
Proof.
  revert i. induction ss as [|x ss IH]; intros i Hi; [done|].
  destruct i as [|i]; simpl in Hi.
  - injection Hi as ->. exists (Store.pending ss). split; [done|]. by intros s'.
  - destruct (IH i Hi) as (others & H1 & H2).
    exists (Store.queuedKeys x ++ others)%list. unfold Store.pending in *. simpl. split.
    + rewrite H1. rewrite !app_assoc. apply Permutation_app_tail, Permutation_app_comm.
    + intros s'. rewrite H2. rewrite !app_assoc.
      apply Permutation_app_tail, Permutation_app_comm.
Qed.

Section BatchFacts.
Context {A : Type}.
Variable env : Store.Env.
Variable call : A -> Z -> string -> Shard.CacheShard
                -> Errors.Outcome (Shard.CacheShard * list Shard.Completion).
Variable keyOf : A -> string.
Variable toResult : string -> Errors.Outcome Shard.OpResult -> Store.BatchResult.

(** A call either rejects, or admits one operation on the key of its item. *)
Hypothesis call_admits : forall item now ver s,
  (exists e, call item now ver s = Errors.Throw e)
  \/ (exists op, Types.opKey op = keyOf item
                 /\ call item now ver s = Shard.enqueueOperation op now ver s).
Hypothesis toResult_key : forall k out, Store.key (toResult k out) = k.

Lemma results_keys (cs : list Shard.Completion) :
  map Store.key (map (fun c => toResult (Types.opKey c.1) c.2) cs) = Store.completedKeys cs.
Proof.
  unfold Store.completedKeys. induction cs as [|c cs IH]; simpl; [done|].
  by rewrite toResult_key, IH.
Qed.

Lemma issue_accounted (shardId : Z) (item : A) (p : Store.Progress)
    (issued : list string) :
  is_Some (Store.pShards p !! Z.to_nat shardId) ->
  Store.accounted p issued ->
  Store.accounted (Store.issue env call keyOf toResult shardId p item) (issued ++ [keyOf item])
  /\ length (Store.pShards (Store.issue env call keyOf toResult shardId p item)) = length (Store.pShards p).
Proof.
  intros [s Hs] [Hperm Hatt]. unfold Store.issue. rewrite Hs.
  destruct (pending_insert _ _ _ Hs) as (others & Hp1 & Hp2).
  set (n := Store.pRound p).
  destruct (call_admits item (env n).1 (env n).2 s) as [[e He]|(op & Hk & Hop)].
  - rewrite He. split; [|done]. split; [|done]. simpl.
    rewrite map_app. simpl. rewrite toResult_key, <- Hperm. solve_Permutation.
  - rewrite Hop. destruct (Shard.enqueueOperation op _ _ s) as [[s' cs]|e] eqn:Henq.
    + destruct (enqueue_effect _ _ _ _ _ _ Henq) as [Hkeys Hatt'].
      split; [|simpl; by rewrite length_insert]. split.
      * simpl. rewrite map_app, results_keys, (Hp2 s'), <- Hperm, Hp1, <- Hk.
        transitivity (map Store.key (Store.pResults p) ++ others
                      ++ (Store.completedKeys cs ++ Store.queuedKeys s'))%list;
          [solve_Permutation|].
        rewrite Hkeys. solve_Permutation.
      * simpl. apply Forall_insert; done.
    + split; [|done]. split; [|done]. simpl.
      rewrite map_app. simpl. rewrite toResult_key, <- Hperm. solve_Permutation.
Qed.

Lemma fanOutGroup_accounted (shardId : Z) (items : list A) (p : Store.Progress)
    (issued : list string) :
  is_Some (Store.pShards p !! Z.to_nat shardId) ->
  Store.accounted p issued ->
  Store.accounted (Store.fanOutGroup env call keyOf toResult shardId items p)
            (issued ++ map keyOf items)
  /\ length (Store.pShards (Store.fanOutGroup env call keyOf toResult shardId items p))
     = length (Store.pShards p).
Proof.
  unfold Store.fanOutGroup.
  revert p issued. induction items as [|item items IH]; intros p issued Hsome Hacc.
  - simpl. by rewrite app_nil_r.
  - simpl. destruct (issue_accounted shardId item p issued Hsome Hacc) as [Hacc' Hlen'].
    destruct (IH (Store.issue env call keyOf toResult shardId p item) (issued ++ [keyOf item])%list) as [Hacc'' Hlen''].
    + apply lookup_lt_is_Some. rewrite Hlen'. by apply lookup_lt_is_Some.
    + done.
    + rewrite <- app_assoc in Hacc''. split; [done|]. by rewrite Hlen''.
Qed.

Lemma fanOut_accounted (groups : list (Z * list A)) (p : Store.Progress)
    (issued : list string) :
  Forall (fun g => is_Some (Store.pShards p !! Z.to_nat g.1)) groups ->
  Store.accounted p issued ->
  Store.accounted (Store.fanOut env call keyOf toResult groups p)
            (issued ++ concat (map (fun g => map keyOf g.2) groups)).
Proof.
  unfold Store.fanOut.
  revert p issued. induction groups as [|[shardId items] groups IH];
    intros p issued Hvalid Hacc.
  - simpl. by rewrite app_nil_r.
  - simpl. apply Forall_cons in Hvalid as [Hsome Hvalid]. simpl in Hsome.
    destruct (fanOutGroup_accounted shardId items p issued Hsome Hacc) as [Hacc' Hlen'].
    rewrite app_assoc. apply IH; [|done].
    eapply Forall_impl; [exact Hvalid|]. intros g Hg. simpl in *.
    apply lookup_lt_is_Some. rewrite Hlen'. by apply lookup_lt_is_Some.
Qed.

(** A turn of the dispatchers moves keys from the mailboxes to the
    results, and shortens every non-empty mailbox by one. *)
Lemma resumeShards_effect (n : nat) (ss : list Shard.CacheShard) :
  Forall Store.attended ss ->
  let r := Store.resumeShards env toResult n ss in
  Permutation (map Store.key r.2 ++ Store.pending r.1.1) (Store.pending ss)
  /\ Forall Store.attended r.1.1
  /\ (forall m, Forall (fun s => length (Shard.operationQueue s) <= S m)%nat ss ->
                Forall (fun s => length (Shard.operationQueue s) <= m)%nat r.1.1).
Proof.
  revert n. induction ss as [|s ss IH]; intros n Hatt.
  - simpl. repeat split; [done..|]. by constructor.
  - apply Forall_cons in Hatt as [Hs Hatt]. simpl.
    destruct (Shard.isProcessing s) eqn:Hp.
    + pose proof (resume_effect (env n).1 (env n).2 s Hs) as (Hk & Hatt' & Hlen).
      destruct (Shard.resume (env n).1 (env n).2 s) as [s' cs]. simpl in Hk, Hatt', Hlen.
      specialize (IH (S n) Hatt).
      destruct (Store.resumeShards env toResult (S n) ss) as [[rest' n'] rs].
      simpl in *. destruct IH as (IH1 & IH2 & IH3). split; [|split].
      * rewrite map_app, results_keys. unfold Store.pending in *. simpl.
        rewrite <- Hk, <- IH1. solve_Permutation.
      * by constructor.
      * intros m Hm. apply Forall_cons in Hm as [Hm1 Hm]. constructor; [lia|].
        by apply IH3.
    + specialize (IH n Hatt).
      destruct (Store.resumeShards env toResult n ss) as [[rest' n'] rs].
      simpl in *. destruct IH as (IH1 & IH2 & IH3). split; [|split].
      * unfold Store.pending in *. simpl. rewrite <- IH1. solve_Permutation.
      * by constructor.
      * intros m Hm. apply Forall_cons in Hm as [Hm1 Hm]. constructor; [|by apply IH3].
        destruct (Shard.operationQueue s) eqn:Hq; [simpl; lia|].
        unfold Store.attended in Hs. rewrite Hq, Hp in Hs. by discriminate Hs.
Qed.

Lemma idle_pending (ss : list Shard.CacheShard) :
  Forall Store.attended ss -> existsb Shard.isProcessing ss = false -> Store.pending ss = [].
Proof.
  induction 1 as [|s ss Hs _ IH]; [done|]. simpl.
  intros [Hp Hrest]%orb_false_iff. unfold Store.pending in *. simpl. rewrite IH by done.
  unfold Store.queuedKeys. destruct (Shard.operationQueue s) eqn:Hq; [done|].
  unfold Store.attended in Hs. rewrite Hq, Hp in Hs. by discriminate Hs.
Qed.

Lemma short_pending (ss : list Shard.CacheShard) :
  Forall (fun s => length (Shard.operationQueue s) <= 0)%nat ss -> Store.pending ss = [].
Proof.
  induction 1 as [|s ss Hs _ IH]; [done|]. unfold Store.pending in *. simpl. rewrite IH.
  unfold Store.queuedKeys. destruct (Shard.operationQueue s); [done|simpl in Hs; lia].
Qed.

(** With as many turns as the longest mailbox is long, every issued key
    has its result. *)
Lemma awaitAll_accounted (fuel : nat) (p : Store.Progress) (issued : list string) :
  Store.accounted p issued ->
  Forall (fun s => length (Shard.operationQueue s) <= fuel)%nat (Store.pShards p) ->
  Permutation (map Store.key (Store.pResults (Store.awaitAll fuel env toResult p)))
              issued.
Proof.
  revert p. induction fuel as [|fuel IH]; intros p [Hperm Hatt] Hshort.
  - simpl. rewrite (short_pending _ Hshort), app_nil_r in Hperm. done.
  - simpl. destruct (existsb Shard.isProcessing (Store.pShards p)) eqn:Hbusy.
    + pose proof (resumeShards_effect (Store.pRound p) (Store.pShards p) Hatt)
        as (H1 & H2 & H3).
      apply IH.
      * unfold Store.resumeAll.
        destruct (Store.resumeShards env toResult _ _) as [[ss n] rs]. simpl in *.
        split; [|done]. simpl. rewrite map_app, <- Hperm, <- H1. solve_Permutation.
      * unfold Store.resumeAll.
        destruct (Store.resumeShards env toResult _ _) as [[ss n] rs]. simpl in *.
        by apply H3.
    + rewrite (idle_pending _ Hatt Hbusy), app_nil_r in Hperm. done.
Qed.

Lemma addToGroup_spec (shardId : Z) (x : A) (groups : list (Z * list A)) (P : Z -> Prop) :
  Permutation (concat (map snd (Store.addToGroup shardId x groups)))
              (concat (map snd groups) ++ [x])
  /\ (P shardId -> Forall (fun g => P g.1) groups ->
      Forall (fun g => P g.1) (Store.addToGroup shardId x groups)).
Proof.
  induction groups as [|[id xs] groups [IH1 IH2]]; simpl.
  - split; [done|]. intros HP _. by repeat constructor.
  - destruct (id =? shardId) eqn:E; simpl.
    + split; [solve_Permutation|]. intros _ Hall. apply Forall_cons in Hall as [? ?].
      by constructor.
    + split; [rewrite IH1; solve_Permutation|].
      intros HP Hall. apply Forall_cons in Hall as [? ?]. constructor; [done|].
      by apply IH2.
Qed.

Lemma hashLoop_nonneg (key : string) (hash : Z) :
  0 <= hash -> 0 <= Hashing.hashLoop key hash.
Proof.
  revert hash. induction key as [|c key IH]; intros hash Hh; simpl; [done|].
  apply IH. apply Z.land_nonneg. by right.
Qed.

Lemma getShardForKey_range (key : string) (numShards : Z) :
  0 < numShards ->
  exists shardId, Hashing.getShardForKey key numShards = Errors.Ok shardId
                  /\ 0 <= shardId < numShards.
Proof.
  intros Hn. unfold Hashing.getShardForKey, Hashing.simpleHash.
  destruct (numShards <=? 0) eqn:E; [apply Z.leb_le in E; lia|].
  eexists. split; [done|]. apply Z.rem_bound_pos; [|done].
  by apply hashLoop_nonneg.
Qed.

Lemma groupByShard_spec (numShards : Z) (items : list A) (groups : list (Z * list A)) :
  0 < numShards ->
  Forall (fun g => 0 <= g.1 < numShards) groups ->
  exists groups',
    Store.groupByShard keyOf numShards items groups = Errors.Ok groups'
    /\ Permutation (concat (map snd groups')) (concat (map snd groups) ++ items)
    /\ Forall (fun g => 0 <= g.1 < numShards) groups'.
Proof.
  intros Hn. revert groups. induction items as [|x items IH]; intros groups Hall; simpl.
  - exists groups. by rewrite app_nil_r.
  - destruct (getShardForKey_range (keyOf x) numShards Hn) as (shardId & -> & Hrange).
    destruct (addToGroup_spec shardId x groups (fun z => 0 <= z < numShards))
      as [Hperm Hvalid].
    destruct (IH (Store.addToGroup shardId x groups)) as (groups' & -> & HP & Hall').
    { by apply Hvalid. }
    exists groups'. split; [done|]. split; [|done].
    rewrite HP, Hperm. solve_Permutation.
Qed.

Lemma roundsNeeded_bound (ss : list Shard.CacheShard) :
  Forall (fun s => length (Shard.operationQueue s) <= Store.roundsNeeded ss)%nat ss.
Proof.
  unfold Store.roundsNeeded.
  induction ss as [|s ss IH]; simpl; [constructor|]. constructor; [lia|].
  eapply Forall_impl; [exact IH|]. simpl. intros; lia.
Qed.

Lemma concat_map_keys (groups : list (Z * list A)) :
  concat (map (fun g => map keyOf g.2) groups) = map keyOf (concat (map snd groups)).
Proof.
  induction groups as [|g groups IH]; simpl; [done|]. by rewrite map_app, IH.
Qed.

(** On a store that is not overloaded and whose mailboxes are empty, a
    batch call returns one result per item; their keys are the keys of
    the items, in the order of the items when the keys are distinct. *)
Lemma batch_results_shape (items : list A) (st : Store.CacheStore) :
  Store.checkBackpressure st = None ->
  0 < Store.numShards st ->
  length (Store.shards st) = Z.to_nat (Store.numShards st) ->
  Forall (fun s => Shard.operationQueue s = []) (Store.shards st) ->
  exists results,
    (Store.batch env call keyOf toResult items st).1 = Errors.Ok results
    /\ Permutation (map Store.key results) (map keyOf items)
    /\ length results = length items
    /\ (NoDup (map keyOf items) -> map Store.key results = map keyOf items).
Proof.
  intros Hbp Hn Hlen Hidle. unfold Store.batch. rewrite Hbp.
  destruct (groupByShard_spec (Store.numShards st) items [] Hn)
    as (groups & -> & HP & Hvalid); [constructor|].
  assert (Hsome : Forall (fun g : Z * list A =>
                            is_Some (Store.shards st !! Z.to_nat g.1)) groups).
  { eapply Forall_impl; [exact Hvalid|]. intros g Hg. simpl in Hg.
    apply lookup_lt_is_Some. rewrite Hlen. lia. }
  assert (forallb (fun g : Z * list A =>
                     match Store.shards st !! Z.to_nat g.1 with
                     | Some _ => true
                     | None => false
                     end) groups = true) as ->.
  { apply forallb_forall. intros g Hg. rewrite Forall_forall in Hsome.
    apply list_elem_of_In in Hg. by destruct (Hsome g Hg) as [s ->]. }
  simpl.
  set (p0 := Store.mkProgress (Store.shards st) O []).
  assert (Hacc0 : Store.accounted p0 []).
  { split.
    - simpl. assert (Store.pending (Store.shards st) = []) as ->; [|done].
      clear -Hidle. induction Hidle as [|s ss Hs _ IH]; [done|].
      unfold Store.pending, Store.queuedKeys in *. simpl. by rewrite Hs, IH.
    - simpl. eapply Forall_impl; [exact Hidle|]. intros s Hs. unfold Store.attended.
      by rewrite Hs. }
  pose proof (fanOut_accounted groups p0 [] Hsome Hacc0) as Hacc1. simpl in Hacc1.
  set (p1 := Store.fanOut env call keyOf toResult groups p0) in *.
  pose proof (awaitAll_accounted (Store.roundsNeeded (Store.pShards p1)) p1 _ Hacc1
                (roundsNeeded_bound _)) as Hfinal.
  set (p2 := Store.awaitAll _ env toResult p1) in *.
  assert (Hkeys : Permutation (map Store.key (Store.pResults p2)) (map keyOf items)).
  { rewrite Hfinal, concat_map_keys. apply Permutation_map. by rewrite HP. }
  eexists. split; [done|].
  assert (Hsorted : Permutation
            (map Store.key (Store.sortResults (Store.keyOrder (map keyOf items))
                              (Store.pResults p2)))
            (map keyOf items)).
  { etransitivity; [apply Permutation_map, sortResults_perm|exact Hkeys]. }
  split; [done|]. split.
  - apply Permutation_length in Hsorted. by rewrite !length_map in Hsorted.
  - intros Hnd. by apply sortResults_distinct_keys.
Qed.

End BatchFacts.

Lemma setResult_key (k : string) (out : Errors.Outcome Shard.OpResult) :
  Store.key (Store.setResult k out) = k.
Proof. by destruct out as [[]|]. Qed.

Lemma deleteResult_key (k : string) (out : Errors.Outcome Shard.OpResult) :
  Store.key (Store.deleteResult k out) = k.
Proof. by destruct out as [[| |[]]|]. Qed.

(** X23.  On a store that is not overloaded, with its shards in place and
    their mailboxes empty, [batchSet] resolves with one result per item:
    the keys of the results are a permutation of the keys of the items,
    and they come in the order of the items when the keys are distinct. *)
Lemma batchSet_results_shape (items : list Store.BatchSetItem) (env : Store.Env)
    (st : Store.CacheStore) :
  Store.checkBackpressure st = None ->
  0 < Store.numShards st ->
  length (Store.shards st) = Z.to_nat (Store.numShards st) ->
  Forall (fun s => Shard.operationQueue s = []) (Store.shards st) ->
  exists results,
    (Store.batchSet items env st).1 = Errors.Ok results
    /\ Permutation (map Store.key results) (map Store.itemKey items)
    /\ length results = length items
    /\ (NoDup (map Store.itemKey items) ->
        map Store.key results = map Store.itemKey items).
Proof.
  apply batch_results_shape; [|apply setResult_key].
  intros item now ver s. unfold Shard.set.
  destruct (Shard.createEntry _ _ _ _) as [e|err]; [right|left; eauto].
  eexists. split; [|done]. done.
Qed.

(** X24.  On a store that is not overloaded, with its shards in place and
    their mailboxes empty, [batchDelete] resolves with one result per key:
    the keys of the results are a permutation of the keys asked for, and
    they come in the order asked when the keys are distinct. *)
Lemma batchDelete_results_shape (keys : list string) (env : Store.Env)
    (st : Store.CacheStore) :
  Store.checkBackpressure st = None ->
  0 < Store.numShards st ->
  length (Store.shards st) = Z.to_nat (Store.numShards st) ->
  Forall (fun s => Shard.operationQueue s = []) (Store.shards st) ->
  exists results,
    (Store.batchDelete keys env st).1 = Errors.Ok results
    /\ Permutation (map Store.key results) keys
    /\ length results = length keys
    /\ (NoDup keys -> map Store.key results = keys).
Proof.
  intros Hbp Hn Hlen Hidle.
  destruct (batch_results_shape env (fun k => Shard.delete k None) (fun k => k)
              Store.deleteResult) with (items := keys) (st := st)
    as (results & H1 & H2 & H3 & H4); try done.
  - intros item now ver s. right. eexists. split; [|done]. done.
  - apply deleteResult_key.
  - exists results. rewrite map_id in *. done.
Qed.

(** * TTL validation *)

Lemma deleteEntry_lookup_Some (k k' : string) (s : Shard.CacheShard) (x : Types.CacheEntry) :
  Shard.entries (Shard.deleteEntry k s).2 !! k' = Some x ->
  Shard.entries s !! k' = Some x.
Proof.
  unfold Shard.deleteEntry. destruct (Shard.entries s !! k); simpl; [|done].
  intros H. by apply lookup_delete_Some in H as [_ ?].
Qed.

Lemma drainEvicted_lookup_Some (evicted : list string) (s : Shard.CacheShard)
    (k : string) (x : Types.CacheEntry) :
  Shard.entries (Shard.drainEvicted evicted s) !! k = Some x ->
  Shard.entries s !! k = Some x.
Proof.
  revert s. induction evicted as [|ek evicted IH]; intros s; simpl; [done|].
  intros H. apply IH in H. simpl in H. by eapply deleteEntry_lookup_Some.
Qed.

(** What a successful [executeSet] leaves under the key, if anything: the
    admitted entry with the new version and the clock of the execution. *)
Lemma executeSet_stored (op : Types.ShardOperation) (e e' : Types.CacheEntry)
    (now : Z) (ver : string) (s : Shard.CacheShard) (r : Shard.OpResult) :
  Types.entry op = Some (Types.EntryOf e) ->
  (Shard.executeSet op now ver s).1 = Errors.Ok r ->
  Shard.entries (Shard.executeSet op now ver s).2 !! Types.opKey op = Some e' ->
  e' = Types.mkEntry (Types.key e) (Types.value e) (Types.type e) ver
         (Shard.createdAtOr (Shard.entries s !! Types.opKey op) now) now
         (Types.expiresAt e) (Types.sizeBytes e).
Proof.
  intros Hentry. unfold Shard.executeSet. rewrite Hentry.
  destruct (_ && _); [discriminate|].
  destruct (_ && _); [discriminate|].
  destruct (_ <? _); [discriminate|].
  simpl. destruct (LRU.set _ _ _ _) as [evicted l'] eqn:El. intros _ Hlook.
  assert (Hdrain : forall s1, Shard.entries
             (match Types.expiresAt e with
              | Some t => if truthyZ t
                          then Shard.with_ttlHeap
                                 (MinHeap.push (MinHeap.mkHeapEntry (Types.opKey op) t
                                                  (Shard.shardId s1)) (Shard.ttlHeap s1)) s1
                          else s1
              | None => s1
              end) = Shard.entries s1).
  { intros s1. destruct (Types.expiresAt e) as [t|]; [|done]. by destruct (truthyZ t). }
  simpl in Hlook. rewrite Hdrain in Hlook.
  apply drainEvicted_lookup_Some in Hlook. simpl in Hlook.
  rewrite lookup_insert_eq in Hlook. by injection Hlook as <-.
Qed.

(** C9 (as amended).  A TTL of zero passes validation and means no TTL.
    [TTLSchema] admits every integer from 0 to 2147483647, and
    [createEntry] tests [ttlSec] for truthiness: with [ttlSec = 0] it
    builds the entry it builds without [ttlSec], with no [expiresAt].
    With a validated [ttlSec >= 1] the admitted entry has
    [expiresAt = now + ttlSec * 1000], later than its [updatedAt = now];
    the entry that [executeSet] then stores keeps this [expiresAt] and
    takes the clock of the execution as [updatedAt]. *)
Theorem ttl_zero_means_no_expiry (k : string) (v : Types.JsValue) (ttl now : Z) :
  Validators.TTLSchema ttl = true ->
  (ttl = 0 ->
     Validators.SetRequestSchema v (Some ttl) = Validators.SetRequestSchema v None
     /\ Shard.createEntry k v (Some ttl) now = Shard.createEntry k v None now)
  /\ (forall e, Shard.createEntry k v (Some ttl) now = Errors.Ok e ->
        (ttl = 0 -> Types.expiresAt e = None)
        /\ (ttl <> 0 ->
              Types.expiresAt e = Some (now + ttl * 1000)
              /\ Types.updatedAt e = now
              /\ Types.updatedAt e < now + ttl * 1000)
        /\ (forall op now' ver s r e',
              Types.entry op = Some (Types.EntryOf e) ->
              (Shard.executeSet op now' ver s).1 = Errors.Ok r ->
              Shard.entries (Shard.executeSet op now' ver s).2 !! Types.opKey op = Some e' ->
              Types.expiresAt e' = Types.expiresAt e /\ Types.updatedAt e' = now')).
Proof.
  intros Hschema. unfold Validators.TTLSchema in Hschema.
  apply andb_true_iff in Hschema as [Hlo Hhi]. apply Z.leb_le in Hlo, Hhi.
  split.
  - intros ->. split.
    + reflexivity.
    + reflexivity.
  - intros e He. unfold Shard.createEntry in He.
    destruct (Validators.validateInferredValue v) as [[v' t]|]; [|discriminate].
    injection He as <-. simpl. split; [by intros ->|]. split.
    + intros Hnz. unfold truthyZ.
      destruct (ttl =? 0) eqn:E; [apply Z.eqb_eq in E; lia|]. simpl.
      repeat split. lia.
    + intros op now' ver s r e' Hentry Hok Hlook.
      rewrite (executeSet_stored _ _ _ _ _ _ _ Hentry Hok Hlook). done.
Qed.

Lemma ttl_zero_means_no_expiry_witness :
  Validators.TTLSchema 0 = true
  /\ Shard.createEntry "k" (Types.JString "x") (Some 0) 1000
     = Shard.createEntry "k" (Types.JString "x") None 1000.
Proof.
  split; [reflexivity|].
  apply (ttl_zero_means_no_expiry "k" (Types.JString "x") 0 1000); reflexivity.
Defined.

(** C9, the claim refuted.  A [PUT] with [ttlSec = 0] passes [TTLSchema]
    and the route answers 201; the entry is stored without [expiresAt], and
    a read long afterwards still returns it. *)
Lemma ttl_zero_counterexample :
  let req := Boundary.mkPut "k" (Types.JString "x") (Some 0) 20 None None in
  let r := Boundary.putRoute 1000 req Scenarios.env0 Scenarios.store2 in
  Validators.TTLSchema 0 = true
  /\ Boundary.status r.1 = 201
  /\ (Store.get "k" 9999999999 r.2).1
     = Errors.Ok (Some (Types.mkEntry "k" (Types.JString "x") Types.TString "v0"
                                       1000 1000 None 1)).
Proof. vm_compute. repeat split; reflexivity. Qed.

(** * Counterexamples and witnesses for the shard *)

(** C4, the claim refuted.  [k] is live with version [v1].  A set with
    [ifMatch = v0] and [ifNoneMatch] meets a differing version, yet the
    conflict it throws is the one of the [ifNoneMatch] check, whose detail
    has the key only: neither [expected] nor [actual]. *)
Lemma cas_detail_counterexample :
  let op := Types.mkOp Types.OpSet "k" (Some (Types.EntryOf Scenarios.entryB))
                       (Some "v0") (Some true) in
  let r := Shard.executeSet op 2000 "v2" Scenarios.shardLive in
  (Types.version <$> Shard.effectiveEntry "k" 2000 Scenarios.shardLive) = Some "v1"
  /\ r = (Errors.Throw (Errors.ConflictError "Key already exists"
                          [("key", Errors.DString "k")]), Scenarios.shardLive)
  /\ (forall e, r.1 = Errors.Throw e ->
                Errors.detail "expected" e = None /\ Errors.detail "actual" e = None).
Proof.
  cbv zeta. split; [vm_compute; reflexivity|]. split; [vm_compute; reflexivity|].
  intros e He. vm_compute in He. injection He as <-. by vm_compute.
Qed.

Lemma cas_conditional_set_witness :
  Shard.executeSet (Types.mkOp Types.OpSet "k" (Some (Types.EntryOf Scenarios.entryB))
                               (Some "v0") None) 2000 "v2" Scenarios.shardLive
  = (Errors.Throw (Errors.ConflictError "Version mismatch"
                     [("key", Errors.DString "k");
                      ("expected", Errors.DString "v0");
                      ("actual", Errors.DString "v1")]), Scenarios.shardLive).
Proof.
  pose proof (cas_conditional_set
                (Types.mkOp Types.OpSet "k" (Some (Types.EntryOf Scenarios.entryB))
                            (Some "v0") None)
                Scenarios.entryB 2000 "v2" Scenarios.shardLive eq_refl) as (_ & _ & H).
  apply (H "v0"); [reflexivity | discriminate | discriminate |].
  right. eexists. split; [vm_compute; reflexivity|]. simpl. discriminate.
Defined.

(** The failing input of C8.  At 1002000 ms the entry [hits] expired a
    second ago and no sweeper has run: a read treats it as a miss, but
    [executeDelete] removes it and returns [true], and the route answers
    204. *)
Lemma delete_expired_answers_204 :
  let now := 1002000 in
  let op := Types.mkOp Types.OpDelete "hits" None None None in
  Shard.entries Scenarios.shardCounter !! "hits" = Some Scenarios.counterEntry
  /\ Shard.expiredAt (Types.expiresAt Scenarios.counterEntry) now = true
  /\ (Shard.get "hits" now Scenarios.shardCounter).1 = None
  /\ (Shard.executeDelete op Scenarios.shardCounter).1 = Errors.Ok (Shard.RBool true)
  /\ Shard.entries (Shard.executeDelete op Scenarios.shardCounter).2 !! "hits" = None
  /\ Boundary.status
       (Boundary.deleteRoute "hits" None (fun _ => (now, "v9")) Scenarios.storeCounter).1
     = 204.
Proof. vm_compute. repeat split; reflexivity. Qed.

Lemma delete_ignores_expiry_witness :
  (Shard.executeDelete (Types.mkOp Types.OpDelete "hits" None None None)
                       Scenarios.shardCounter).1 = Errors.Ok (Shard.RBool true)
  /\ Shard.executeDelete (Types.mkOp Types.OpDelete "gone" None None None)
                         Scenarios.shardCounter
     = (Errors.Ok (Shard.RBool false), Scenarios.shardCounter).
Proof.
  pose proof (delete_ignores_expiry (Types.mkOp Types.OpDelete "hits" None None None)
                Scenarios.shardCounter) as (_ & H & _).
  pose proof (delete_ignores_expiry (Types.mkOp Types.OpDelete "gone" None None None)
                Scenarios.shardCounter) as (H' & _).
  split.
  - apply (H Scenarios.counterEntry); [vm_compute; reflexivity|by left].
  - apply H'. vm_compute. reflexivity.
Defined.

Lemma get_never_returns_expired_witness :
  (Shard.get "hits" 1002000 Scenarios.shardCounter).1 = None.
Proof.
  pose proof (get_never_returns_expired Scenarios.shardCounter "hits" 1002000) as [H _].
  apply (H Scenarios.counterEntry 1001000);
    [vm_compute; reflexivity | reflexivity | discriminate | vm_compute; discriminate].
Defined.

Lemma increment_resurrects_expired_witness :
  (Shard.executeIncrement "hits" 1%float 1002000 "v2" Scenarios.shardCounter).1
  = Errors.Ok (Shard.RIncr 42%float "v2").
Proof.
  apply (increment_resurrects_expired Scenarios.shardCounter "hits"
           Scenarios.counterEntry 1001000 41%float 1%float 1002000 "v2");
    [vm_compute; reflexivity | reflexivity | reflexivity | reflexivity
    | discriminate | vm_compute; discriminate].
Defined.

Lemma lru_set_eviction_postcondition_witness :
  let l := Scenarios.run_sets [("key1", "value1", 15); ("key2", "value2", 15)]
                              (LRU.create (Fin 10) (Fin 50)) in
  LRU.wf l /\ LRU.wf (LRU.set "key3" "value3" 30 l).2.
Proof.
  cbv zeta.
  assert (Hwf : LRU.wf (Scenarios.run_sets
                          [("key1", "value1", 15); ("key2", "value2", 15)]
                          (LRU.create (Fin 10) (Fin 50)))).
  { change (LRU.wf (LRU.set "key2" "value2" 15
                      (LRU.set "key1" "value1" 15 (LRU.create (Fin 10) (Fin 50))).2).2).
    apply set_wf; [|lia]. apply set_wf; [|lia]. apply create_wf. }
  split; [exact Hwf|].
  destruct (lru_set_eviction_postcondition "key3" "value3" 30 _ Hwf)
    as (n & _ & _ & Heq & _ & _ & _ & _ & _ & _ & Hwf2); [lia|].
  rewrite Heq. exact Hwf2.
Defined.

(** * The heap order of the expiration heap *)

(** The parent index [Math.floor((c - 1) / 2)] and the child indices
    [2 * p + 1] and [2 * p + 2]. *)
Lemma parent_child (c p : nat) :
  (0 < c)%nat -> ((c - 1) / 2)%nat = p <-> (c = 2 * p + 1 \/ c = 2 * p + 2)%nat.
Proof.
  intros Hc. pose proof (Nat.div_mod_eq (c - 1) 2).
  pose proof (Nat.mod_upper_bound (c - 1) 2 ltac:(lia)).
  split.
  - lia.
  - intros [->| ->].
    + replace (2 * p + 1 - 1)%nat with (p * 2)%nat by lia. apply Nat.div_mul. lia.
    + replace (2 * p + 2 - 1)%nat with (1 + p * 2)%nat by lia.
      rewrite Nat.div_add by lia. done.
Qed.

Lemma parent_lt (c : nat) : (0 < c)%nat -> ((c - 1) / 2 < c)%nat.
Proof. intros Hc. pose proof (Nat.div_mod_eq (c - 1) 2). lia. Qed.

Lemma swap_lookup (i j k : nat) (heap : MinHeap.t) :
  (i < length heap)%nat -> (j < length heap)%nat ->
  MinHeap.swap i j heap !! k
  = if decide (k = j) then heap !! i
    else if decide (k = i) then heap !! j
    else heap !! k.
Proof.
  intros Hi Hj. unfold MinHeap.swap.
  destruct (lookup_lt_is_Some_2 heap i Hi) as [a Ha].
  destruct (lookup_lt_is_Some_2 heap j Hj) as [b Hb].
  rewrite Ha, Hb.
  destruct (decide (k = j)) as [->|Hkj].
  - apply list_lookup_insert_eq. by rewrite length_insert.
  - rewrite list_lookup_insert_ne by done.
    destruct (decide (k = i)) as [->|Hki].
    + by apply list_lookup_insert_eq.
    + by rewrite list_lookup_insert_ne.
Qed.

Lemma insert_swap_perm (i : nat) (x y : MinHeap.HeapEntry) (heap : MinHeap.t) :
  heap !! i = Some x -> Permutation (x :: <[i:=y]> heap) (y :: heap).
Proof.
  intros Hx.
  assert (i < length heap)%nat as Hi by by eapply lookup_lt_Some.
  rewrite insert_take_drop by done.
  rewrite <- (take_drop_middle heap i x Hx) at 3.
  solve_Permutation.
Qed.

Lemma swap_perm (i j : nat) (heap : MinHeap.t) : Permutation (MinHeap.swap i j heap) heap.
Proof.
  unfold MinHeap.swap.
  destruct (heap !! i) as [a|] eqn:Ha; [|done].
  destruct (heap !! j) as [b|] eqn:Hb; [|done].
  assert (i < length heap)%nat as Hi by by eapply lookup_lt_Some.
  assert ((<[i:=b]> heap) !! j = Some b) as Hj.
  { destruct (decide (j = i)) as [->|Hne].
    - by apply list_lookup_insert_eq.
    - by rewrite list_lookup_insert_ne. }
  apply (Permutation_cons_inv (a := b)).
  etransitivity; [apply (insert_swap_perm j b a _ Hj)|].
  by apply insert_swap_perm.
Qed.

Lemma heapifyUp_perm (fuel index : nat) (heap : MinHeap.t) :
  Permutation (MinHeap.heapifyUp fuel index heap) heap.
Proof.
  revert index heap. induction fuel as [|fuel IH]; intros index heap; [done|].
  cbn -[Nat.div Nat.sub]. destruct index as [|n]; [done|].
  destruct (MinHeap.lt_at heap (S n) ((S n - 1) / 2)); [|done].
  etransitivity; [apply IH|apply swap_perm].
Qed.

Lemma heapifyDown_perm (fuel index : nat) (heap : MinHeap.t) :
  Permutation (MinHeap.heapifyDown fuel index heap) heap.
Proof.
  revert index heap. induction fuel as [|fuel IH]; intros index heap; [done|].
  cbn -[Nat.mul Nat.add Nat.ltb Nat.eqb].
  match goal with |- context [if ?c then heap else _] => destruct c end; [done|].
  etransitivity; [apply IH|apply swap_perm].
Qed.

Lemma lt_at_true (heap : MinHeap.t) (i j : nat) :
  MinHeap.lt_at heap i j = true ->
  exists a b, heap !! i = Some a /\ heap !! j = Some b
              /\ MinHeap.expiresAt a < MinHeap.expiresAt b.
Proof.
  unfold MinHeap.lt_at.
  destruct (heap !! i) as [a|]; [|done]. destruct (heap !! j) as [b|]; [|done].
  intros H%Z.ltb_lt. eauto.
Qed.

Lemma lt_at_false (heap : MinHeap.t) (i j : nat) a b :
  MinHeap.lt_at heap i j = false -> heap !! i = Some a -> heap !! j = Some b ->
  MinHeap.expiresAt b <= MinHeap.expiresAt a.
Proof.
  unfold MinHeap.lt_at. intros H Ha Hb. rewrite Ha, Hb in H.
  by apply Z.ltb_ge in H.
Qed.

Lemma up_inv_root (heap : MinHeap.t) : MinHeap.up_inv heap 0 -> MinHeap.is_heap heap.
Proof.
  intros [H _] i a p Hi Ha Hp. apply (H i a p); [done|lia|done|done].
Qed.

Lemma heapifyUp_heap (fuel index : nat) (heap : MinHeap.t) :
  (index <= fuel)%nat -> (index < length heap)%nat ->
  MinHeap.up_inv heap index ->
  MinHeap.is_heap (MinHeap.heapifyUp fuel index heap).
Proof.
  revert index heap. induction fuel as [|fuel IH]; intros index heap Hfuel Hlen Hinv.
  { assert (index = 0)%nat as -> by lia. by apply up_inv_root. }
  cbn -[Nat.div Nat.sub]. destruct index as [|n]; [by apply up_inv_root|].
  set (i := S n) in *. set (p := ((i - 1) / 2)%nat).
  assert (p < i)%nat as Hpi by (apply parent_lt; lia).
  destruct (MinHeap.lt_at heap i p) eqn:Hlt.
  - apply lt_at_true in Hlt as (a & b & Ha & Hb & Hab).
    destruct Hinv as [Hedges Hgrand].
    assert (forall k, MinHeap.swap i p heap !! k
                      = if decide (k = p) then heap !! i
                        else if decide (k = i) then heap !! p else heap !! k) as Hsw.
    { intros k. apply swap_lookup; lia. }
    apply IH; [lia|rewrite swap_length; lia|].
    split.
    + intros j x y Hj Hjp. rewrite !Hsw.
      destruct (decide (j = p)) as [|_]; [done|].
      destruct (decide (j = i)) as [->|Hji].
      * fold p. rewrite decide_True by done. rewrite Ha, Hb.
        intros [= <-] [= <-]. lia.
      * destruct (decide (((j - 1) / 2)%nat = p)) as [Hpar|Hpar].
        -- rewrite Ha. intros Hx [= <-].
           pose proof (Hedges j x b Hj Hji Hx) as H. rewrite Hpar in H.
           specialize (H Hb). lia.
        -- destruct (decide (((j - 1) / 2)%nat = i)) as [Hpar'|Hpar'].
           ++ rewrite Hb. intros Hx [= <-].
              apply (Hgrand j x b); subst i; try done; lia.
           ++ intros Hx Hy. by apply (Hedges j x y).
    + intros c x g Hp0 Hc Hcp. rewrite !Hsw.
      pose proof (parent_lt p Hp0) as Hpp.
      pose proof (proj1 (parent_child c p Hc) Hcp) as Hcp'.
      rewrite (decide_False (P := ((p - 1) / 2)%nat = p)) by lia.
      rewrite (decide_False (P := ((p - 1) / 2)%nat = i)) by lia.
      rewrite (decide_False (P := c = p)) by lia.
      destruct (decide (c = i)) as [->|Hci].
      * rewrite Hb. intros [= <-] Hg.
        apply (Hedges p b g); [lia|lia|done|done].
      * intros Hx Hg.
        pose proof (Hedges c x b Hc Hci Hx) as H1. rewrite Hcp in H1.
        specialize (H1 Hb).
        pose proof (Hedges p b g Hp0 ltac:(lia) Hb Hg). lia.
  - intros j x y Hj Hx Hy.
    destruct (decide (j = i)) as [->|Hji].
    + fold p in Hy. by eapply lt_at_false.
    + by apply (proj1 Hinv j x y).
Qed.

Lemma is_heap_snoc_up (heap : MinHeap.t) (entry : MinHeap.HeapEntry) :
  MinHeap.is_heap heap -> MinHeap.up_inv (heap ++ [entry]) (length heap).
Proof.
  intros Hh. split.
  - intros j a p Hj Hne Ha Hp.
    assert (j < length heap)%nat as Hlt.
    { apply lookup_lt_Some in Ha. rewrite length_app in Ha. simpl in Ha. lia. }
    assert (((j - 1) / 2)%nat < length heap)%nat as Hlt'.
    { pose proof (parent_lt j Hj). lia. }
    rewrite lookup_app_l in Ha, Hp by done. by apply (Hh j a p).
  - intros c a g _ Hc Hcp Ha Hg.
    apply lookup_lt_Some in Ha. rewrite length_app in Ha. simpl in Ha.
    pose proof (parent_lt c Hc). lia.
Qed.

Lemma down_step (heap : MinHeap.t) (index s : nat) :
  MinHeap.down_inv heap index ->
  (0 < s)%nat -> ((s - 1) / 2)%nat = index -> (s < length heap)%nat ->
  (forall a b, heap !! s = Some a -> heap !! index = Some b ->
               MinHeap.expiresAt a <= MinHeap.expiresAt b) ->
  (forall o a b, (0 < o)%nat -> ((o - 1) / 2)%nat = index ->
                 heap !! s = Some a -> heap !! o = Some b ->
                 MinHeap.expiresAt a <= MinHeap.expiresAt b) ->
  MinHeap.down_inv (MinHeap.swap index s heap) s.
Proof.
  intros [Hedges Hgrand] Hs Hpar Hlen Hroot Hsib.
  pose proof (parent_lt s Hs) as Hlt.
  assert (forall k, MinHeap.swap index s heap !! k
                    = if decide (k = s) then heap !! index
                      else if decide (k = index) then heap !! s else heap !! k) as Hsw.
  { intros k. apply swap_lookup; lia. }
  split.
  - intros j x y Hj Hjs. rewrite !Hsw.
    pose proof (parent_lt j Hj) as Hjlt.
    rewrite (decide_False (P := ((j - 1) / 2)%nat = s)) by done.
    destruct (decide (j = s)) as [->|Hne].
    + rewrite decide_True by done. intros Hx Hy. by apply (Hroot y x).
    + destruct (decide (j = index)) as [->|Hji].
      * rewrite decide_False by lia. intros Hx Hy.
        apply (Hgrand s x y); [done|done|done|done|done].
      * destruct (decide (((j - 1) / 2)%nat = index)) as [Hpj|Hpj].
        -- intros Hx Hy. by apply (Hsib j y x).
        -- intros Hx Hy. by apply (Hedges j x y).
  - intros c x g _ Hc Hcs. rewrite !Hsw.
    pose proof (parent_lt c Hc) as Hclt.
    rewrite (decide_False (P := c = s)) by lia.
    rewrite (decide_False (P := c = index)) by lia.
    rewrite Hpar. rewrite (decide_False (P := index = s)) by lia.
    rewrite decide_True by done.
    intros Hx Hg. apply (Hedges c x g); [done|lia| done|by rewrite Hcs].
Qed.

Lemma andb_lt_false (heap : MinHeap.t) (c i : nat) a b :
  (c <? length heap)%nat && MinHeap.lt_at heap c i = false ->
  heap !! c = Some a -> heap !! i = Some b ->
  MinHeap.expiresAt b <= MinHeap.expiresAt a.
Proof.
  intros H Ha Hb. apply lookup_lt_Some in Ha as Hlt.
  apply Nat.ltb_lt in Hlt. rewrite Hlt in H. simpl in H.
  by eapply lt_at_false.
Qed.

Lemma andb_lt_true (heap : MinHeap.t) (c i : nat) :
  (c <? length heap)%nat && MinHeap.lt_at heap c i = true ->
  (c < length heap)%nat
  /\ exists a b, heap !! c = Some a /\ heap !! i = Some b
                 /\ MinHeap.expiresAt a < MinHeap.expiresAt b.
Proof.
  intros [H1 H2]%andb_true_iff. apply Nat.ltb_lt in H1.
  split; [done|]. by apply lt_at_true.
Qed.

Lemma heapifyDown_heap (fuel index : nat) (heap : MinHeap.t) :
  (length heap <= fuel + index)%nat ->
  MinHeap.down_inv heap index ->
  MinHeap.is_heap (MinHeap.heapifyDown fuel index heap).
Proof.
  revert index heap. induction fuel as [|fuel IH]; intros index heap Hfuel Hinv.
  { simpl. intros j x y Hj Hx Hy. apply (proj1 Hinv j x y); try done.
    apply lookup_lt_Some in Hx. pose proof (parent_lt j Hj). lia. }
  cbn -[Nat.mul Nat.add Nat.ltb Nat.eqb].
  set (l := (2 * index + 1)%nat). set (r := (2 * index + 2)%nat).
  assert (((l - 1) / 2)%nat = index) as Hl.
  { apply parent_child; unfold l; lia. }
  assert (((r - 1) / 2)%nat = index) as Hr.
  { apply parent_child; unfold r; lia. }
  assert (forall o, (0 < o)%nat -> ((o - 1) / 2)%nat = index -> o = l \/ o = r) as Hkids.
  { intros o Ho Hpo. apply parent_child in Hpo; [|done]. subst l r. lia. }
  destruct ((l <? length heap)%nat && MinHeap.lt_at heap l index) eqn:Hc1.
  - apply andb_lt_true in Hc1 as (Hllen & a & b & Ha & Hb & Hab).
    destruct ((r <? length heap)%nat && MinHeap.lt_at heap r l) eqn:Hc2.
    + apply andb_lt_true in Hc2 as (Hrlen & c & a' & Hc & Ha' & Hca).
      assert (a' = a) as -> by congruence.
      rewrite (proj2 (Nat.eqb_neq r index)) by (subst r; lia).
      apply IH; [rewrite swap_length; subst r; lia|].
      apply down_step; try done; [subst r; lia| |].
      * intros x y Hx Hy. assert (x = c) as -> by congruence.
        assert (y = b) as -> by congruence. lia.
      * intros o x y Ho Hpo Hx Hy. assert (x = c) as -> by congruence.
        destruct (Hkids o Ho Hpo) as [-> | ->].
        -- assert (y = a) as -> by congruence. lia.
        -- assert (y = c) as -> by congruence. lia.
    + rewrite (proj2 (Nat.eqb_neq l index)) by (subst l; lia).
      apply IH; [rewrite swap_length; subst l; lia|].
      apply down_step; try done; [subst l; lia| |].
      * intros x y Hx Hy. assert (x = a) as -> by congruence.
        assert (y = b) as -> by congruence. lia.
      * intros o x y Ho Hpo Hx Hy. assert (x = a) as -> by congruence.
        destruct (Hkids o Ho Hpo) as [-> | ->].
        -- assert (y = a) as -> by congruence. lia.
        -- by eapply andb_lt_false.
  - destruct ((r <? length heap)%nat && MinHeap.lt_at heap r index) eqn:Hc2.
    + apply andb_lt_true in Hc2 as (Hrlen & c & b & Hc & Hb & Hcb).
      rewrite (proj2 (Nat.eqb_neq r index)) by (subst r; lia).
      apply IH; [rewrite swap_length; subst r; lia|].
      apply down_step; try done; [subst r; lia| |].
      * intros x y Hx Hy. assert (x = c) as -> by congruence.
        assert (y = b) as -> by congruence. lia.
      * intros o x y Ho Hpo Hx Hy. assert (x = c) as -> by congruence.
        destruct (Hkids o Ho Hpo) as [-> | ->].
        -- pose proof (andb_lt_false _ _ _ _ _ Hc1 Hy Hb). lia.
        -- assert (y = c) as -> by congruence. lia.
    + rewrite Nat.eqb_refl.
      intros j x y Hj Hx Hy.
      destruct (decide (((j - 1) / 2)%nat = index)) as [Hpj|Hpj].
      * rewrite Hpj in Hy.
        destruct (Hkids j Hj Hpj) as [E|E]; rewrite E in Hx.
        -- apply (andb_lt_false _ _ _ _ _ Hc1 Hx Hy).
        -- apply (andb_lt_false _ _ _ _ _ Hc2 Hx Hy).
      * by apply (proj1 Hinv j x y).
Qed.

Lemma is_heap_nil : MinHeap.is_heap [].
Proof. intros i a p _ Ha. done. Qed.

(** The record at the root expires first. *)
Lemma is_heap_root (heap : MinHeap.t) (root : MinHeap.HeapEntry) :
  MinHeap.is_heap heap -> heap !! 0%nat = Some root ->
  Forall (MinHeap.le_expiry root) heap.
Proof.
  intros Hh Hroot. apply Forall_lookup. intros i.
  induction (lt_wf i) as [i _ IH]. intros x Hx.
  destruct i as [|n].
  - assert (x = root) as -> by congruence. unfold MinHeap.le_expiry. lia.
  - pose proof (parent_lt (S n) ltac:(lia)) as Hlt.
    destruct (lookup_lt_is_Some_2 heap ((S n - 1) / 2)%nat) as [p Hp].
    { apply lookup_lt_Some in Hx. lia. }
    pose proof (IH _ Hlt p Hp) as H1.
    pose proof (Hh (S n) x p ltac:(lia) Hx Hp) as H2.
    unfold MinHeap.le_expiry in *. lia.
Qed.

Lemma push_perm (entry : MinHeap.HeapEntry) (heap : MinHeap.t) :
  Permutation (MinHeap.push entry heap) (entry :: heap).
Proof.
  unfold MinHeap.push. etransitivity; [apply heapifyUp_perm|].
  by rewrite Permutation_app_comm.
Qed.

Lemma push_heap (entry : MinHeap.HeapEntry) (heap : MinHeap.t) :
  MinHeap.is_heap heap -> MinHeap.is_heap (MinHeap.push entry heap).
Proof.
  intros Hh. unfold MinHeap.push.
  apply heapifyUp_heap.
  - lia.
  - rewrite length_app. simpl. lia.
  - replace (length (heap ++ [entry]) - 1)%nat with (length heap)
      by (rewrite length_app; simpl; lia).
    by apply is_heap_snoc_up.
Qed.

(** What [pop()] does to an array of two records or more. *)
Lemma pop_cons (m x : MinHeap.HeapEntry) (rest : MinHeap.t) :
  MinHeap.pop (m :: x :: rest)
  = (Some m,
     MinHeap.heapifyDown (S (length rest)) 0
       (List.last (x :: rest) m :: removelast (x :: rest))).
Proof.
  unfold MinHeap.pop.
  change (removelast (m :: x :: rest)) with (m :: removelast (x :: rest)).
  change (List.last (m :: x :: rest) m) with (List.last (x :: rest) m).
  cbn [insert list_insert]. do 2 f_equal.
  cbn [length]. f_equal.
  rewrite removelast_firstn_len, length_take. simpl. lia.
Qed.

Lemma removelast_lookup (l : MinHeap.t) (i : nat) (a : MinHeap.HeapEntry) :
  removelast l !! i = Some a -> l !! i = Some a.
Proof.
  rewrite removelast_firstn_len. intros H.
  by apply lookup_take_Some in H as [H _].
Qed.

Lemma pop_spec (heap : MinHeap.t) :
  MinHeap.is_heap heap ->
  match MinHeap.pop heap with
  | (None, heap') => heap = [] /\ heap' = []
  | (Some m, heap') =>
      MinHeap.peek heap = Some m
      /\ Permutation heap (m :: heap')
      /\ MinHeap.is_heap heap'
      /\ Forall (MinHeap.le_expiry m) heap'
  end.
Proof.
  intros Hh. destruct heap as [|m [|x rest]].
  - done.
  - simpl. repeat split; [done|apply is_heap_nil|constructor].
  - rewrite pop_cons.
    set (heap' := List.last (x :: rest) m :: removelast (x :: rest)).
    assert (Permutation (x :: rest) heap') as Hperm.
    { unfold heap'.
      rewrite (app_removelast_last (l := x :: rest) m) at 1 by done.
      by rewrite Permutation_app_comm. }
    assert (Permutation (MinHeap.heapifyDown (S (length rest)) 0 heap') (x :: rest)) as Hperm'.
    { etransitivity; [apply heapifyDown_perm|done]. }
    split; [done|]. split; [|split].
    + constructor. by symmetry.
    + apply heapifyDown_heap.
      * unfold heap'. cbn [length].
        rewrite removelast_firstn_len, length_take. simpl. lia.
      * split; [|intros; lia].
        intros j a p Hj Hpar Ha Hp.
        destruct j as [|n]; [lia|].
        destruct ((S n - 1) / 2)%nat as [|q] eqn:Hq; [done|].
        change (removelast (x :: rest) !! n = Some a) in Ha.
        change (removelast (x :: rest) !! q = Some p) in Hp.
        apply removelast_lookup in Ha, Hp.
        apply (Hh (S n) a p); [lia|done|by rewrite Hq].
    + rewrite Hperm'.
      pose proof (is_heap_root _ m Hh eq_refl) as Hall.
      by apply Forall_cons in Hall as [_ Hall].
Qed.

Lemma popExpiredLoop_heap (fuel : nat) (now : Z) (heap : MinHeap.t)
  (acc : list MinHeap.HeapEntry) :
  (length heap <= fuel)%nat -> MinHeap.is_heap heap ->
  exists expired,
    (MinHeap.popExpiredLoop fuel now heap acc).1 = (acc ++ expired)%list
    /\ Permutation heap (expired ++ (MinHeap.popExpiredLoop fuel now heap acc).2)
    /\ Forall (fun e => MinHeap.expiresAt e <= now) expired
    /\ Forall (fun e => now < MinHeap.expiresAt e)
              (MinHeap.popExpiredLoop fuel now heap acc).2
    /\ MinHeap.is_heap (MinHeap.popExpiredLoop fuel now heap acc).2
    /\ StronglySorted MinHeap.le_expiry expired.
Proof.
  revert heap acc. induction fuel as [|fuel IH]; intros heap acc Hfuel Hh.
  { destruct heap; [|simpl in Hfuel; lia].
    exists []. simpl. rewrite app_nil_r. repeat split; try done; constructor. }
  simpl. destruct (heap !! 0%nat) as [root|] eqn:Hroot.
  - destruct (MinHeap.expiresAt root <=? now) eqn:Hle.
    + apply Z.leb_le in Hle.
      pose proof (pop_spec heap Hh) as Hpop.
      pose proof (pop_length heap) as Hlen.
      assert (0 < length heap)%nat by by eapply lookup_lt_Some.
      destruct (MinHeap.pop heap) as [[m|] heap'].
      * destruct Hpop as (Hpeek & Hperm & Hh' & Hmin).
        unfold MinHeap.peek in Hpeek. assert (m = root) as -> by congruence.
        destruct (IH heap' (acc ++ [root])%list) as (ex & E1 & E2 & E3 & E4 & E5 & E6).
        { simpl in Hlen. lia. }
        { done. }
        exists (root :: ex). rewrite E1, <- app_assoc. split; [done|].
        split; [|split; [|split; [|split]]]; try done.
        -- simpl. rewrite Hperm. by constructor.
        -- by constructor.
        -- constructor; [done|].
           rewrite E2 in Hmin. by apply Forall_app in Hmin as [Hmin _].
      * destruct Hpop as [-> _]. done.
    + apply Z.leb_gt in Hle. exists []. simpl. rewrite app_nil_r.
      repeat split; try done; [|constructor].
      pose proof (is_heap_root _ _ Hh Hroot) as Hall.
      eapply Forall_impl; [exact Hall|].
      intros e He. unfold MinHeap.le_expiry in He. simpl. lia.
  - exists []. simpl. rewrite app_nil_r.
    destruct heap; [|done]. repeat split; try done; constructor.
Qed.

(** X1.  [push(entry)] keeps the heap order of the array and adds the
    record, and nothing else, to it: the array after the call holds the
    records it held before and [entry], each as often as before. *)
Theorem heap_push_keeps_order (entry : MinHeap.HeapEntry) (heap : MinHeap.t) :
  MinHeap.is_heap heap ->
  MinHeap.is_heap (MinHeap.push entry heap)
  /\ Permutation (MinHeap.push entry heap) (entry :: heap)
  /\ MinHeap.size (MinHeap.push entry heap) = MinHeap.size heap + 1.
Proof.
  intros Hh. split; [by apply push_heap|]. split; [apply push_perm|].
  unfold MinHeap.size. rewrite (Permutation_length (push_perm entry heap)).
  simpl length. lia.
Qed.

Lemma heap3_is_heap : MinHeap.is_heap Scenarios.heap3.
Proof. apply push_heap, push_heap, push_heap, is_heap_nil. Qed.

Lemma heap_push_keeps_order_witness :
  MinHeap.is_heap (MinHeap.push Scenarios.record5 Scenarios.heap3)
  /\ Permutation (MinHeap.push Scenarios.record5 Scenarios.heap3)
                 (Scenarios.record5 :: Scenarios.heap3)
  /\ MinHeap.size (MinHeap.push Scenarios.record5 Scenarios.heap3)
     = MinHeap.size Scenarios.heap3 + 1.
Proof.
  apply (heap_push_keeps_order Scenarios.record5 Scenarios.heap3).
  apply heap3_is_heap.
Defined.

(** X2.  [pop()] on an empty heap returns [undefined] and leaves it
    empty.  On an array in heap order it returns the record [peek()]
    shows, which expires no later than any record left; the array after
    the call is in heap order and holds the other records, each as often
    as before. *)
Theorem heap_pop_returns_earliest (heap : MinHeap.t) :
  MinHeap.is_heap heap ->
  match MinHeap.pop heap with
  | (None, heap') => heap = [] /\ heap' = []
  | (Some m, heap') =>
      MinHeap.peek heap = Some m
      /\ Permutation heap (m :: heap')
      /\ MinHeap.is_heap heap'
      /\ Forall (MinHeap.le_expiry m) heap'
  end.
Proof. apply pop_spec. Qed.

Lemma heap_pop_returns_earliest_witness :
  match MinHeap.pop Scenarios.heap3 with
  | (None, heap') => Scenarios.heap3 = [] /\ heap' = []
  | (Some m, heap') =>
      MinHeap.peek Scenarios.heap3 = Some m
      /\ Permutation Scenarios.heap3 (m :: heap')
      /\ MinHeap.is_heap heap'
      /\ Forall (MinHeap.le_expiry m) heap'
  end.
Proof.
  apply (heap_pop_returns_earliest Scenarios.heap3).
  apply heap3_is_heap.
Defined.

Lemma popExpired_heap (now : Z) (heap : MinHeap.t) :
  MinHeap.is_heap heap ->
  Permutation heap ((MinHeap.popExpired now heap).1 ++ (MinHeap.popExpired now heap).2)
  /\ Forall (fun e => MinHeap.expiresAt e <= now) (MinHeap.popExpired now heap).1
  /\ Forall (fun e => now < MinHeap.expiresAt e) (MinHeap.popExpired now heap).2
  /\ MinHeap.is_heap (MinHeap.popExpired now heap).2
  /\ StronglySorted MinHeap.le_expiry (MinHeap.popExpired now heap).1.
Proof.
  intros Hh. unfold MinHeap.popExpired.
  destruct (popExpiredLoop_heap (length heap) now heap [] ltac:(lia) Hh)
    as (ex & E1 & E2 & E3 & E4 & E5 & E6).
  simpl in E1. rewrite E1. done.
Qed.

(** X3.  On an array in heap order [popExpired(now)] returns exactly the
    records with [expiresAt <= now], earliest first, and leaves exactly
    the records with [expiresAt > now], in heap order: no record is lost
    or duplicated. *)
Theorem heap_popExpired_exact (now : Z) (heap : MinHeap.t) :
  MinHeap.is_heap heap ->
  Permutation heap ((MinHeap.popExpired now heap).1 ++ (MinHeap.popExpired now heap).2)
  /\ Forall (fun e => MinHeap.expiresAt e <= now) (MinHeap.popExpired now heap).1
  /\ Forall (fun e => now < MinHeap.expiresAt e) (MinHeap.popExpired now heap).2
  /\ MinHeap.is_heap (MinHeap.popExpired now heap).2
  /\ StronglySorted MinHeap.le_expiry (MinHeap.popExpired now heap).1.
Proof. apply popExpired_heap. Qed.

Lemma heap_popExpired_exact_witness :
  Permutation Scenarios.heap3
    ((MinHeap.popExpired 20 Scenarios.heap3).1 ++ (MinHeap.popExpired 20 Scenarios.heap3).2)
  /\ Forall (fun e => MinHeap.expiresAt e <= 20) (MinHeap.popExpired 20 Scenarios.heap3).1
  /\ Forall (fun e => 20 < MinHeap.expiresAt e) (MinHeap.popExpired 20 Scenarios.heap3).2
  /\ MinHeap.is_heap (MinHeap.popExpired 20 Scenarios.heap3).2
  /\ StronglySorted MinHeap.le_expiry (MinHeap.popExpired 20 Scenarios.heap3).1.
Proof.
  apply (heap_popExpired_exact 20 Scenarios.heap3).
  apply heap3_is_heap.
Defined.

(** * The public methods of the LRU *)

Lemma filter_ne_absent (k : string) (ks : list string) :
  k ∉ ks -> filter (fun k' => k' <> k) ks = ks.
Proof.
  induction ks as [|x ks IH]; intros Hk; [done|].
  apply not_elem_of_cons in Hk as [Hne Hk].
  rewrite filter_cons_True by done. by rewrite IH.
Qed.

(** Unlinking a node leaves the other keys in their order. *)
Lemma removeNode_keys {T : Type} (k : string) (ns : list (LRU.LRUNode T)) :
  NoDup (map LRU.key ns) ->
  map LRU.key (LRU.removeNode k ns) = filter (fun k' => k' <> k) (map LRU.key ns).
Proof.
  induction ns as [|x ns IH]; intros Hnd; simpl; [done|].
  apply NoDup_cons in Hnd as [Hx Hnd].
  destruct (String.eqb (LRU.key x) k) eqn:E.
  - apply eqb_string_true in E. rewrite filter_cons_False by (intros H; by apply H).
    symmetry. apply filter_ne_absent. by rewrite <- E.
  - apply eqb_string_false in E. rewrite filter_cons_True by done.
    simpl. by rewrite IH.
Qed.

Lemma has_false {T : Type} (k : string) (l : LRU.SizeAwareLRU T) :
  LRU.has k l = false <-> LRU.cache_get k (LRU.nodes l) = None.
Proof. unfold LRU.has. by destruct (LRU.cache_get k (LRU.nodes l)). Qed.

Lemma clear_wf {T : Type} (l : LRU.SizeAwareLRU T) : LRU.wf (LRU.clear l).
Proof. split; simpl; [done|done|constructor|constructor]. Qed.

Lemma lruTwo_wf : LRU.wf Scenarios.lruTwo.
Proof.
  change (LRU.wf (LRU.set "key2" "value2" 15
                    (LRU.set "key1" "value1" 15 (LRU.create (Fin 10) (Fin 50))).2).2).
  apply set_wf; [|lia]. apply set_wf; [|lia]. apply create_wf.
Qed.

(** X4.  The counters of the LRU are exact.  A new LRU satisfies the
    representation invariant, and [get], [delete], [clear] and [set] with
    a non-negative size keep it; under it [length] is the number of keys
    that [keys()] lists, [memoryBytes] is the sum of the sizes of the
    linked nodes, and no key is listed twice. *)
Theorem lru_invariant_kept {T : Type} (cap maxb : limit) (k : string)
    (l : LRU.SizeAwareLRU T) :
  LRU.wf l ->
  LRU.wf (@LRU.create T cap maxb)
  /\ LRU.wf (LRU.get k l).2
  /\ LRU.wf (LRU.delete k l).2
  /\ LRU.wf (LRU.clear l)
  /\ (forall (v : T) (sz : Z), 0 <= sz -> LRU.wf (LRU.set k v sz l).2)
  /\ LRU.length l = Z.of_nat (length (LRU.keys l))
  /\ LRU.memoryBytes l = LRU.sumSizes (LRU.nodes l)
  /\ NoDup (LRU.keys l).
Proof.
  intros Hwf. split; [apply create_wf|].
  split; [by apply get_wf|]. split; [by apply delete_wf|].
  split; [apply clear_wf|]. split; [intros v sz Hsz; by apply set_wf|].
  destruct Hwf as [Hs Hb Hnd _]. unfold LRU.length, LRU.memoryBytes, LRU.keys.
  rewrite length_map. done.
Qed.

Lemma lru_invariant_kept_witness :
  LRU.wf Scenarios.lruTwo
  /\ LRU.wf (LRU.get "key1" Scenarios.lruTwo).2
  /\ LRU.length Scenarios.lruTwo = 2.
Proof.
  split; [apply lruTwo_wf|].
  destruct (lru_invariant_kept (Fin 10) (Fin 50) "key1" Scenarios.lruTwo lruTwo_wf)
    as (_ & Hget & _ & _ & _ & Hlen & _).
  split; [exact Hget|]. rewrite Hlen. reflexivity.
Defined.

(** A value that fits stays linked, as the most recently used node. *)
Lemma set_links_fitting_key {T : Type} (k : string) (v : T) (sz : Z)
    (l : LRU.SizeAwareLRU T) :
  LRU.wf l -> 0 <= sz ->
  gt_limit 1 (LRU.capacity l) = false -> gt_limit sz (LRU.maxSizeBytes l) = false ->
  LRU.cache_get k (LRU.nodes (LRU.set k v sz l).2) = Some (LRU.mkNode k v sz)
  /\ last (LRU.keys (LRU.set k v sz l).2) = Some k.
Proof.
  intros Hwf Hsz Hcap Hmax.
  pose proof (lru_set_self_eviction k v sz l Hwf Hsz) as Hself.
  pose proof (set_wf k v sz l Hwf Hsz) as Hwf'.
  destruct (set_detach k v sz l) as (n & Hn & Heq & _ & _).
  rewrite Heq in *. cbn [snd fst] in *.
  rewrite detach_nodes, upsert_nodes in Hself.
  set (rem := LRU.removeNode k (LRU.nodes l)) in *.
  assert (exists pre, LRU.nodes (LRU.detach n (LRU.upsert k v sz l))
                      = (pre ++ [LRU.mkNode k v sz])%list) as [pre Hnodes].
  { rewrite detach_nodes, upsert_nodes. fold rem.
    destruct (decide (n <= length rem)%nat) as [Hle|Hgt].
    - exists (drop n rem). by rewrite drop_app_le.
    - exfalso. assert (drop n (rem ++ [LRU.mkNode k v sz]) = []) as Hnil.
      { apply drop_ge. rewrite length_app. simpl. lia. }
      apply Hself in Hnil. destruct Hnil; congruence. }
  split.
  - apply cache_get_Some_iff; [apply (LRU.wf_nodup _ Hwf')|].
    split; [|done]. rewrite Hnodes. apply in_elt.
  - unfold LRU.keys. rewrite Hnodes, map_app. simpl. by rewrite last_snoc.
Qed.

(** X5.  A value that fits is there after [set]: when the capacity admits
    one entry and the size of the value is within [maxSizeBytes],
    [set(key, value, size)] leaves the key linked as the most recently
    used one, and [get(key)] returns the value. *)
Theorem lru_set_then_get {T : Type} (k : string) (v : T) (sz : Z)
    (l : LRU.SizeAwareLRU T) :
  LRU.wf l -> 0 <= sz ->
  gt_limit 1 (LRU.capacity l) = false -> gt_limit sz (LRU.maxSizeBytes l) = false ->
  LRU.has k (LRU.set k v sz l).2 = true
  /\ (LRU.get k (LRU.set k v sz l).2).1 = Some v
  /\ last (LRU.keys (LRU.set k v sz l).2) = Some k.
Proof.
  intros Hwf Hsz Hcap Hmax.
  destruct (set_links_fitting_key k v sz l Hwf Hsz Hcap Hmax) as [Hget Hlast].
  split; [|split; [|done]].
  - unfold LRU.has. by rewrite Hget.
  - unfold LRU.get. by rewrite Hget.
Qed.

Lemma lru_set_then_get_witness :
  LRU.wf Scenarios.lruTwo
  /\ (LRU.get "key3" (LRU.set "key3" "value3" 30 Scenarios.lruTwo).2).1 = Some "value3".
Proof.
  split; [apply lruTwo_wf|].
  apply (lru_set_then_get "key3" "value3" 30 Scenarios.lruTwo lruTwo_wf);
    [lia | reflexivity | reflexivity].
Defined.

(** X6.  [get(key)] of a key that is not linked returns [undefined] and
    changes nothing.  [get(key)] of a linked key returns its value and
    makes the key the most recently used one: the other keys keep their
    order in [keys()], and [length] and [memoryBytes] are unchanged. *)
Theorem lru_get_marks_recent {T : Type} (k : string) (l : LRU.SizeAwareLRU T) :
  LRU.wf l ->
  (LRU.has k l = false -> LRU.get k l = (None, l))
  /\ (forall n, LRU.cache_get k (LRU.nodes l) = Some n ->
        (LRU.get k l).1 = Some (LRU.value n)
        /\ LRU.keys (LRU.get k l).2
           = (filter (fun k' => k' <> k) (LRU.keys l) ++ [k])%list
        /\ LRU.length (LRU.get k l).2 = LRU.length l
        /\ LRU.memoryBytes (LRU.get k l).2 = LRU.memoryBytes l).
Proof.
  intros Hwf. split.
  - intros Hno%has_false. unfold LRU.get. by rewrite Hno.
  - intros n Hn. unfold LRU.get. rewrite Hn. cbn [fst snd].
    split; [done|]. split; [|done].
    unfold LRU.keys. cbn [LRU.nodes]. unfold LRU.moveToFront, LRU.addToFront.
    rewrite map_app, (cache_get_key _ _ _ Hn).
    rewrite removeNode_keys by apply (LRU.wf_nodup _ Hwf).
    simpl. by rewrite (cache_get_key _ _ _ Hn).
Qed.

Lemma lru_get_marks_recent_witness :
  LRU.wf Scenarios.lruTwo
  /\ LRU.keys (LRU.get "key1" Scenarios.lruTwo).2 = ["key2"; "key1"].
Proof.
  split; [apply lruTwo_wf|].
  destruct (lru_get_marks_recent "key1" Scenarios.lruTwo lruTwo_wf) as [_ H].
  destruct (H (LRU.mkNode "key1" "value1" 15) eq_refl) as (_ & -> & _).
  reflexivity.
Defined.

(** X7.  [delete(key)] of a key that is not linked returns [false] and
    changes nothing.  [delete(key)] of a linked key returns [true]; the
    key is gone, every other key keeps its node and its place in
    [keys()], [length] drops by one and [memoryBytes] by the size of the
    deleted node. *)
Theorem lru_delete_unlinks {T : Type} (k : string) (l : LRU.SizeAwareLRU T) :
  LRU.wf l ->
  (LRU.has k l = false -> LRU.delete k l = (false, l))
  /\ (forall n, LRU.cache_get k (LRU.nodes l) = Some n ->
        (LRU.delete k l).1 = true
        /\ LRU.has k (LRU.delete k l).2 = false
        /\ LRU.keys (LRU.delete k l).2 = filter (fun k' => k' <> k) (LRU.keys l)
        /\ (forall k', k' <> k ->
              LRU.cache_get k' (LRU.nodes (LRU.delete k l).2)
              = LRU.cache_get k' (LRU.nodes l))
        /\ LRU.length (LRU.delete k l).2 = LRU.length l - 1
        /\ LRU.memoryBytes (LRU.delete k l).2 = LRU.memoryBytes l - LRU.sizeBytes n).
Proof.
  intros Hwf. split.
  - intros Hno%has_false. unfold LRU.delete. by rewrite Hno.
  - intros n Hn. split; [unfold LRU.delete; by rewrite Hn|].
    split; [by apply lru_delete_gone|].
    split; [|split].
    + unfold LRU.keys. rewrite delete_nodes.
      apply removeNode_keys, (LRU.wf_nodup _ Hwf).
    + intros k' Hne. rewrite delete_nodes. by apply cache_get_removeNode_ne.
    + unfold LRU.delete. rewrite Hn. done.
Qed.

Lemma lru_delete_unlinks_witness :
  LRU.wf Scenarios.lruTwo
  /\ LRU.keys (LRU.delete "key1" Scenarios.lruTwo).2 = ["key2"]
  /\ LRU.memoryBytes (LRU.delete "key1" Scenarios.lruTwo).2 = 15.
Proof.
  split; [apply lruTwo_wf|].
  destruct (lru_delete_unlinks "key1" Scenarios.lruTwo lruTwo_wf) as [_ H].
  destruct (H (LRU.mkNode "key1" "value1" 15) eq_refl) as (_ & _ & -> & _ & _ & ->).
  split; reflexivity.
Defined.

(** * Hashing and validation *)

(** X8.  [getShardForKey(key, numShards)] is total on a positive number of
    shards and returns a shard number from [0] to [numShards - 1]; on a
    number of shards that is zero or negative it throws
    ['Number of shards must be positive']. *)
Theorem shard_for_key_in_range (key : string) (numShards : Z) :
  (0 < numShards ->
   exists shardId, Hashing.getShardForKey key numShards = Errors.Ok shardId
                   /\ 0 <= shardId < numShards)
  /\ (numShards <= 0 ->
      Hashing.getShardForKey key numShards
      = Errors.Throw (Errors.Error "Number of shards must be positive")).
Proof.
  split; [apply getShardForKey_range|].
  intros Hn. unfold Hashing.getShardForKey, Hashing.simpleHash.
  by rewrite (proj2 (Z.leb_le _ _) Hn).
Qed.

Lemma shard_for_key_in_range_witness :
  0 < 4
  /\ exists shardId, Hashing.getShardForKey "user:1" 4 = Errors.Ok shardId
                     /\ 0 <= shardId < 4.
Proof.
  split; [lia|].
  apply (shard_for_key_in_range "user:1" 4). lia.
Defined.

(** X9.  [validateInferredValue(value)] accepts exactly the strings, the
    finite numbers, the booleans and the objects and arrays, and returns
    the value unchanged with its inferred type, which is never ['bytes'].
    [null], [undefined], [NaN] and the infinities are inferred as
    ['string'] and then rejected with the [BadRequestError]
    ['Expected string, got <typeof value>'], which the boundary answers
    with 400. *)
Theorem inferred_value_accepted_or_rejected (v : Types.JsValue) :
  let storable :=
    match v with
    | Types.JString _ | Types.JBoolean _ | Types.JObject _ => true
    | Types.JNumber f => PrimFloat.is_finite f
    | Types.JUndefined | Types.JNull => false
    end in
  if storable
  then Validators.validateInferredValue v = Errors.Ok (v, Validators.inferValueType v)
       /\ Validators.inferValueType v <> Types.TBytes
       /\ 0 <= Validators.calculateValueSize v (Validators.inferValueType v)
  else Validators.validateInferredValue v
       = Errors.Throw (Errors.BadRequestError ("Expected string, got " +:+ Types.typeof v))
       /\ Boundary.status
            (Boundary.errorHandler
               (Errors.BadRequestError ("Expected string, got " +:+ Types.typeof v))) = 400.
Proof.
  destruct v as [| |s|f|b|json]; cbn zeta;
    unfold Validators.validateInferredValue; simpl; try done.
  - repeat split; [done|lia].
  - destruct (PrimFloat.is_finite f) eqn:E; simpl; rewrite ?E; [|done].
    repeat split; [done|lia].
  - repeat split; [done|lia].
Qed.

(** * The operations of a shard *)

Lemma drainEvicted_stats (evicted : list string) (s : Shard.CacheShard) :
  Shard.stats (Shard.drainEvicted evicted s)
  = Types.mkStats (Types.entries (Shard.stats s)) (Types.memoryBytes (Shard.stats s))
      (Types.hits (Shard.stats s)) (Types.misses (Shard.stats s))
      (Types.sets (Shard.stats s)) (Types.deletes (Shard.stats s))
      (Types.evictions (Shard.stats s) + Z.of_nat (length evicted))
      (Types.expirations (Shard.stats s)).
Proof.
  revert s. induction evicted as [|k evicted IH]; intros s.
  - simpl. rewrite Z.add_0_r. by destruct (Shard.stats s).
  - cbn [Shard.drainEvicted fold_left]. fold (Shard.drainEvicted evicted).
    rewrite IH. cbn [Shard.stats Shard.with_stats Shard.incr_evictions
                     Types.entries Types.memoryBytes Types.hits Types.misses Types.sets
                     Types.deletes Types.evictions Types.expirations].
    assert (Shard.stats (Shard.deleteEntry k s).2 = Shard.stats s) as ->.
    { unfold Shard.deleteEntry. by destruct (Shard.entries s !! k). }
    f_equal. cbn [length]. lia.
Qed.

(** What a successful [executeSet] does to a shard whose entry index and
    LRU agree. *)
Lemma executeSet_effect (op : Types.ShardOperation) (entry : Types.CacheEntry)
    (now : Z) (ver : string) (s : Shard.CacheShard) (r : Shard.OpResult) :
  Types.entry op = Some (Types.EntryOf entry) -> 0 <= Types.sizeBytes entry ->
  Shard.linked s ->
  (Shard.executeSet op now ver s).1 = Errors.Ok r ->
  let k := Types.opKey op in
  let newEntry :=
    Types.mkEntry (Types.key entry) (Types.value entry) (Types.type entry) ver
      (Shard.createdAtOr (Shard.entries s !! k) now) now
      (Types.expiresAt entry) (Types.sizeBytes entry) in
  let evicted := (LRU.set k k (Types.sizeBytes entry) (Shard.lru s)).1 in
  let s' := (Shard.executeSet op now ver s).2 in
  r = Shard.RSet ver (Types.expiresAt entry)
  /\ Shard.lru s' = (LRU.set k k (Types.sizeBytes entry) (Shard.lru s)).2
  /\ Shard.entries s'
     = fold_left (fun m k' => delete k' m) evicted (<[k:=newEntry]> (Shard.entries s))
  /\ Types.sets (Shard.stats s') = Types.sets (Shard.stats s) + 1
  /\ Types.evictions (Shard.stats s')
     = Types.evictions (Shard.stats s) + Z.of_nat (length evicted)
  /\ Types.sizeBytes entry <= Shard.maxItemBytes s.
Proof.
  intros Hentry Hsz Hl. unfold Shard.executeSet. rewrite Hentry.
  destruct (_ && _); [discriminate|]. destruct (_ && _); [discriminate|].
  destruct (_ <? _) eqn:Hfit; [discriminate|]. apply Z.ltb_ge in Hfit.
  destruct Hl as (Hwf & Hval & Hk). cbn [Types.sizeBytes].
  set (k := Types.opKey op). set (sz := Types.sizeBytes entry).
  set (newEntry := Types.mkEntry _ _ _ _ _ _ _ _).
  set (s2 := Shard.with_stats _ _).
  assert (Hlru2 : Shard.lru s2 = Shard.lru s) by done. rewrite Hlru2.
  destruct (set_detach k k sz (Shard.lru s)) as (n & Hn & -> & _ & _).
  set (l1 := LRU.upsert k k sz (Shard.lru s)) in *.
  pose proof (upsert_wf k k sz _ Hwf Hsz) as Hwf1. fold l1 in Hwf1.
  pose proof (upsert_nodes k k sz (Shard.lru s)) as Hn1. fold l1 in Hn1.
  assert (Hval1 : Forall (fun n => LRU.value n = LRU.key n) (LRU.nodes l1)).
  { rewrite Hn1. apply Forall_app. split; [by apply Forall_removeNode|].
    by repeat constructor. }
  assert (Hev : map LRU.value (take n (LRU.nodes l1))
                = map LRU.key (take n (LRU.nodes l1))).
  { apply Forall_take with (n := n) in Hval1.
    induction Hval1 as [|x l Hx _ IH]; simpl; [done|]. by rewrite Hx, IH. }
  set (s3 := Shard.with_lru _ s2).
  destruct (drainEvicted_fields (map LRU.value (take n (LRU.nodes l1))) s3)
    as (Hlru & Hent & _).
  { intros k' Hin. unfold s3. simpl. rewrite detach_nodes.
    rewrite cache_get_drop by apply (LRU.wf_nodup _ Hwf1).
    rewrite bool_decide_eq_true_2; [done|]. rewrite <- Hev. by apply list_elem_of_In. }
  pose proof (drainEvicted_stats (map LRU.value (take n (LRU.nodes l1))) s3) as Hst.
  cbn [fst snd]. intros [= <-].
  set (s4 := match Types.expiresAt newEntry with Some _ => _ | None => _ end).
  assert (Shard.lru s4 = Shard.lru (Shard.drainEvicted
                                      (map LRU.value (take n (LRU.nodes l1))) s3)
          /\ Shard.entries s4 = Shard.entries (Shard.drainEvicted
                                      (map LRU.value (take n (LRU.nodes l1))) s3)
          /\ Shard.stats s4 = Shard.stats (Shard.drainEvicted
                                      (map LRU.value (take n (LRU.nodes l1))) s3))
    as (E1 & E2 & E3).
  { unfold s4. destruct (Types.expiresAt newEntry) as [t|]; [|done].
    by destruct (truthyZ t). }
  rewrite E1, E2, E3, Hlru, Hent, Hst. cbn. done.
Qed.

(** A successful [executeSet] of an entry that fits the memory budget
    leaves the new entry under the key. *)
Lemma executeSet_stores (op : Types.ShardOperation) (entry : Types.CacheEntry)
    (now : Z) (ver : string) (s : Shard.CacheShard) (r : Shard.OpResult) :
  Shard.linked s -> LRU.capacity (Shard.lru s) = Infinity ->
  Types.entry op = Some (Types.EntryOf entry) -> 0 <= Types.sizeBytes entry ->
  (Shard.executeSet op now ver s).1 = Errors.Ok r ->
  gt_limit (Types.sizeBytes entry) (LRU.maxSizeBytes (Shard.lru s)) = false ->
  Shard.entries (Shard.executeSet op now ver s).2 !! Types.opKey op
  = Some (Types.mkEntry (Types.key entry) (Types.value entry) (Types.type entry) ver
            (Shard.createdAtOr (Shard.entries s !! Types.opKey op) now) now
            (Types.expiresAt entry) (Types.sizeBytes entry)).
Proof.
  intros Hl Hcap Hentry Hsz Hok Hfit.
  pose proof (linked_executeSet op entry now ver s Hentry Hsz Hl) as (_ & _ & Hk').
  destruct (executeSet_effect op entry now ver s r Hentry Hsz Hl Hok)
    as (_ & Hlru & Hent & _).
  specialize (Hk' (Types.opKey op)). rewrite Hlru in Hk'.
  destruct (set_links_fitting_key (Types.opKey op) (Types.opKey op)
              (Types.sizeBytes entry) (Shard.lru s)) as [Hget _];
    [apply Hl|done|by rewrite Hcap|done|].
  rewrite Hget in Hk'. rewrite Hent in Hk' |- *.
  rewrite lookup_fold_delete in Hk' |- *.
  case_bool_decide; [done|]. by rewrite lookup_insert_eq.
Qed.

(** A rejected operation leaves the shard as it was. *)
Lemma executeOperation_rejected (op : Types.ShardOperation) (now : Z)
    (ver : string) (s : Shard.CacheShard) (e : Errors.JsError) :
  (Shard.executeOperation op now ver s).1 = Errors.Throw e ->
  (Shard.executeOperation op now ver s).2 = s
  /\ (Errors.code e = Some Errors.CONFLICT /\ Errors.statusCode e = Some 409
      \/ Errors.code e = Some Errors.PAYLOAD_TOO_LARGE /\ Errors.statusCode e = Some 413
      \/ Errors.code e = Some Errors.BAD_REQUEST /\ Errors.statusCode e = Some 400
      \/ e = Errors.Error "Entry required for set operation").
Proof.
  unfold Shard.executeOperation. destruct (Types.opType op).
  - unfold Shard.executeSet. destruct (Types.entry op) as [[entry|delta]|].
    + destruct (_ && _); [intros [= <-]; split; [done|by left]|].
      destruct (_ && _); [intros [= <-]; split; [done|by left]|].
      destruct (_ <? _); [intros [= <-]; split; [done|by right; left]|].
      cbn zeta. destruct (LRU.set _ _ _ _). discriminate.
    + unfold Shard.executeIncrement.
      destruct (Shard.entries s !! Types.opKey op) as [x|]; [|discriminate].
      destruct (Types.type x); try discriminate;
        intros [= <-]; (split; [done|by right; right; left]).
    + intros [= <-]. split; [done|by right; right; right].
  - unfold Shard.executeDelete.
    destruct (Shard.entries s !! Types.opKey op) as [x|]; [|discriminate].
    destruct (_ && _); [|discriminate].
    intros [= <-]. split; [done|by left].
  - unfold Shard.executeExpire. by destruct (Shard.deleteEntry _ _).
  - unfold Shard.executeEvict. by destruct (Shard.deleteEntry _ _).
Qed.

(** X10.  An operation that is rejected changes nothing: when
    [executeOperation] throws, the shard is as it was before, and the
    error is a [ConflictError] (409), a [PayloadTooLargeError] (413), the
    [BadRequestError] of an increment on a value that is not a number
    (400), or the plain error of a set operation without an entry. *)
Theorem rejected_operation_changes_nothing (op : Types.ShardOperation) (now : Z)
    (ver : string) (s : Shard.CacheShard) (e : Errors.JsError) :
  (Shard.executeOperation op now ver s).1 = Errors.Throw e ->
  (Shard.executeOperation op now ver s).2 = s
  /\ (Errors.code e = Some Errors.CONFLICT /\ Errors.statusCode e = Some 409
      \/ Errors.code e = Some Errors.PAYLOAD_TOO_LARGE /\ Errors.statusCode e = Some 413
      \/ Errors.code e = Some Errors.BAD_REQUEST /\ Errors.statusCode e = Some 400
      \/ e = Errors.Error "Entry required for set operation").
Proof. apply executeOperation_rejected. Qed.

Lemma rejected_operation_changes_nothing_witness :
  (Shard.executeOperation
     (Types.mkOp Types.OpSet "k" (Some (Types.EntryOf Scenarios.entryB)) None (Some true))
     2000 "v2" Scenarios.shardLive).2 = Scenarios.shardLive.
Proof.
  apply (rejected_operation_changes_nothing
           (Types.mkOp Types.OpSet "k" (Some (Types.EntryOf Scenarios.entryB)) None (Some true))
           2000 "v2" Scenarios.shardLive
           (Errors.ConflictError "Key already exists" [("key", Errors.DString "k")])).
  vm_compute. reflexivity.
Defined.

(** X11.  What is set can be read.  On a shard whose entry index and LRU
    agree and whose LRU has no count limit, a set that is executed (its
    conditions hold and the entry is within [maxItemBytes]) with an entry
    that fits the memory budget resolves with the new version, and a
    [get] of the key at any time at which the entry has not expired
    returns the entry: the admitted value and type under the new version,
    with [updatedAt] the time of the execution.  The read counts as a
    hit. *)
Theorem shard_set_then_get (op : Types.ShardOperation) (entry : Types.CacheEntry)
    (now later : Z) (ver : string) (s : Shard.CacheShard) (r : Shard.OpResult) :
  Shard.linked s -> LRU.capacity (Shard.lru s) = Infinity ->
  Types.entry op = Some (Types.EntryOf entry) -> 0 <= Types.sizeBytes entry ->
  (Shard.executeSet op now ver s).1 = Errors.Ok r ->
  gt_limit (Types.sizeBytes entry) (LRU.maxSizeBytes (Shard.lru s)) = false ->
  Shard.expiredAt (Types.expiresAt entry) later = false ->
  let s' := (Shard.executeSet op now ver s).2 in
  let stored :=
    Types.mkEntry (Types.key entry) (Types.value entry) (Types.type entry) ver
      (Shard.createdAtOr (Shard.entries s !! Types.opKey op) now) now
      (Types.expiresAt entry) (Types.sizeBytes entry) in
  r = Shard.RSet ver (Types.expiresAt entry)
  /\ (Shard.get (Types.opKey op) later s').1 = Some stored
  /\ Types.hits (Shard.stats (Shard.get (Types.opKey op) later s').2)
     = Types.hits (Shard.stats s) + 1
  /\ Types.sets (Shard.stats s') = Types.sets (Shard.stats s) + 1.
Proof.
  intros Hl Hcap Hentry Hsz Hok Hfit Hlive s' stored.
  pose proof (executeSet_stores op entry now ver s r Hl Hcap Hentry Hsz Hok Hfit) as Hst.
  destruct (executeSet_effect op entry now ver s r Hentry Hsz Hl Hok)
    as (Hr & _ & _ & Hsets & Hev & _).
  fold s' in Hst, Hsets, Hev. fold stored in Hst.
  assert (Types.hits (Shard.stats s') = Types.hits (Shard.stats s)) as Hhits.
  { unfold s', Shard.executeSet. rewrite Hentry.
    destruct (_ && _); [done|]. destruct (_ && _); [done|]. destruct (_ <? _); [done|].
    cbn zeta. destruct (LRU.set _ _ _ _) as [evicted l'].
    cbn [snd].
    set (s3 := Shard.drainEvicted _ _).
    assert (Types.hits (Shard.stats s3) = Types.hits (Shard.stats s)) as H3.
    { unfold s3. by rewrite drainEvicted_stats. }
    destruct (Types.expiresAt _) as [t|]; [|done]. by destruct (truthyZ t). }
  split; [done|]. unfold Shard.get. rewrite Hst.
  cbn [Types.expiresAt stored]. rewrite Hlive. cbn -[LRU.get].
  split; [done|]. split; [lia|done].
Qed.

Lemma shard_set_then_get_witness :
  Shard.linked Scenarios.shard0
  /\ (Shard.get "k" 3000 (Shard.executeSet Scenarios.opSetB 2000 "v2" Scenarios.shard0).2).1
     = Some (Types.mkEntry "k" (Types.JString "b") Types.TString "v2" 2000 2000 None 1).
Proof.
  split; [apply linked_create|].
  apply (shard_set_then_get Scenarios.opSetB Scenarios.entryB 2000 3000 "v2"
           Scenarios.shard0 (Shard.RSet "v2" None));
    [apply linked_create | reflexivity | reflexivity | vm_compute; discriminate
    | vm_compute; reflexivity | reflexivity | reflexivity].
Defined.

(** X12.  An entry larger than the memory budget empties the shard.  On
    a shard whose entry index and LRU agree, a set whose entry is within
    [maxItemBytes] but larger than the byte limit of the LRU is executed
    and resolves with a version like any other; the LRU then evicts every node, the new one included, and the
    drain removes every entry: the entry index is empty afterwards and a
    [get] of the key just set misses. *)
Theorem oversized_set_flushes_shard (op : Types.ShardOperation) (entry : Types.CacheEntry)
    (now later : Z) (ver : string) (s : Shard.CacheShard) (r : Shard.OpResult) :
  Shard.linked s ->
  Types.entry op = Some (Types.EntryOf entry) -> 0 <= Types.sizeBytes entry ->
  (Shard.executeSet op now ver s).1 = Errors.Ok r ->
  gt_limit (Types.sizeBytes entry) (LRU.maxSizeBytes (Shard.lru s)) = true ->
  let s' := (Shard.executeSet op now ver s).2 in
  r = Shard.RSet ver (Types.expiresAt entry)
  /\ Shard.entries s' = ∅
  /\ LRU.keys (Shard.lru s') = []
  /\ (Shard.get (Types.opKey op) later s').1 = None.
Proof.
  intros Hl Hentry Hsz Hok Hbig s'.
  pose proof (linked_executeSet op entry now ver s Hentry Hsz Hl) as (_ & _ & Hk').
  destruct (executeSet_effect op entry now ver s r Hentry Hsz Hl Hok)
    as (Hr & Hlru & _).
  fold s' in Hk', Hlru.
  assert (LRU.nodes (Shard.lru s') = []) as Hnil.
  { rewrite Hlru. apply lru_set_self_eviction; [apply Hl|done|by right]. }
  assert (Shard.entries s' = ∅) as Hempty.
  { apply map_empty. intros k. specialize (Hk' k). rewrite Hnil in Hk'. simpl in Hk'.
    by destruct (Shard.entries s' !! k). }
  split; [done|]. split; [done|]. split.
  - unfold LRU.keys. by rewrite Hnil.
  - unfold Shard.get. by rewrite Hempty, lookup_empty.
Qed.

Lemma oversized_set_flushes_shard_witness :
  Shard.linked Scenarios.shardBudget
  /\ (Shard.executeSet Scenarios.opSetBig 2000 "v2" Scenarios.shardBudget).1
     = Errors.Ok (Shard.RSet "v2" None)
  /\ Shard.entries (Shard.executeSet Scenarios.opSetBig 2000 "v2" Scenarios.shardBudget).2 = ∅.
Proof.
  split; [apply linked_create|]. split; [vm_compute; reflexivity|].
  apply (oversized_set_flushes_shard Scenarios.opSetBig Scenarios.entryBig 2000 3000 "v2"
           Scenarios.shardBudget (Shard.RSet "v2" None));
    [apply linked_create | reflexivity | vm_compute; discriminate
    | vm_compute; reflexivity | reflexivity].
Defined.

(** X13.  An increment after a set of a number adds to the number set:
    under the conditions of X11, when the entry set holds the number [x],
    an increment of the key by [delta] resolves with [x + delta], also
    after the entry has expired, and stores the sum without an expiry. *)
Theorem set_then_increment (op : Types.ShardOperation) (entry : Types.CacheEntry)
    (x delta : float) (now later : Z) (ver ver' : string) (s : Shard.CacheShard)
    (r : Shard.OpResult) :
  Shard.linked s -> LRU.capacity (Shard.lru s) = Infinity ->
  Types.entry op = Some (Types.EntryOf entry) -> 0 <= Types.sizeBytes entry ->
  Types.value entry = Types.JNumber x -> Types.type entry = Types.TNumber ->
  (Shard.executeSet op now ver s).1 = Errors.Ok r ->
  gt_limit (Types.sizeBytes entry) (LRU.maxSizeBytes (Shard.lru s)) = false ->
  let k := Types.opKey op in
  let s' := (Shard.executeSet op now ver s).2 in
  let r' := Shard.executeIncrement k delta later ver' s' in
  r'.1 = Errors.Ok (Shard.RIncr (x + delta)%float ver')
  /\ (Types.value <$> Shard.entries r'.2 !! k) = Some (Types.JNumber (x + delta)%float)
  /\ (Types.expiresAt <$> Shard.entries r'.2 !! k) = Some None.
Proof.
  intros Hl Hcap Hentry Hsz Hval Hty Hok Hfit k s' r'.
  pose proof (executeSet_stores op entry now ver s r Hl Hcap Hentry Hsz Hok Hfit) as Hst.
  fold s' k in Hst. unfold r', Shard.executeIncrement. rewrite Hst.
  cbn [Types.type Types.value]. rewrite Hty, Hval. cbn -[LRU.set].
  rewrite lookup_insert_eq. done.
Qed.

Lemma set_then_increment_witness :
  Shard.linked Scenarios.shard0
  /\ (Shard.executeIncrement "n" 1%float 5000 "v3"
        (Shard.executeSet Scenarios.opSetNum 2000 "v2" Scenarios.shard0).2).1
     = Errors.Ok (Shard.RIncr (41 + 1)%float "v3").
Proof.
  split; [apply linked_create|].
  apply (set_then_increment Scenarios.opSetNum Scenarios.entryNum 41%float 1%float
           2000 5000 "v2" "v3" Scenarios.shard0 (Shard.RSet "v2" (Some 3000)));
    [apply linked_create | reflexivity | reflexivity | vm_compute; discriminate
    | reflexivity | reflexivity | vm_compute; reflexivity | reflexivity].
Defined.

(** An LRU without limits evicts nothing. *)
Lemma set_without_limits {T : Type} (k : string) (v : T) (sz : Z) (l : LRU.SizeAwareLRU T) :
  LRU.capacity l = Infinity -> LRU.maxSizeBytes l = Infinity ->
  (LRU.set k v sz l).1 = []
  /\ LRU.capacity (LRU.set k v sz l).2 = Infinity
  /\ LRU.maxSizeBytes (LRU.set k v sz l).2 = Infinity.
Proof.
  intros Hc Hm. unfold LRU.set.
  assert (LRU.capacity (LRU.upsert k v sz l) = Infinity
          /\ LRU.maxSizeBytes (LRU.upsert k v sz l) = Infinity) as [Hc1 Hm1].
  { unfold LRU.upsert. by destruct (LRU.cache_get k (LRU.nodes l)). }
  cbn [LRU.evictLoop]. unfold LRU.overLimits. rewrite Hc1, Hm1. done.
Qed.

(** X18.  The accounting invariant on the paths that keep it.  A new shard
    satisfies it.  On a shard whose entry index and LRU agree key by key,
    every read and every operation of the dispatcher (set with its drain
    of evicted keys, delete, expire, evict) leaves them in agreement, and
    so does an increment whose [lru.set] evicts nothing, which is every
    increment on a shard without a memory budget.  In agreement, the sum
    of [sizeBytes] over the entry index is the byte total of the LRU and
    the number of entries its length, which are what [getStats()]
    reports. *)
Theorem accounting_kept_by_operations (op : Types.ShardOperation) (k : string)
    (now : Z) (ver : string) (s : Shard.CacheShard)
    (shardId maxItemBytes : Z) (budget : option Z) (maxMailboxSize : Z) :
  Shard.linked s ->
  (forall e, Types.entry op = Some (Types.EntryOf e) -> 0 <= Types.sizeBytes e) ->
  (forall delta, Types.opType op = Types.OpSet ->
                 Types.entry op = Some (Types.DeltaMarker delta) ->
                 (LRU.set (Types.opKey op) (Types.opKey op) 8 (Shard.lru s)).1 = []
                 \/ (LRU.capacity (Shard.lru s) = Infinity
                     /\ LRU.maxSizeBytes (Shard.lru s) = Infinity)) ->
  Shard.linked (Shard.executeOperation op now ver s).2
  /\ Shard.accounting (Shard.executeOperation op now ver s).2
  /\ Shard.linked (Shard.get k now s).2
  /\ Shard.accounting (Shard.get k now s).2
  /\ Types.memoryBytes (Shard.getStats s) = Shard.entryBytes (Shard.entries s)
  /\ Types.entries (Shard.getStats s) = LRU.length (Shard.lru s)
  /\ Shard.linked (Shard.create shardId maxItemBytes budget maxMailboxSize)
  /\ Shard.accounting (Shard.create shardId maxItemBytes budget maxMailboxSize).
Proof.
  intros Hl Hsz Hincr.
  destruct (linked_executeOperation op now ver s Hsz) as [H1 H2]; [|done|].
  { intros delta Hop Hentry. destruct (Hincr delta Hop Hentry) as [?|[Hc Hm]]; [done|].
    by apply set_without_limits. }
  pose proof (linked_get k now s Hl) as H3.
  destruct (linked_accounting s Hl) as [Hb Hn].
  split; [done|]. split; [done|]. split; [done|].
  split; [by apply linked_accounting|].
  split; [unfold Shard.getStats, LRU.memoryBytes, LRU.length; simpl; by rewrite Hb|].
  split; [done|]. split; [apply linked_create|].
  apply linked_accounting, linked_create.
Qed.

Lemma accounting_kept_by_operations_witness :
  Shard.linked Scenarios.shard0
  /\ Shard.accounting
       (Shard.executeOperation Scenarios.opSetB 2000 "v2" Scenarios.shard0).2.
Proof.
  split; [apply linked_create|].
  apply (accounting_kept_by_operations Scenarios.opSetB "k" 2000 "v2" Scenarios.shard0
           0 1000 None 10);
    [apply linked_create | | ].
  - intros e [= <-]. vm_compute. discriminate.
  - intros delta _ Hentry. discriminate Hentry.
Defined.

(** X28.  A delete conditioned on the version of the set.  After a set
    that was executed under the conditions of X11, a delete of the key
    with [ifMatch] equal to the version the set resolved with is executed:
    it returns [true] and the key is gone from the entry index and from
    the LRU.  A delete with another, non-empty [ifMatch] is rejected with
    a [ConflictError] (409) that names the expected and the actual
    version, and the entry stays. *)
Theorem versioned_delete_after_set (op opd : Types.ShardOperation)
    (entry : Types.CacheEntry) (now : Z) (ver : string) (s : Shard.CacheShard)
    (r : Shard.OpResult) :
  Shard.linked s -> LRU.capacity (Shard.lru s) = Infinity ->
  Types.entry op = Some (Types.EntryOf entry) -> 0 <= Types.sizeBytes entry ->
  (Shard.executeSet op now ver s).1 = Errors.Ok r ->
  gt_limit (Types.sizeBytes entry) (LRU.maxSizeBytes (Shard.lru s)) = false ->
  Types.opKey opd = Types.opKey op ->
  let s' := (Shard.executeSet op now ver s).2 in
  (Types.ifMatch opd = Some ver ->
   (Shard.executeDelete opd s').1 = Errors.Ok (Shard.RBool true)
   /\ Shard.entries (Shard.executeDelete opd s').2 !! Types.opKey op = None
   /\ LRU.has (Types.opKey op) (Shard.lru (Shard.executeDelete opd s').2) = false)
  /\ (forall m, Types.ifMatch opd = Some m -> m <> EmptyString -> m <> ver ->
        Shard.executeDelete opd s'
        = (Errors.Throw
             (Errors.ConflictError "Version mismatch"
                [("key", Errors.DString (Types.opKey op));
                 ("expected", Errors.DString m);
                 ("actual", Errors.DString ver)]), s')).
Proof.
  intros Hl Hcap Hentry Hsz Hok Hfit Hkey s'.
  assert (exists e, Shard.entries s' !! Types.opKey op = Some e /\ Types.version e = ver)
    as (e & Hst & Hver).
  { eexists. split; [exact (executeSet_stores op entry now ver s r Hl Hcap Hentry Hsz Hok Hfit)|done]. }
  assert (Shard.linked s') as Hl'
    by exact (linked_executeSet op entry now ver s Hentry Hsz Hl).
  clearbody s'. split.
  - intros Hm. unfold Shard.executeDelete, Shard.deleteEntry. cbv zeta.
    rewrite Hkey, Hst. unfold Shard.ifMatchText. rewrite Hm, Hver.
    rewrite String.eqb_refl, andb_false_r. cbn -[LRU.delete].
    split; [done|]. split; [apply lookup_delete_eq|].
    apply lru_delete_gone, Hl'.
  - intros m Hm Hne Hdiff. unfold Shard.executeDelete. cbv zeta.
    rewrite Hkey, Hst. unfold Shard.ifMatchText. rewrite Hm, Hver.
    rewrite (truthyOS_Some m Hne).
    assert (String.eqb ver m = false) as -> by (apply eqb_string_false; congruence).
    done.
Qed.

Lemma versioned_delete_after_set_witness :
  Shard.linked Scenarios.shard0
  /\ (Shard.executeDelete (Types.mkOp Types.OpDelete "k" None (Some "v2") None)
        (Shard.executeSet Scenarios.opSetB 2000 "v2" Scenarios.shard0).2).1
     = Errors.Ok (Shard.RBool true).
Proof.
  split; [apply linked_create|].
  destruct (versioned_delete_after_set Scenarios.opSetB
              (Types.mkOp Types.OpDelete "k" None (Some "v2") None)
              Scenarios.entryB 2000 "v2" Scenarios.shard0 (Shard.RSet "v2" None))
    as [H _];
    [apply linked_create | reflexivity | reflexivity | vm_compute; discriminate
    | vm_compute; reflexivity | reflexivity | reflexivity |].
  apply H. reflexivity.
Defined.

(** * The mailbox and the dispatcher *)

Lemma drainEvicted_limits (evicted : list string) (s : Shard.CacheShard) :
  Shard.maxMailboxSize (Shard.drainEvicted evicted s) = Shard.maxMailboxSize s
  /\ Shard.maxItemBytes (Shard.drainEvicted evicted s) = Shard.maxItemBytes s.
Proof.
  revert s. induction evicted as [|k evicted IH]; intros s; [done|]. simpl.
  destruct (IH (Shard.with_stats
                  (Shard.incr_evictions (Shard.stats (Shard.deleteEntry k s).2))
                  (Shard.deleteEntry k s).2)) as [-> ->].
  simpl. unfold Shard.deleteEntry. by destruct (Shard.entries s !! k).
Qed.

(** No operation changes the limits of the shard. *)
Lemma executeOperation_limits (op : Types.ShardOperation) (now : Z) (ver : string)
    (s : Shard.CacheShard) :
  Shard.maxMailboxSize (Shard.executeOperation op now ver s).2 = Shard.maxMailboxSize s
  /\ Shard.maxItemBytes (Shard.executeOperation op now ver s).2 = Shard.maxItemBytes s.
Proof.
  unfold Shard.executeOperation. destruct (Types.opType op).
  - unfold Shard.executeSet. destruct (Types.entry op) as [[e|delta]|]; [| |done].
    + destruct (_ && _); [done|]. destruct (_ && _); [done|].
      destruct (_ <? _); [done|].
      destruct (LRU.set _ _ _ _) as [evicted l']. cbn [snd].
      set (s3 := Shard.drainEvicted _ _).
      assert (Shard.maxMailboxSize s3 = Shard.maxMailboxSize s
              /\ Shard.maxItemBytes s3 = Shard.maxItemBytes s) as [Hq Hp].
      { unfold s3. by rewrite !(proj1 (drainEvicted_limits _ _)),
                              !(proj2 (drainEvicted_limits _ _)). }
      destruct (Types.expiresAt _) as [t|]; [|done]. by destruct (truthyZ t).
    + unfold Shard.executeIncrement.
      destruct (Shard.entries s !! Types.opKey op) as [x|]; [|done].
      by destruct (Types.type x).
  - unfold Shard.executeDelete.
    destruct (Shard.entries s !! Types.opKey op) as [x|]; [|done].
    destruct (_ && _); [done|]. unfold Shard.deleteEntry.
    by destruct (Shard.entries s !! Types.opKey op).
  - unfold Shard.executeExpire, Shard.deleteEntry.
    by destruct (Shard.entries s !! Types.opKey op).
  - unfold Shard.executeEvict, Shard.deleteEntry.
    by destruct (Shard.entries s !! Types.opKey op).
Qed.

Lemma dispatchNext_bound (now : Z) (ver : string) (s : Shard.CacheShard) :
  (length (Shard.operationQueue (Shard.dispatchNext now ver s).1)
   <= length (Shard.operationQueue s))%nat
  /\ Shard.maxMailboxSize (Shard.dispatchNext now ver s).1 = Shard.maxMailboxSize s.
Proof.
  unfold Shard.dispatchNext. destruct (Shard.operationQueue s) as [|op q] eqn:Hq.
  - simpl. by rewrite Hq.
  - destruct (executeOperation_control op now ver (Shard.with_operationQueue q s))
      as [Hq' _].
    destruct (executeOperation_limits op now ver (Shard.with_operationQueue q s))
      as [Hm _].
    destruct (Shard.executeOperation op now ver (Shard.with_operationQueue q s))
      as [r s']. simpl in *. rewrite Hq', Hm. split; [lia|done].
Qed.

(** X14.  The mailbox never grows beyond [maxMailboxSize].  An admission
    to a mailbox that holds [maxMailboxSize] operations or more throws
    ['Shard mailbox full'] and queues nothing; an admission that is
    accepted, and every turn of the dispatcher, leave a mailbox that was
    within the limit within it, and neither changes the limit. *)
Theorem mailbox_stays_within_bound (op : Types.ShardOperation) (now : Z) (ver : string)
    (s : Shard.CacheShard) :
  Z.of_nat (length (Shard.operationQueue s)) <= Z.max 0 (Shard.maxMailboxSize s) ->
  match Shard.enqueueOperation op now ver s with
  | Errors.Throw e =>
      e = Errors.Error "Shard mailbox full"
      /\ Shard.maxMailboxSize s <= Z.of_nat (length (Shard.operationQueue s))
  | Errors.Ok (s', _) =>
      Z.of_nat (length (Shard.operationQueue s')) <= Z.max 0 (Shard.maxMailboxSize s')
      /\ Shard.maxMailboxSize s' = Shard.maxMailboxSize s
      /\ Z.of_nat (length (Shard.operationQueue s)) < Shard.maxMailboxSize s
  end
  /\ Z.of_nat (length (Shard.operationQueue (Shard.resume now ver s).1))
     <= Z.max 0 (Shard.maxMailboxSize (Shard.resume now ver s).1)
  /\ Shard.maxMailboxSize (Shard.resume now ver s).1 = Shard.maxMailboxSize s.
Proof.
  intros Hb. split.
  - unfold Shard.enqueueOperation.
    destruct (_ <=? _) eqn:Hfull.
    + apply Z.leb_le in Hfull. done.
    + apply Z.leb_gt in Hfull. unfold Shard.processOperations.
      set (s1 := Shard.with_operationQueue _ s).
      assert (length (Shard.operationQueue s1) = S (length (Shard.operationQueue s)))
        as Hlen1 by (unfold s1; simpl; rewrite length_app; simpl; lia).
      destruct (Shard.isProcessing s1) eqn:Hp.
      * simpl. rewrite length_app. simpl. lia.
      * pose proof (dispatchNext_bound now ver (Shard.with_isProcessing true s1)) as [H1 H2].
        assert (Shard.operationQueue (Shard.with_isProcessing true s1) <> []) as Hne.
        { simpl. by destruct (Shard.operationQueue s). }
        destruct (dispatchNext_effect now ver (Shard.with_isProcessing true s1) eq_refl)
          as (_ & _ & Hpred).
        destruct (Shard.dispatchNext now ver (Shard.with_isProcessing true s1))
          as [s' cs]. simpl in *. rewrite Hpred, H2, length_app. simpl. lia.
  - unfold Shard.resume. destruct (Shard.isProcessing s); [|done].
    pose proof (dispatchNext_bound now ver s) as [H1 H2]. rewrite H2. lia.
Qed.

Lemma mailbox_stays_within_bound_witness :
  Z.of_nat (length (Shard.operationQueue Scenarios.shardFull))
  <= Z.max 0 (Shard.maxMailboxSize Scenarios.shardFull)
  /\ Z.of_nat (length (Shard.operationQueue
                         (Shard.resume 1000 "v1" Scenarios.shardFull).1))
     <= Z.max 0 (Shard.maxMailboxSize (Shard.resume 1000 "v1" Scenarios.shardFull).1).
Proof.
  split; [vm_compute; discriminate|].
  apply (mailbox_stays_within_bound (Types.mkOp Types.OpDelete "b" None None None)
           1000 "v1" Scenarios.shardFull).
  vm_compute. discriminate.
Defined.

Lemma settle_fifo (fuel : nat) (env : Store.Env) (n : nat) (s : Shard.CacheShard) :
  Shard.isProcessing s = true ->
  (length (Shard.operationQueue s) < fuel)%nat ->
  map fst (Store.settle fuel env n s).2 = Shard.operationQueue s
  /\ Shard.operationQueue (Store.settle fuel env n s).1 = []
  /\ Shard.isProcessing (Store.settle fuel env n s).1 = false.
Proof.
  revert n s. induction fuel as [|fuel IH]; intros n s Hp Hlen; [lia|].
  cbn [Store.settle]. rewrite Hp. unfold Shard.resume. rewrite Hp.
  unfold Shard.dispatchNext.
  destruct (Shard.operationQueue s) as [|op q] eqn:Hq.
  - assert (Store.settle fuel env (S n) (Shard.with_isProcessing false s)
            = (Shard.with_isProcessing false s, [])) as ->.
    { by destruct fuel. }
    simpl. by rewrite Hq.
  - destruct (executeOperation_control op (env n).1 (env n).2
                (Shard.with_operationQueue q s)) as [Hq' Hp'].
    destruct (Shard.executeOperation op (env n).1 (env n).2
                (Shard.with_operationQueue q s)) as [r s'].
    simpl in Hq', Hp'.
    destruct (IH (S n) s') as (H1 & H2 & H3).
    { by rewrite Hp'. }
    { rewrite Hq'. simpl in Hlen. lia. }
    destruct (Store.settle fuel env (S n) s') as [s2 cs2].
    simpl in *. rewrite H1, Hq'. done.
Qed.

(** An operation admitted to an idle shard is executed before the
    admission returns. *)
Lemma enqueue_idle (op : Types.ShardOperation) (now : Z) (ver : string)
    (s : Shard.CacheShard) :
  Shard.isProcessing s = false -> Shard.operationQueue s = [] ->
  0 < Shard.maxMailboxSize s ->
  let s0 := Shard.with_operationQueue [] (Shard.with_isProcessing true s) in
  Shard.enqueueOperation op now ver s
  = Errors.Ok ((Shard.executeOperation op now ver s0).2,
               [(op, (Shard.executeOperation op now ver s0).1)])
  /\ Shard.operationQueue (Shard.executeOperation op now ver s0).2 = []
  /\ Shard.isProcessing (Shard.executeOperation op now ver s0).2 = true.
Proof.
  intros Hp Hq Hmax s0. unfold Shard.enqueueOperation. rewrite Hq. simpl length.
  rewrite (proj2 (Z.leb_gt _ _)) by lia.
  unfold Shard.processOperations. cbn [Shard.isProcessing Shard.with_operationQueue].
  rewrite Hp. unfold Shard.dispatchNext.
  cbn [Shard.operationQueue Shard.with_operationQueue Shard.with_isProcessing app].
  change (Shard.with_operationQueue [] _) with s0.
  destruct (executeOperation_control op now ver s0) as [Hq' Hp'].
  destruct (Shard.executeOperation op now ver s0) as [r s']. done.
Qed.

(** X15.  The dispatcher takes the operations in the order of their
    admission.  An operation admitted to an idle shard (no dispatcher, an
    empty mailbox that admits one operation) is executed at once, before
    the admission returns, and leaves the dispatcher suspended on an
    empty mailbox.  A suspended dispatcher that is resumed until it
    leaves its loop completes the operations of the mailbox one by one,
    first in first out, and leaves the shard idle. *)
Theorem dispatcher_is_fifo (op : Types.ShardOperation) (env : Store.Env) (n fuel : nat)
    (s : Shard.CacheShard) :
  (Shard.isProcessing s = false -> Shard.operationQueue s = [] ->
   0 < Shard.maxMailboxSize s ->
   let s0 := Shard.with_operationQueue [] (Shard.with_isProcessing true s) in
   Shard.enqueueOperation op (env n).1 (env n).2 s
   = Errors.Ok ((Shard.executeOperation op (env n).1 (env n).2 s0).2,
                [(op, (Shard.executeOperation op (env n).1 (env n).2 s0).1)])
   /\ Shard.operationQueue (Shard.executeOperation op (env n).1 (env n).2 s0).2 = []
   /\ Shard.isProcessing (Shard.executeOperation op (env n).1 (env n).2 s0).2 = true)
  /\ (Shard.isProcessing s = true ->
      (length (Shard.operationQueue s) < fuel)%nat ->
      map fst (Store.settle fuel env n s).2 = Shard.operationQueue s
      /\ Shard.operationQueue (Store.settle fuel env n s).1 = []
      /\ Shard.isProcessing (Store.settle fuel env n s).1 = false).
Proof. split; [apply enqueue_idle|apply settle_fifo]. Qed.

Lemma dispatcher_is_fifo_witness :
  Shard.isProcessing Scenarios.shardFull = true
  /\ map fst (Store.settle 2 Scenarios.env0 0 Scenarios.shardFull).2
     = Shard.operationQueue Scenarios.shardFull.
Proof.
  split; [reflexivity|].
  destruct (dispatcher_is_fifo (Types.mkOp Types.OpDelete "b" None None None)
              Scenarios.env0 0 2 Scenarios.shardFull) as [_ H].
  apply H; [reflexivity | vm_compute; lia].
Defined.

(** X16.  Every [get] counts exactly one hit or one miss and touches no
    other key.  A hit returns the entry that the index holds and leaves
    the index as it is; a miss leaves the index without the key (an
    expired entry is removed, and only then [expirations] is
    incremented).  The counters of sets, deletes and evictions, the
    mailbox and the TTL heap are unchanged. *)
Theorem get_counts_hit_or_miss (k : string) (now : Z) (s : Shard.CacheShard) :
  let r := Shard.get k now s in
  match r.1 with
  | Some e =>
      Shard.entries s !! k = Some e
      /\ Shard.entries r.2 = Shard.entries s
      /\ Types.hits (Shard.stats r.2) = Types.hits (Shard.stats s) + 1
      /\ Types.misses (Shard.stats r.2) = Types.misses (Shard.stats s)
      /\ Types.expirations (Shard.stats r.2) = Types.expirations (Shard.stats s)
  | None =>
      Shard.entries r.2 = delete k (Shard.entries s)
      /\ Types.hits (Shard.stats r.2) = Types.hits (Shard.stats s)
      /\ Types.misses (Shard.stats r.2) = Types.misses (Shard.stats s) + 1
      /\ Types.expirations (Shard.stats r.2)
         = Types.expirations (Shard.stats s)
           + (match Shard.entries s !! k with Some _ => 1 | None => 0 end)
  end
  /\ (forall k', k' <> k -> Shard.entries r.2 !! k' = Shard.entries s !! k')
  /\ Types.sets (Shard.stats r.2) = Types.sets (Shard.stats s)
  /\ Types.deletes (Shard.stats r.2) = Types.deletes (Shard.stats s)
  /\ Types.evictions (Shard.stats r.2) = Types.evictions (Shard.stats s)
  /\ Shard.operationQueue r.2 = Shard.operationQueue s
  /\ Shard.ttlHeap r.2 = Shard.ttlHeap s.
Proof.
  unfold Shard.get, Shard.deleteEntry. cbn zeta.
  destruct (Shard.entries s !! k) as [e|] eqn:He.
  - destruct (Shard.expiredAt (Types.expiresAt e) now); rewrite ?He; cbn -[LRU.get LRU.delete].
    + repeat split; try done. intros k' Hne. by rewrite lookup_delete_ne.
    + repeat split; done.
  - cbn. rewrite delete_id by done. repeat split; try done; lia.
Qed.

(** * The sweeper tick *)

Lemma processExpirations_fold (now : Z) (ver : string) (s : Shard.CacheShard) :
  Shard.processExpirations now ver s
  = fold_left (Shard.sweepStep now ver) (MinHeap.popExpired now (Shard.ttlHeap s)).1
      (Shard.with_ttlHeap (MinHeap.popExpired now (Shard.ttlHeap s)).2 s).
Proof.
  unfold Shard.processExpirations.
  by destruct (MinHeap.popExpired now (Shard.ttlHeap s)).
Qed.

Lemma deleteEntry_fields (k : string) (s : Shard.CacheShard) :
  Shard.entries (Shard.deleteEntry k s).2 = delete k (Shard.entries s)
  /\ Shard.ttlHeap (Shard.deleteEntry k s).2 = Shard.ttlHeap s
  /\ Shard.maxMailboxSize (Shard.deleteEntry k s).2 = Shard.maxMailboxSize s
  /\ Shard.operationQueue (Shard.deleteEntry k s).2 = Shard.operationQueue s
  /\ Shard.isProcessing (Shard.deleteEntry k s).2 = Shard.isProcessing s.
Proof.
  unfold Shard.deleteEntry. destruct (Shard.entries s !! k) eqn:E; simpl; [done|].
  by rewrite delete_id.
Qed.

Lemma executeExpire_state (op : Types.ShardOperation) (now : Z) (ver : string)
    (s : Shard.CacheShard) :
  Types.opType op = Types.OpExpire ->
  (Shard.executeOperation op now ver s).2 = (Shard.deleteEntry (Types.opKey op) s).2.
Proof.
  intros Hop. unfold Shard.executeOperation, Shard.executeExpire. rewrite Hop.
  by destruct (Shard.deleteEntry (Types.opKey op) s).
Qed.

(** One iteration of the loop of the tick keeps the loop invariant, as
    long as the mailbox has room. *)
Lemma sweepStep_sweeping (now : Z) (ver : string) (m0 : gmap string Types.CacheEntry)
    (done : list MinHeap.HeapEntry) (e : MinHeap.HeapEntry) (acc : Shard.CacheShard) :
  Shard.sweeping m0 done acc ->
  Z.of_nat (length done) < Shard.maxMailboxSize acc ->
  Shard.sweeping m0 (done ++ [e]) (Shard.sweepStep now ver acc e)
  /\ Shard.ttlHeap (Shard.sweepStep now ver acc e) = Shard.ttlHeap acc
  /\ Shard.maxMailboxSize (Shard.sweepStep now ver acc e) = Shard.maxMailboxSize acc.
Proof.
  intros (Hq & Hlen & Hent & Hdone & Hidle) Hroom.
  assert (Hsub : forall k, k ∈ map MinHeap.key done -> k ∈ map MinHeap.key (done ++ [e])).
  { intros k Hk. rewrite map_app. apply elem_of_app. by left. }
  assert (Hlast : MinHeap.key e ∈ map MinHeap.key (done ++ [e])).
  { rewrite map_app. apply elem_of_app. right. simpl. by left. }
  assert (Hq' : Forall (fun o => Types.opType o = Types.OpExpire
                                 /\ Types.opKey o ∈ map MinHeap.key (done ++ [e]))
                       (Shard.operationQueue acc)).
  { eapply Forall_impl; [exact Hq|]. intros o [? ?]. split; [done|by apply Hsub]. }
  unfold Shard.sweepStep.
  destruct (Shard.entries acc !! MinHeap.key e) as [x|] eqn:Hx.
  - unfold Shard.enqueueOperation.
    rewrite (proj2 (Z.leb_gt _ _)) by lia.
    unfold Shard.processOperations. cbn [Shard.isProcessing Shard.with_operationQueue].
    destruct (Shard.isProcessing acc) eqn:Hp.
    + simpl. split; [|done]. split; [|split; [|split; [|split]]].
      * apply Forall_app. split; [done|]. by repeat constructor.
      * simpl. rewrite !length_app. simpl. lia.
      * intros k. destruct (Hent k) as [?|[? ?]]; [by left|right]. split; [done|by apply Hsub].
      * simpl. intros rec [Hrec|Hrec]%elem_of_app.
        -- destruct (Hdone rec Hrec) as [?|Hin]; [by left|right].
           rewrite map_app. apply elem_of_app. by left.
        -- apply list_elem_of_singleton in Hrec as ->. right.
           rewrite map_app. apply elem_of_app. right. simpl. by left.
      * simpl. by rewrite Hp.
    + rewrite (Hidle eq_refl). unfold Shard.dispatchNext.
      cbn [Shard.operationQueue Shard.with_operationQueue Shard.with_isProcessing app].
      set (s0 := Shard.with_operationQueue [] _).
      set (op := Types.mkOp Types.OpExpire (MinHeap.key e) None None None).
      pose proof (executeExpire_state op now ver s0 eq_refl) as Hst.
      destruct (Shard.executeOperation op now ver s0) as [r s']. cbn [fst snd] in *.
      subst s'. destruct (deleteEntry_fields (MinHeap.key e) s0) as (E1 & E2 & E3 & E4 & E5).
      cbn [Types.opKey op] in *.
      split; [|by rewrite E2, E3]. split; [|split; [|split; [|split]]].
      * rewrite E4. constructor.
      * rewrite E4. simpl. lia.
      * intros k. rewrite E1. cbn [Shard.entries s0 Shard.with_operationQueue
                                   Shard.with_isProcessing].
        destruct (decide (k = MinHeap.key e)) as [->|Hne].
        -- right. by rewrite lookup_delete_eq.
        -- rewrite lookup_delete_ne by done.
           destruct (Hent k) as [?|[? ?]]; [by left|right]. split; [done|by apply Hsub].
      * intros rec Hrec. left. rewrite E1.
        cbn [Shard.entries s0 Shard.with_operationQueue Shard.with_isProcessing].
        destruct (decide (MinHeap.key rec = MinHeap.key e)) as [->|Hne].
        -- by rewrite lookup_delete_eq.
        -- rewrite lookup_delete_ne by done.
           apply elem_of_app in Hrec as [Hrec|Hrec].
           ++ destruct (Hdone rec Hrec) as [?|Hin]; [done|].
              rewrite (Hidle eq_refl) in Hin. simpl in Hin. by apply elem_of_nil in Hin.
           ++ apply list_elem_of_singleton in Hrec as ->. done.
      * rewrite E5. done.
  - split; [|done]. split; [done|]. split; [rewrite length_app; simpl; lia|].
    split; [|split; [|done]].
    + intros k. destruct (Hent k) as [?|[? ?]]; [by left|right]. split; [done|by apply Hsub].
    + intros rec [Hrec|Hrec]%elem_of_app; [by apply Hdone|].
      apply list_elem_of_singleton in Hrec as ->. by left.
Qed.

Lemma sweep_fold_sweeping (now : Z) (ver : string) (m0 : gmap string Types.CacheEntry)
    (todo done : list MinHeap.HeapEntry) (acc : Shard.CacheShard) :
  Shard.sweeping m0 done acc ->
  Z.of_nat (length done + length todo) <= Shard.maxMailboxSize acc ->
  Shard.sweeping m0 (done ++ todo) (fold_left (Shard.sweepStep now ver) todo acc)
  /\ Shard.ttlHeap (fold_left (Shard.sweepStep now ver) todo acc) = Shard.ttlHeap acc.
Proof.
  revert done acc. induction todo as [|e todo IH]; intros done acc Hinv Hroom.
  { simpl. by rewrite app_nil_r. }
  simpl in *. destruct (sweepStep_sweeping now ver m0 done e acc Hinv) as (H1 & H2 & H3);
    [lia|].
  destruct (IH (done ++ [e])%list (Shard.sweepStep now ver acc e) H1) as [H4 H5].
  { rewrite H3, length_app. simpl. lia. }
  rewrite <- app_assoc in H4. simpl in H4. by rewrite H5, H2.
Qed.

(** Resuming a dispatcher whose mailbox holds expire operations deletes
    their keys. *)
Lemma settle_expire_queue (fuel : nat) (env : Store.Env) (n : nat) (s : Shard.CacheShard) :
  Shard.isProcessing s = true ->
  Forall (fun o => Types.opType o = Types.OpExpire) (Shard.operationQueue s) ->
  (length (Shard.operationQueue s) < fuel)%nat ->
  Shard.entries (Store.settle fuel env n s).1
  = fold_left (fun m k => delete k m) (map Types.opKey (Shard.operationQueue s))
      (Shard.entries s)
  /\ Shard.ttlHeap (Store.settle fuel env n s).1 = Shard.ttlHeap s.
Proof.
  revert n s. induction fuel as [|fuel IH]; intros n s Hp Hq Hlen; [lia|].
  cbn [Store.settle]. rewrite Hp. unfold Shard.resume. rewrite Hp.
  unfold Shard.dispatchNext.
  destruct (Shard.operationQueue s) as [|op q] eqn:Hqs.
  - assert (Store.settle fuel env (S n) (Shard.with_isProcessing false s)
            = (Shard.with_isProcessing false s, [])) as ->.
    { by destruct fuel. }
    done.
  - apply Forall_cons in Hq as [Hop Hq].
    pose proof (executeExpire_state op (env n).1 (env n).2
                  (Shard.with_operationQueue q s) Hop) as Hst.
    destruct (Shard.executeOperation op (env n).1 (env n).2
                (Shard.with_operationQueue q s)) as [r s']. cbn [fst snd] in *.
    destruct (deleteEntry_fields (Types.opKey op) (Shard.with_operationQueue q s))
      as (E1 & E2 & E3 & E4 & E5). rewrite <- Hst in *.
    simpl in E1, E2, E4, E5.
    destruct (IH (S n) s') as [H1 H2].
    { by rewrite E5. }
    { by rewrite E4. }
    { rewrite E4. simpl in Hlen. lia. }
    destruct (Store.settle fuel env (S n) s') as [s2 cs2].
    simpl in *. by rewrite H1, H2, E1, E2, E4.
Qed.

(** The tick and the turns of the dispatcher it starts, on an idle shard. *)
Lemma sweep_due_keys (now : Z) (ver : string) (env : Store.Env) (n fuel : nat)
    (s : Shard.CacheShard) :
  Shard.isProcessing s = false -> Shard.operationQueue s = [] ->
  MinHeap.is_heap (Shard.ttlHeap s) ->
  Z.of_nat (length (Shard.ttlHeap s)) <= Shard.maxMailboxSize s ->
  (length (Shard.ttlHeap s) < fuel)%nat ->
  let s' := (Store.settle fuel env n (Shard.processExpirations now ver s)).1 in
  (forall rec, rec ∈ Shard.ttlHeap s -> MinHeap.expiresAt rec <= now ->
               Shard.entries s' !! MinHeap.key rec = None)
  /\ (forall k, (forall rec, rec ∈ Shard.ttlHeap s -> MinHeap.key rec = k ->
                             now < MinHeap.expiresAt rec) ->
                Shard.entries s' !! k = Shard.entries s !! k)
  /\ Shard.ttlHeap s' = (MinHeap.popExpired now (Shard.ttlHeap s)).2
  /\ Forall (fun rec => now < MinHeap.expiresAt rec) (Shard.ttlHeap s')
  /\ MinHeap.is_heap (Shard.ttlHeap s')
  /\ (forall k e, Shard.entries s' !! k = Some e -> Shard.entries s !! k = Some e).
Proof.
  intros Hp Hq Hh Hroom Hfuel s'.
  destruct (popExpired_heap now (Shard.ttlHeap s) Hh) as (HP & Hdue & Hlive & Hh' & _).
  set (expired := (MinHeap.popExpired now (Shard.ttlHeap s)).1) in *.
  set (heap' := (MinHeap.popExpired now (Shard.ttlHeap s)).2) in *.
  set (s0 := Shard.with_ttlHeap heap' s).
  set (s1 := Shard.processExpirations now ver s) in *.
  assert (Hs1 : s1 = fold_left (Shard.sweepStep now ver) expired s0)
    by apply processExpirations_fold.
  assert (Hlen : (length expired <= length (Shard.ttlHeap s))%nat).
  { rewrite (Permutation_length HP), length_app. lia. }
  destruct (sweep_fold_sweeping now ver (Shard.entries s) expired [] s0) as [Hinv Hheap].
  { unfold s0, Shard.sweeping. simpl. rewrite Hq.
    split; [constructor|]. split; [simpl; lia|]. split; [by left|].
    split; [intros rec Hrec; by apply elem_of_nil in Hrec|done]. }
  { simpl. unfold s0. simpl. lia. }
  simpl in Hinv. rewrite <- Hs1 in Hinv, Hheap.
  destruct Hinv as (Hops & Hqlen & Hent & Hdone & Hidle).
  assert (Hfinal : Shard.entries s'
                   = fold_left (fun m k => delete k m)
                       (map Types.opKey (Shard.operationQueue s1)) (Shard.entries s1)
                   /\ Shard.ttlHeap s' = heap').
  { unfold s'. destruct (Shard.isProcessing s1) eqn:Hp1.
    - destruct (settle_expire_queue fuel env n s1 Hp1) as [-> ->]; [|lia|done].
      eapply Forall_impl; [exact Hops|]. by intros o [? _].
    - rewrite (Hidle eq_refl). simpl.
      assert (Store.settle fuel env n s1 = (s1, [])) as ->; [|done].
      destruct fuel; [done|]. simpl. by rewrite Hp1. }
  destruct Hfinal as [Hfe Hfh].
  split; [|split; [|split; [|split; [|split]]]].
  - intros rec Hrec Hle. rewrite Hfe, lookup_fold_delete.
    case_bool_decide as Hin; [done|].
    assert (rec ∈ expired) as Hex.
    { rewrite HP in Hrec. apply elem_of_app in Hrec as [?|Hrest]; [done|].
      rewrite Forall_forall in Hlive. specialize (Hlive rec Hrest). lia. }
    by destruct (Hdone rec Hex).
  - intros k Hk. rewrite Hfe, lookup_fold_delete.
    assert (k ∉ map MinHeap.key expired) as Hnot.
    { intros (rec & -> & Hrec)%list_elem_of_fmap.
      assert (rec ∈ Shard.ttlHeap s) as Hin by (rewrite HP; apply elem_of_app; by left).
      specialize (Hk rec Hin eq_refl).
      rewrite Forall_forall in Hdue. specialize (Hdue rec Hrec). lia. }
    rewrite bool_decide_eq_false_2.
    + by destruct (Hent k) as [?|[_ ?]].
    + intros (o & -> & Ho)%list_elem_of_fmap.
      rewrite Forall_forall in Hops. by destruct (Hops o Ho) as [_ ?].
  - by rewrite Hfh.
  - by rewrite Hfh.
  - by rewrite Hfh.
  - intros k e. rewrite Hfe, lookup_fold_delete. case_bool_decide; [done|].
    destruct (Hent k) as [->|[-> _]]; done.
Qed.

(** X17.  The sweeper tick expires what is due, and nothing else.  On an
    idle shard whose TTL heap is in heap order and whose mailbox has room
    for the records of the heap, [processExpirations()] at time [now],
    followed by the turns of the dispatcher it starts, removes the entry
    of every key that has a heap record with [expiresAt <= now], and
    leaves the entry of every other key as it was; no entry is added or
    changed.  The heap keeps exactly the records with [expiresAt > now],
    in heap order. *)
Theorem sweeper_expires_due_keys (now : Z) (ver : string) (env : Store.Env) (n fuel : nat)
    (s : Shard.CacheShard) :
  Shard.isProcessing s = false -> Shard.operationQueue s = [] ->
  MinHeap.is_heap (Shard.ttlHeap s) ->
  Z.of_nat (length (Shard.ttlHeap s)) <= Shard.maxMailboxSize s ->
  (length (Shard.ttlHeap s) < fuel)%nat ->
  let s' := (Store.settle fuel env n (Shard.processExpirations now ver s)).1 in
  (forall rec, rec ∈ Shard.ttlHeap s -> MinHeap.expiresAt rec <= now ->
               Shard.entries s' !! MinHeap.key rec = None)
  /\ (forall k, (forall rec, rec ∈ Shard.ttlHeap s -> MinHeap.key rec = k ->
                             now < MinHeap.expiresAt rec) ->
                Shard.entries s' !! k = Shard.entries s !! k)
  /\ Shard.ttlHeap s' = (MinHeap.popExpired now (Shard.ttlHeap s)).2
  /\ Forall (fun rec => now < MinHeap.expiresAt rec) (Shard.ttlHeap s')
  /\ MinHeap.is_heap (Shard.ttlHeap s')
  /\ (forall k e, Shard.entries s' !! k = Some e -> Shard.entries s !! k = Some e).
Proof. apply sweep_due_keys. Qed.

Lemma is_heap_singleton (e : MinHeap.HeapEntry) : MinHeap.is_heap [e].
Proof.
  intros i a p Hi Ha Hp. destruct i as [|i]; [lia|]. done.
Qed.

Lemma sweeper_expires_due_keys_witness :
  Shard.isProcessing Scenarios.shardTtl1 = false
  /\ Shard.entries
       (Store.settle 2 Scenarios.env0 0
          (Shard.processExpirations 1001200 "v9" Scenarios.shardTtl1)).1 !! "session"
     = None.
Proof.
  split; [reflexivity|].
  assert (Shard.ttlHeap Scenarios.shardTtl1 = [MinHeap.mkHeapEntry "session" 1001000 0])
    as Hheap by (vm_compute; reflexivity).
  destruct (sweeper_expires_due_keys 1001200 "v9" Scenarios.env0 0 2 Scenarios.shardTtl1)
    as [Hdue _];
    [reflexivity | reflexivity | rewrite Hheap; apply is_heap_singleton
    | vm_compute; discriminate | vm_compute; lia |].
  apply (Hdue (MinHeap.mkHeapEntry "session" 1001000 0)).
  - rewrite Hheap. by left.
  - vm_compute. discriminate.
Defined.

(** ** The TTL heap covers the entries *)

Lemma drainEvicted_heap (evicted : list string) (s : Shard.CacheShard) :
  Shard.ttlHeap (Shard.drainEvicted evicted s) = Shard.ttlHeap s
  /\ Shard.shardId (Shard.drainEvicted evicted s) = Shard.shardId s.
Proof.
  revert s. induction evicted as [|k evicted IH]; intros s; [done|]. simpl.
  destruct (IH (Shard.with_stats
                  (Shard.incr_evictions (Shard.stats (Shard.deleteEntry k s).2))
                  (Shard.deleteEntry k s).2)) as [-> ->].
  simpl. unfold Shard.deleteEntry. by destruct (Shard.entries s !! k).
Qed.

(** The entries and the heap after a set that was executed. *)
Lemma executeSet_entries_heap (op : Types.ShardOperation) (entry : Types.CacheEntry)
    (now : Z) (ver : string) (s : Shard.CacheShard) (r : Shard.OpResult) :
  Types.entry op = Some (Types.EntryOf entry) ->
  (Shard.executeSet op now ver s).1 = Errors.Ok r ->
  (forall k' x,
      Shard.entries (Shard.executeSet op now ver s).2 !! k' = Some x ->
      (k' = Types.opKey op /\ Types.expiresAt x = Types.expiresAt entry)
      \/ (k' <> Types.opKey op /\ Shard.entries s !! k' = Some x))
  /\ Shard.ttlHeap (Shard.executeSet op now ver s).2
     = match Types.expiresAt entry with
       | Some t =>
           if truthyZ t
           then MinHeap.push (MinHeap.mkHeapEntry (Types.opKey op) t (Shard.shardId s))
                             (Shard.ttlHeap s)
           else Shard.ttlHeap s
       | None => Shard.ttlHeap s
       end.
Proof.
  intros Hentry. unfold Shard.executeSet. rewrite Hentry.
  destruct (_ && _); [discriminate|].
  destruct (_ && _); [discriminate|].
  destruct (_ <? _); [discriminate|].
  cbn zeta. destruct (LRU.set _ _ _ _) as [evicted l'] eqn:El. intros _.
  cbn [snd Types.expiresAt].
  set (s3 := Shard.drainEvicted evicted _).
  assert (Hent : forall k' x, Shard.entries s3 !! k' = Some x ->
            (k' = Types.opKey op /\ Types.expiresAt x = Types.expiresAt entry)
            \/ (k' <> Types.opKey op /\ Shard.entries s !! k' = Some x)).
  { intros k' x Hx. unfold s3 in Hx. apply drainEvicted_lookup_Some in Hx. simpl in Hx.
    destruct (decide (k' = Types.opKey op)) as [->|Hne].
    - rewrite lookup_insert_eq in Hx. injection Hx as <-. by left.
    - rewrite lookup_insert_ne in Hx by done. by right. }
  destruct (drainEvicted_heap evicted
              (Shard.with_lru l'
                 (Shard.with_stats
                    (Shard.incr_sets (Shard.stats (Shard.with_entries
                       (<[Types.opKey op:=Types.mkEntry (Types.key entry) (Types.value entry)
                            (Types.type entry) ver
                            (Shard.createdAtOr (Shard.entries s !! Types.opKey op) now) now
                            (Types.expiresAt entry) (Types.sizeBytes entry)]>
                          (Shard.entries s)) s)))
                    (Shard.with_entries
                       (<[Types.opKey op:=Types.mkEntry (Types.key entry) (Types.value entry)
                            (Types.type entry) ver
                            (Shard.createdAtOr (Shard.entries s !! Types.opKey op) now) now
                            (Types.expiresAt entry) (Types.sizeBytes entry)]>
                          (Shard.entries s)) s)))) as [Hheap Hid].
  fold s3 in Hheap, Hid. simpl in Hheap, Hid.
  destruct (Types.expiresAt entry) as [t|]; [|by rewrite Hheap].
  destruct (truthyZ t); [|by rewrite Hheap].
  split; [exact Hent|]. simpl. by rewrite Hheap, Hid.
Qed.

Lemma get_entries_shrink (k : string) (now : Z) (s : Shard.CacheShard) :
  Shard.entries (Shard.get k now s).2 ⊆ Shard.entries s.
Proof.
  unfold Shard.get, Shard.deleteEntry.
  destruct (Shard.entries s !! k) as [e|] eqn:He; [|done].
  destruct (Shard.expiredAt (Types.expiresAt e) now); rewrite ?He; cbn -[LRU.get LRU.delete].
  - apply delete_subseteq.
  - done.
Qed.

Lemma covered_shrink (s s' : Shard.CacheShard) :
  Shard.entries s' ⊆ Shard.entries s -> Shard.ttlHeap s' = Shard.ttlHeap s ->
  Shard.covered s -> Shard.covered s'.
Proof.
  intros Hsub Hheap Hc k e t He Ht Hnz. rewrite Hheap.
  apply (Hc k e t); [|done|done]. by eapply lookup_weaken.
Qed.

Lemma deleteEntry_shrink (k : string) (s : Shard.CacheShard) :
  Shard.entries (Shard.deleteEntry k s).2 ⊆ Shard.entries s
  /\ Shard.ttlHeap (Shard.deleteEntry k s).2 = Shard.ttlHeap s.
Proof.
  destruct (deleteEntry_fields k s) as (-> & -> & _). split; [apply delete_subseteq|done].
Qed.

Lemma heap_covered_executeOperation (op : Types.ShardOperation) (now : Z) (ver : string)
    (s : Shard.CacheShard) :
  MinHeap.is_heap (Shard.ttlHeap s) -> Shard.covered s ->
  MinHeap.is_heap (Shard.ttlHeap (Shard.executeOperation op now ver s).2)
  /\ Shard.covered (Shard.executeOperation op now ver s).2.
Proof.
  intros Hh Hc.
  destruct (Shard.executeOperation op now ver s).1 as [r|err] eqn:Hres;
    [|by rewrite (proj1 (executeOperation_rejected op now ver s err Hres))].
  revert Hres. unfold Shard.executeOperation. destruct (Types.opType op).
  - destruct (Types.entry op) as [[entry|delta]|] eqn:Hentry.
    + intros Hres.
      destruct (executeSet_entries_heap op entry now ver s r Hentry Hres) as [Hent Hheap].
      split.
      * rewrite Hheap. destruct (Types.expiresAt entry) as [t|]; [|done].
        destruct (truthyZ t); [by apply push_heap|done].
      * intros k e t He Ht Hnz. rewrite Hheap.
        destruct (Hent k e He) as [[-> Hexp]|[Hne Hold]].
        -- rewrite Ht in Hexp. rewrite <- Hexp.
           assert (truthyZ t = true) as ->.
           { unfold truthyZ. by apply negb_true_iff, Z.eqb_neq. }
           exists (MinHeap.mkHeapEntry (Types.opKey op) t (Shard.shardId s)).
           split; [|done]. rewrite push_perm. by left.
        -- destruct (Hc k e t Hold Ht Hnz) as (rec & Hin & Hk & Hx).
           exists rec. split; [|done].
           destruct (Types.expiresAt entry) as [t'|]; [|done].
           destruct (truthyZ t'); [|done]. rewrite push_perm. by right.
    + intros _. unfold Shard.executeSet. rewrite Hentry. unfold Shard.executeIncrement.
      set (check := match Shard.entries s !! Types.opKey op with
                    | Some _ => _ | None => _ end).
      destruct check as [currentValue|e0]; [|done].
      cbn -[LRU.set]. split; [done|].
      intros k e t He Ht Hnz. cbn -[LRU.set] in He.
      destruct (decide (k = Types.opKey op)) as [->|Hne].
      * rewrite lookup_insert_eq in He. injection He as <-. done.
      * rewrite lookup_insert_ne in He by done. by apply (Hc k e t).
    + intros _. unfold Shard.executeSet. by rewrite Hentry.
  - intros _. unfold Shard.executeDelete.
    destruct (Shard.entries s !! Types.opKey op) as [x|]; [|done].
    destruct (_ && _); [done|]. cbn [snd].
    destruct (deleteEntry_shrink (Types.opKey op) s) as [Hsub Hheap].
    split; [simpl; by rewrite Hheap|].
    apply (covered_shrink s); [done|done|done].
  - intros _. unfold Shard.executeExpire.
    destruct (deleteEntry_shrink (Types.opKey op) s) as [Hsub Hheap].
    destruct (Shard.deleteEntry (Types.opKey op) s) as [b s']. cbn [snd] in *.
    split; [by rewrite Hheap|]. by apply (covered_shrink s).
  - intros _. unfold Shard.executeEvict.
    destruct (deleteEntry_shrink (Types.opKey op) s) as [Hsub Hheap].
    destruct (Shard.deleteEntry (Types.opKey op) s) as [b s']. cbn [snd] in *.
    split; [by rewrite Hheap|]. by apply (covered_shrink s).
Qed.

Lemma heap_covered_get (k : string) (now : Z) (s : Shard.CacheShard) :
  MinHeap.is_heap (Shard.ttlHeap s) -> Shard.covered s ->
  MinHeap.is_heap (Shard.ttlHeap (Shard.get k now s).2)
  /\ Shard.covered (Shard.get k now s).2.
Proof.
  intros Hh Hc.
  assert (Shard.ttlHeap (Shard.get k now s).2 = Shard.ttlHeap s) as Hheap.
  { unfold Shard.get, Shard.deleteEntry.
    destruct (Shard.entries s !! k) as [e|] eqn:He; [|done].
    destruct (Shard.expiredAt (Types.expiresAt e) now); by rewrite ?He. }
  split; [by rewrite Hheap|].
  apply (covered_shrink s); [apply get_entries_shrink|done|done].
Qed.

(** X26.  The TTL heap covers the entries.  A new shard has a heap in
    heap order, and every one of its entries that has an expiry has a
    record with its key and that expiry in the heap; every operation of
    the dispatcher, executed or rejected, and every read keep both. *)
Theorem ttl_heap_covers_entries (op : Types.ShardOperation) (k : string) (now : Z)
    (ver : string) (s : Shard.CacheShard)
    (shardId maxItemBytes : Z) (budget : option Z) (maxMailboxSize : Z) :
  MinHeap.is_heap (Shard.ttlHeap s) -> Shard.covered s ->
  MinHeap.is_heap (Shard.ttlHeap (Shard.create shardId maxItemBytes budget maxMailboxSize))
  /\ Shard.covered (Shard.create shardId maxItemBytes budget maxMailboxSize)
  /\ MinHeap.is_heap (Shard.ttlHeap (Shard.executeOperation op now ver s).2)
  /\ Shard.covered (Shard.executeOperation op now ver s).2
  /\ MinHeap.is_heap (Shard.ttlHeap (Shard.get k now s).2)
  /\ Shard.covered (Shard.get k now s).2.
Proof.
  intros Hh Hc. split; [apply is_heap_nil|]. split; [by intros k' e t He|].
  destruct (heap_covered_executeOperation op now ver s Hh Hc) as [H1 H2].
  destruct (heap_covered_get k now s Hh Hc) as [H3 H4]. done.
Qed.

Lemma ttl_heap_covers_entries_witness :
  MinHeap.is_heap (Shard.ttlHeap Scenarios.shard0)
  /\ Shard.covered (Shard.executeOperation Scenarios.opSetNum 2000 "v2" Scenarios.shard0).2.
Proof.
  split; [apply is_heap_nil|].
  apply (ttl_heap_covers_entries Scenarios.opSetNum "n" 2000 "v2" Scenarios.shard0
           0 1000 None 10); [apply is_heap_nil|].
  intros k e t He. vm_compute in He. discriminate He.
Defined.

(** X27.  A sweep leaves no expired entry behind.  On an idle shard whose
    heap is in heap order and covers the entries, and whose mailbox has
    room for the records of the heap, the tick at time [now] followed by
    the turns of the dispatcher it starts removes every entry that has
    expired by [now]; what is left has not expired, nothing is added or
    changed, and the heap is again in heap order and covers the entries
    that are left. *)
Theorem sweep_leaves_no_expired_entry (now : Z) (ver : string) (env : Store.Env)
    (n fuel : nat) (s : Shard.CacheShard) :
  Shard.isProcessing s = false -> Shard.operationQueue s = [] ->
  MinHeap.is_heap (Shard.ttlHeap s) -> Shard.covered s ->
  Z.of_nat (length (Shard.ttlHeap s)) <= Shard.maxMailboxSize s ->
  (length (Shard.ttlHeap s) < fuel)%nat ->
  let s' := (Store.settle fuel env n (Shard.processExpirations now ver s)).1 in
  (forall k e, Shard.entries s !! k = Some e ->
               Shard.expiredAt (Types.expiresAt e) now = true ->
               Shard.entries s' !! k = None)
  /\ (forall k e, Shard.entries s' !! k = Some e ->
                  Shard.expiredAt (Types.expiresAt e) now = false
                  /\ Shard.entries s !! k = Some e)
  /\ MinHeap.is_heap (Shard.ttlHeap s')
  /\ Shard.covered s'.
Proof.
  intros Hp Hq Hh Hc Hroom Hfuel s'.
  destruct (sweep_due_keys now ver env n fuel s Hp Hq Hh Hroom Hfuel)
    as (Hdue & Hkeep & Hheap & Hlive & Hh' & Hsub).
  fold s' in Hdue, Hkeep, Hheap, Hlive, Hh', Hsub.
  destruct (popExpired_heap now (Shard.ttlHeap s) Hh) as (HP & Hexp & _).
  assert (Hgone : forall k e, Shard.entries s !! k = Some e ->
                    Shard.expiredAt (Types.expiresAt e) now = true ->
                    Shard.entries s' !! k = None).
  { intros k e He Hx. unfold Shard.expiredAt in Hx.
    destruct (Types.expiresAt e) as [t|] eqn:Ht; [|done].
    apply andb_true_iff in Hx as [Hnz Hle]. apply Z.leb_le in Hle.
    unfold truthyZ in Hnz. apply negb_true_iff, Z.eqb_neq in Hnz.
    destruct (Hc k e t He Ht Hnz) as (rec & Hin & <- & Hrt).
    apply Hdue; [done|lia]. }
  split; [exact Hgone|]. split; [|split; [done|]].
  - intros k e He. pose proof (Hsub k e He) as Hold. split; [|done].
    destruct (Shard.expiredAt (Types.expiresAt e) now) eqn:Hx; [|done].
    rewrite (Hgone k e Hold Hx) in He. discriminate He.
  - intros k e t He Ht Hnz. pose proof (Hsub k e He) as Hold.
    destruct (Hc k e t Hold Ht Hnz) as (rec & Hin & Hk & Hrt).
    exists rec. split; [|done]. rewrite Hheap.
    rewrite HP in Hin. apply elem_of_app in Hin as [Hin|Hin]; [|done]. exfalso.
    rewrite Forall_forall in Hexp. specialize (Hexp rec Hin).
    rewrite <- Hk in He. rewrite (Hdue rec) in He; [done| |lia].
    rewrite HP. apply elem_of_app. by left.
Qed.

Lemma shardTtl1_covered : Shard.covered Scenarios.shardTtl1.
Proof.
  intros k e t He Ht Hnz.
  assert (Shard.entries Scenarios.shardTtl1
          = {["session" := Types.mkEntry "session" (Types.JString "a") Types.TString "v1"
                             1000000 1000000 (Some 1001000) 1]}) as Hent
    by (vm_compute; reflexivity).
  rewrite Hent in He. apply lookup_singleton_Some in He as [<- <-].
  injection Ht as <-.
  exists (MinHeap.mkHeapEntry "session" 1001000 0). split; [|done].
  assert (Shard.ttlHeap Scenarios.shardTtl1 = [MinHeap.mkHeapEntry "session" 1001000 0])
    as -> by (vm_compute; reflexivity).
  by left.
Qed.

Lemma sweep_leaves_no_expired_entry_witness :
  Shard.isProcessing Scenarios.shardTtl1 = false
  /\ Shard.entries
       (Store.settle 2 Scenarios.env0 0
          (Shard.processExpirations 1001200 "v9" Scenarios.shardTtl1)).1 !! "session"
     = None.
Proof.
  split; [reflexivity|].
  assert (Shard.ttlHeap Scenarios.shardTtl1 = [MinHeap.mkHeapEntry "session" 1001000 0])
    as Hheap by (vm_compute; reflexivity).
  destruct (sweep_leaves_no_expired_entry 1001200 "v9" Scenarios.env0 0 2
              Scenarios.shardTtl1) as [Hgone _];
    [reflexivity | reflexivity | rewrite Hheap; apply is_heap_singleton
    | apply shardTtl1_covered | vm_compute; discriminate | vm_compute; lia |].
  apply (Hgone "session"
           (Types.mkEntry "session" (Types.JString "a") Types.TString "v1"
              1000000 1000000 (Some 1001000) 1)); vm_compute; reflexivity.
Defined.

(** * The store *)

(** X19.  An overloaded store rejects every call.  When [currentInflight]
    has reached [maxInflight], every public call of the store throws the
    error of [checkBackpressure] and leaves the store as it is; no shard
    is reached.  The error handler answers that error with 503
    [SERVICE_UNAVAILABLE] and the header [Retry-After: 1]: the
    [retryAfter] of the error is [0], which [error.retryAfter || '1']
    replaces. *)
Theorem overloaded_store_rejects_every_call (st : Store.CacheStore) (env : Store.Env)
    (k : string) (v : Types.JsValue) (ttl : option Z) (ifMatch : option string)
    (ifNoneMatch : option bool) (delta : float) (now : Z)
    (items : list Store.BatchSetItem) (keys : list string) :
  Store.maxInflight st <= Store.currentInflight st ->
  Store.get k now st = (Errors.Throw Store.overloadedError, st)
  /\ Store.set k v ttl ifMatch ifNoneMatch env st = (Errors.Throw Store.overloadedError, st)
  /\ Store.delete k ifMatch env st = (Errors.Throw Store.overloadedError, st)
  /\ Store.increment k delta env st = (Errors.Throw Store.overloadedError, st)
  /\ Store.batchGet keys env st = (Errors.Throw Store.overloadedError, st)
  /\ Store.batchSet items env st = (Errors.Throw Store.overloadedError, st)
  /\ Store.batchDelete keys env st = (Errors.Throw Store.overloadedError, st)
  /\ Boundary.errorHandler Store.overloadedError
     = Boundary.mkResponse 503 [("Retry-After", "1")]
         (Boundary.ErrorBody "SERVICE_UNAVAILABLE" "Service temporarily overloaded").
Proof.
  intros Hfull.
  assert (Store.checkBackpressure st = Some Store.overloadedError) as Hbp.
  { unfold Store.checkBackpressure. by rewrite (proj2 (Z.leb_le _ _) Hfull). }
  unfold Store.get, Store.set, Store.delete, Store.increment, Store.onShard,
    Store.batchGet, Store.batchSet, Store.batchDelete, Store.batch.
  rewrite Hbp. repeat split; reflexivity.
Qed.

Lemma overloaded_store_rejects_every_call_witness :
  Store.maxInflight (Store.create 2 1000 None 0 1000)
  <= Store.currentInflight (Store.create 2 1000 None 0 1000)
  /\ Store.get "k" 1000 (Store.create 2 1000 None 0 1000)
     = (Errors.Throw Store.overloadedError, Store.create 2 1000 None 0 1000).
Proof.
  split; [vm_compute; discriminate|].
  apply (overloaded_store_rejects_every_call (Store.create 2 1000 None 0 1000)
           Scenarios.env0 "k" Types.JNull None None None 0%float 1000 [] []).
  vm_compute. discriminate.
Defined.

(** Every key has its shard in a store that holds [numShards] shards. *)
Lemma shardIndexFor_ok (k : string) (st : Store.CacheStore) :
  0 < Store.numShards st ->
  length (Store.shards st) = Z.to_nat (Store.numShards st) ->
  exists i s, Store.shardIndexFor k st = Errors.Ok i
              /\ Store.shards st !! i = Some s
              /\ Hashing.getShardForKey k (Store.numShards st) = Errors.Ok (Z.of_nat i).
Proof.
  intros Hn Hlen. unfold Store.shardIndexFor.
  destruct (getShardForKey_range k (Store.numShards st) Hn) as (shardId & Hs & Hrange).
  rewrite Hs.
  destruct (lookup_lt_is_Some_2 (Store.shards st) (Z.to_nat shardId)) as [s Hlook]; [lia|].
  rewrite Hlook.
  rewrite (proj2 (Z.ltb_ge _ _)) by lia. rewrite (proj2 (Z.leb_gt _ _)) by lia.
  simpl. exists (Z.to_nat shardId), s. split; [done|]. split; [done|].
  by rewrite Z2Nat.id by lia.
Qed.

Lemma get_entries (k : string) (now : Z) (s : Shard.CacheShard) :
  (forall e, (Shard.get k now s).1 = Some e -> Shard.entries s !! k = Some e)
  /\ Shard.entries (Shard.get k now s).2 ⊆ Shard.entries s.
Proof.
  unfold Shard.get, Shard.deleteEntry.
  destruct (Shard.entries s !! k) as [e|] eqn:He; [|done].
  destruct (Shard.expiredAt (Types.expiresAt e) now); rewrite ?He; cbn -[LRU.get LRU.delete].
  - split; [done|]. apply delete_subseteq.
  - split; [by intros ? [= <-]|done].
Qed.

Lemma readKey_reading (env : Store.Env) (shardId : Z) (shards0 : list Shard.CacheShard)
    (seen : list string) (acc : Store.GetProgress) (k : string) :
  (Z.to_nat shardId < length shards0)%nat ->
  Store.reading shards0 seen acc ->
  Store.reading shards0 (seen ++ [k]) (Store.readKey env shardId acc k).
Proof.
  intros Hi (Hperm & Hlen & Hok & Hsub & Hhits). unfold Store.readKey.
  destruct (lookup_lt_is_Some_2 (Store.gShards acc) (Z.to_nat shardId)) as [s Hs]; [lia|].
  rewrite Hs. destruct (Hsub _ _ Hs) as (s0 & Hs0 & Hincl).
  destruct (get_entries k (env (Store.gRound acc)).1 s) as [Hget Hless].
  destruct (Shard.get k (env (Store.gRound acc)).1 s) as [r s']. cbn [fst snd] in *.
  assert (Hsub' : forall i x, <[Z.to_nat shardId:=s']> (Store.gShards acc) !! i = Some x ->
                    exists y, shards0 !! i = Some y /\ Shard.entries x ⊆ Shard.entries y).
  { intros i x Hx. destruct (decide (i = Z.to_nat shardId)) as [->|Hne].
    - rewrite list_lookup_insert_eq in Hx by lia. injection Hx as <-.
      exists s0. split; [done|]. by etransitivity.
    - rewrite list_lookup_insert_ne in Hx by done. by apply Hsub. }
  destruct r as [e|]; unfold Store.reading; cbn.
  - split; [|split; [by rewrite length_insert|split; [done|split; [done|]]]].
    + rewrite map_app. simpl. rewrite <- Hperm. solve_Permutation.
    + apply Forall_app. split; [done|]. constructor; [|constructor].
      exists s0, e. cbn. split; [by eapply list_elem_of_lookup_2|].
      split; [|done]. eapply lookup_weaken; [|exact Hincl]. by apply Hget.
  - split; [|split; [by rewrite length_insert|done]].
    rewrite <- Hperm. solve_Permutation.
Qed.

Lemma readGroup_reading (env : Store.Env) (shards0 : list Shard.CacheShard)
    (seen : list string) (acc : Store.GetProgress) (g : Z * list string) :
  (Z.to_nat g.1 < length shards0)%nat ->
  Store.reading shards0 seen acc ->
  Store.reading shards0 (seen ++ g.2) (Store.readGroup env acc g).
Proof.
  intros Hi Hr. unfold Store.readGroup.
  pose proof Hr as (_ & Hlen & -> & _).
  destruct (lookup_lt_is_Some_2 (Store.gShards acc) (Z.to_nat g.1)) as [s Hs]; [lia|].
  rewrite Hs. clear s Hs Hlen.
  destruct g as [shardId ks]. simpl in *.
  revert seen acc Hr. induction ks as [|k ks IH]; intros seen acc Hr; simpl.
  - by rewrite app_nil_r.
  - replace (seen ++ k :: ks)%list with ((seen ++ [k]) ++ ks)%list
      by by rewrite <- app_assoc.
    apply IH. by apply readKey_reading.
Qed.

(** X20.  [batchGet] sorts every requested key into [hits] or [misses].
    On a store that is not overloaded and holds its [numShards] shards,
    the call returns; the keys of the hits together with the misses are
    the requested keys, each as often as requested, and every hit
    reports the value, type and version of an entry that the store held
    under that key when the call began. *)
Theorem batchGet_sorts_every_key (keys : list string) (env : Store.Env)
    (st : Store.CacheStore) :
  Store.checkBackpressure st = None ->
  0 < Store.numShards st ->
  length (Store.shards st) = Z.to_nat (Store.numShards st) ->
  exists hits misses,
    (Store.batchGet keys env st).1 = Errors.Ok (hits, misses)
    /\ Permutation (map Store.hitKey hits ++ misses) keys
    /\ (length hits + length misses = length keys)%nat
    /\ Forall (fun h => exists s e,
                 s ∈ Store.shards st /\ Shard.entries s !! Store.hitKey h = Some e
                 /\ Store.hitValue h = Types.value e /\ Store.hitType h = Types.type e
                 /\ Store.hitVersion h = Types.version e) hits.
Proof.
  intros Hbp Hn Hlen. unfold Store.batchGet. rewrite Hbp.
  destruct (groupByShard_spec (fun k : string => k) (Store.numShards st) keys [] Hn)
    as (groups & -> & HP & Hvalid); [constructor|].
  simpl in HP.
  assert (Hfold : forall gs seen acc,
             Forall (fun g : Z * list string => 0 <= g.1 < Store.numShards st) gs ->
             Store.reading (Store.shards st) seen acc ->
             Store.reading (Store.shards st) (seen ++ concat (map snd gs))
               (fold_left (Store.readGroup env) gs acc)).
  { induction gs as [|g gs IH]; intros seen acc Hgs Hr; simpl.
    - by rewrite app_nil_r.
    - apply Forall_cons in Hgs as [Hg Hgs]. simpl in Hg. rewrite app_assoc.
      apply IH; [done|]. apply readGroup_reading; [lia|done]. }
  destruct (Hfold groups [] (Store.mkGetProgress (Store.shards st) 0 [] [] false) Hvalid)
    as (Hperm & _ & Hok & _ & Hhits).
  { unfold Store.reading. cbn. split; [done|]. split; [done|]. split; [done|].
    split; [|constructor]. intros i s' Hs'. by exists s'. }
  rewrite Hok. simpl in Hperm. rewrite HP in Hperm.
  eexists _, _. split; [done|]. split; [done|]. split; [|done].
  apply Permutation_length in Hperm. rewrite length_app, length_map in Hperm. done.
Qed.

Lemma batchGet_sorts_every_key_witness :
  Store.checkBackpressure Scenarios.store2 = None
  /\ exists hits misses,
       (Store.batchGet ["a"; "b"; "a"] Scenarios.env0 Scenarios.store2).1
       = Errors.Ok (hits, misses)
       /\ Permutation (map Store.hitKey hits ++ misses) ["a"; "b"; "a"].
Proof.
  split; [reflexivity|].
  destruct (batchGet_sorts_every_key ["a"; "b"; "a"] Scenarios.env0 Scenarios.store2)
    as (hits & misses & H1 & H2 & _); [reflexivity | reflexivity | reflexivity |].
  by exists hits, misses.
Defined.

(** X21.  A new store.  [new CacheStore(numShards, ...)] with a positive
    number of shards holds that many shards, numbered in order, each
    empty, idle and with an LRU without a count limit; every key has its
    shard, and every [get] misses.  The byte limit of each shard is
    [Math.floor(memoryBudgetBytes / numShards)]; when that is [0] (a
    budget below the number of shards) or no budget is given, the shards
    have no byte limit at all. *)
Theorem new_store_shards (numShards maxItemBytes : Z) (budget : option Z)
    (maxInflight maxShardMailbox : Z) (k : string) (now : Z) :
  0 < numShards -> 0 < maxInflight ->
  let st := Store.create numShards maxItemBytes budget maxInflight maxShardMailbox in
  length (Store.shards st) = Z.to_nat numShards
  /\ (forall i s, Store.shards st !! i = Some s ->
        Shard.shardId s = Z.of_nat i
        /\ Shard.entries s = ∅ /\ Shard.ttlHeap s = []
        /\ Shard.isProcessing s = false /\ Shard.operationQueue s = []
        /\ Shard.linked s
        /\ LRU.capacity (Shard.lru s) = Infinity
        /\ LRU.maxSizeBytes (Shard.lru s)
           = match budget with
             | Some b => if (b =? 0) || (b / numShards =? 0) then Infinity
                         else Fin (b / numShards)
             | None => Infinity
             end)
  /\ (exists i, Store.shardIndexFor k st = Errors.Ok i /\ (i < Z.to_nat numShards)%nat)
  /\ (Store.get k now st).1 = Errors.Ok None.
Proof.
  intros Hn Hin st.
  assert (Hlen : length (Store.shards st) = Z.to_nat numShards).
  { unfold st, Store.create. simpl. by rewrite length_map, length_seq. }
  assert (Hshard : forall i s, Store.shards st !! i = Some s ->
            s = Shard.create (Z.of_nat i) maxItemBytes
                  (Store.perShardMemoryBudget budget numShards) maxShardMailbox).
  { intros i s Hs. unfold st, Store.create in Hs. simpl in Hs.
    apply list_lookup_fmap_Some in Hs as (j & -> & Hj).
    apply lookup_seq in Hj as [-> _]. done. }
  split; [done|]. split; [|split].
  - intros i s Hs. rewrite (Hshard i s Hs).
    split; [done|]. split; [done|]. split; [done|]. split; [done|]. split; [done|].
    split; [apply linked_create|]. split; [done|].
    unfold Shard.create, Store.perShardMemoryBudget, Shard.budgetLimit, truthyZ. simpl.
    destruct budget as [b|]; [|done].
    destruct (b =? 0); simpl; [done|]. by destruct (b / numShards =? 0).
  - destruct (shardIndexFor_ok k st Hn Hlen) as (i & s & Hi & Hs & _).
    exists i. split; [done|]. apply lookup_lt_Some in Hs. lia.
  - destruct (shardIndexFor_ok k st Hn Hlen) as (i & s & Hi & Hs & _).
    unfold Store.get.
    assert (Store.checkBackpressure st = None) as ->.
    { unfold Store.checkBackpressure, st. simpl. by rewrite (proj2 (Z.leb_gt _ _)) by lia. }
    rewrite Hi, Hs. rewrite (Hshard i s Hs). done.
Qed.

Lemma new_store_shards_witness :
  0 < 4
  /\ length (Store.shards (Store.create 4 1000 (Some 3) 1000 1000)) = 4%nat
  /\ (Store.get "k" 1000 (Store.create 4 1000 (Some 3) 1000 1000)).1 = Errors.Ok None.
Proof.
  split; [lia|].
  destruct (new_store_shards 4 1000 (Some 3) 1000 1000 "k" 1000) as (H1 & _ & _ & H2);
    [lia | lia |].
  split; [exact H1 | exact H2].
Defined.

Lemma settle_idle_after (n0 : nat) (env : Store.Env) (n : nat) (s : Shard.CacheShard) :
  Shard.isProcessing s = true -> Shard.operationQueue s = [] ->
  Store.settle (S (S n0)) env n s = (Shard.with_isProcessing false s, []).
Proof.
  intros Hp Hq. cbn [Store.settle]. rewrite Hp. unfold Shard.resume, Shard.dispatchNext.
  rewrite Hp, Hq. by destruct n0.
Qed.

(** A set without conditions of an entry within [maxItemBytes] is
    executed. *)
Lemma executeSet_unconditional (op : Types.ShardOperation) (entry : Types.CacheEntry)
    (now : Z) (ver : string) (s : Shard.CacheShard) :
  Types.entry op = Some (Types.EntryOf entry) ->
  Types.ifMatch op = None -> Types.ifNoneMatch op <> Some true ->
  Types.sizeBytes entry <= Shard.maxItemBytes s ->
  (Shard.executeSet op now ver s).1 = Errors.Ok (Shard.RSet ver (Types.expiresAt entry)).
Proof.
  intros Hentry Hm Hnm Hfit. unfold Shard.executeSet. rewrite Hentry, Hm.
  assert (match Types.ifNoneMatch op with Some b => b | None => false end = false) as ->.
  { by destruct (Types.ifNoneMatch op) as [[|]|]. }
  cbn [truthyOS andb]. rewrite (proj2 (Z.ltb_ge _ _)) by lia.
  cbn zeta. by destruct (LRU.set _ _ _ _).
Qed.

Lemma createEntry_Ok (k : string) (v : Types.JsValue) (ttlSec : option Z) (now : Z)
    (e : Types.CacheEntry) :
  Shard.createEntry k v ttlSec now = Errors.Ok e ->
  Types.key e = k /\ Types.value e = v /\ Types.type e = Validators.inferValueType v
  /\ Types.createdAt e = now /\ Types.updatedAt e = now.
Proof.
  unfold Shard.createEntry, Validators.validateInferredValue.
  destruct v as [| |s|f|b|json]; simpl; try discriminate;
    try (intros [= <-]; done).
  destruct (PrimFloat.is_finite f) eqn:E; simpl; rewrite ?E; [|discriminate].
  by intros [= <-].
Qed.

(** The round trip through the store, for any [ifNoneMatch] but [true]. *)
Lemma set_then_get_through_store (k : string) (v : Types.JsValue) (ttlSec : option Z)
    (ifNoneMatch : option bool) (entry : Types.CacheEntry) (env : Store.Env) (later : Z)
    (st : Store.CacheStore) :
  ifNoneMatch <> Some true ->
  Store.checkBackpressure st = None ->
  0 < Store.numShards st ->
  length (Store.shards st) = Z.to_nat (Store.numShards st) ->
  Shard.createEntry k v ttlSec (env 0%nat).1 = Errors.Ok entry ->
  Forall (fun s => Shard.isProcessing s = false /\ Shard.operationQueue s = []
                   /\ 0 < Shard.maxMailboxSize s
                   /\ Shard.linked s /\ LRU.capacity (Shard.lru s) = Infinity
                   /\ Types.sizeBytes entry <= Shard.maxItemBytes s
                   /\ gt_limit (Types.sizeBytes entry) (LRU.maxSizeBytes (Shard.lru s)) = false)
         (Store.shards st) ->
  Shard.expiredAt (Types.expiresAt entry) later = false ->
  let r := Store.set k v ttlSec None ifNoneMatch env st in
  r.1 = Errors.Ok (Shard.RSet (env 0%nat).2 (Types.expiresAt entry))
  /\ exists e',
       (Store.get k later r.2).1 = Errors.Ok (Some e')
       /\ Types.key e' = k /\ Types.value e' = v
       /\ Types.type e' = Validators.inferValueType v
       /\ Types.version e' = (env 0%nat).2
       /\ Types.expiresAt e' = Types.expiresAt entry
       /\ Types.updatedAt e' = (env 0%nat).1.
Proof.
  intros Hnm Hbp Hn Hlen Hentry Hall Hlive r.
  destruct (shardIndexFor_ok k st Hn Hlen) as (i & s & Hi & Hs & Hhash).
  rewrite Forall_forall in Hall.
  destruct (Hall s (list_elem_of_lookup_2 _ _ _ Hs))
    as (Hp & Hq & Hmax & Hl & Hcap & Hitem & Hfit).
  set (now := (env 0%nat).1) in *. set (ver := (env 0%nat).2) in *.
  set (op := Types.mkOp Types.OpSet k (Some (Types.EntryOf entry)) None ifNoneMatch).
  set (s0 := Shard.with_operationQueue [] (Shard.with_isProcessing true s)).
  destruct (enqueue_idle op now ver s Hp Hq Hmax) as (Henq & Hq1 & Hp1). fold s0 in Henq, Hq1, Hp1.
  assert (Hexec : Shard.executeOperation op now ver s0 = Shard.executeSet op now ver s0)
    by done.
  rewrite Hexec in Henq, Hq1, Hp1.
  pose proof (createEntry_size_nonneg _ _ _ _ _ Hentry) as Hsz.
  assert (Hok : (Shard.executeSet op now ver s0).1
                = Errors.Ok (Shard.RSet ver (Types.expiresAt entry))).
  { by apply executeSet_unconditional. }
  pose proof (executeSet_stores op entry now ver s0 _ Hl Hcap eq_refl Hsz Hok Hfit) as Hst.
  cbn [Types.opKey op] in Hst.
  set (s1 := (Shard.executeSet op now ver s0).2) in *.
  assert (Hset : r = (Errors.Ok (Shard.RSet ver (Types.expiresAt entry)),
                      Store.with_shards
                        (<[i:=Shard.with_isProcessing false s1]> (Store.shards st)) st)).
  { unfold r, Store.set, Store.onShard. rewrite Hbp, Hi, Hs.
    unfold Shard.set. fold now ver. rewrite Hentry. fold op. rewrite Henq.
    unfold Store.awaitOp. rewrite Hq1. simpl length.
    rewrite (settle_idle_after 0 env 1 s1 Hp1 Hq1). simpl. by rewrite Hok. }
  rewrite Hset. cbn [fst snd]. split; [done|].
  set (stored := Types.mkEntry _ _ _ _ _ _ _ _) in Hst.
  exists stored.
  destruct (createEntry_Ok _ _ _ _ _ Hentry) as (Hk & Hv & Hty & _).
  split; [|unfold stored; simpl; repeat split; assumption || reflexivity].
  set (st' := Store.with_shards _ st).
  assert (Store.checkBackpressure st' = None) as Hbp' by exact Hbp.
  unfold Store.get. rewrite Hbp'. unfold st'.
  assert (Store.shardIndexFor k
            (Store.with_shards (<[i:=Shard.with_isProcessing false s1]> (Store.shards st)) st)
          = Errors.Ok i) as ->.
  { unfold Store.shardIndexFor in Hi |- *. cbn [Store.numShards Store.with_shards Store.shards].
    destruct (Hashing.getShardForKey k (Store.numShards st)) as [shardId|]; [|done].
    injection Hhash as ->.
    rewrite Nat2Z.id. pose proof (lookup_lt_Some _ _ _ Hs) as Hlt.
    rewrite list_lookup_insert_eq by done.
    rewrite (proj2 (Z.ltb_ge _ _)) by lia. rewrite (proj2 (Z.leb_gt _ _)) by lia.
    done. }
  cbn [Store.shards Store.with_shards].
  rewrite list_lookup_insert_eq by (by eapply lookup_lt_Some).
  unfold Shard.get. cbn [Shard.entries Shard.with_isProcessing]. rewrite Hst.
  cbn [Types.expiresAt stored]. rewrite Hlive. done.
Qed.

(** X22.  What is set through the store can be read through the store.
    On a store that is not overloaded and whose shards are idle, agree
    with their LRUs and have room for the entry, [set(key, value,
    ttlSec)] of a storable value without [ifMatch] and without a true
    [ifNoneMatch] resolves with the new version, and a later [get(key)],
    at a time at which the entry has not expired, returns an entry with
    the value set, its inferred type and the version the set resolved
    with. *)
Theorem store_set_then_get (k : string) (v : Types.JsValue) (ttlSec : option Z)
    (ifNoneMatch : option bool) (entry : Types.CacheEntry) (env : Store.Env) (later : Z)
    (st : Store.CacheStore) :
  ifNoneMatch <> Some true ->
  Store.checkBackpressure st = None ->
  0 < Store.numShards st ->
  length (Store.shards st) = Z.to_nat (Store.numShards st) ->
  Shard.createEntry k v ttlSec (env 0%nat).1 = Errors.Ok entry ->
  Forall (fun s => Shard.isProcessing s = false /\ Shard.operationQueue s = []
                   /\ 0 < Shard.maxMailboxSize s
                   /\ Shard.linked s /\ LRU.capacity (Shard.lru s) = Infinity
                   /\ Types.sizeBytes entry <= Shard.maxItemBytes s
                   /\ gt_limit (Types.sizeBytes entry) (LRU.maxSizeBytes (Shard.lru s)) = false)
         (Store.shards st) ->
  Shard.expiredAt (Types.expiresAt entry) later = false ->
  let r := Store.set k v ttlSec None ifNoneMatch env st in
  r.1 = Errors.Ok (Shard.RSet (env 0%nat).2 (Types.expiresAt entry))
  /\ exists e',
       (Store.get k later r.2).1 = Errors.Ok (Some e')
       /\ Types.key e' = k /\ Types.value e' = v
       /\ Types.type e' = Validators.inferValueType v
       /\ Types.version e' = (env 0%nat).2
       /\ Types.expiresAt e' = Types.expiresAt entry
       /\ Types.updatedAt e' = (env 0%nat).1.
Proof. apply set_then_get_through_store. Qed.

Lemma store2_shards :
  forall s, s ∈ Store.shards Scenarios.store2 ->
            s = Shard.create 0 1000 None 1000 \/ s = Shard.create 1 1000 None 1000.
Proof.
  intros s Hs. change (Store.shards Scenarios.store2)
    with [Shard.create 0 1000 None 1000; Shard.create 1 1000 None 1000] in Hs.
  apply elem_of_cons in Hs as [->|Hs]; [by left|].
  apply list_elem_of_singleton in Hs as ->. by right.
Qed.

Lemma store_set_then_get_witness :
  Store.checkBackpressure Scenarios.store2 = None
  /\ exists e',
       (Store.get "k" 2000
          (Store.set "k" (Types.JString "b") None None None Scenarios.env0
             Scenarios.store2).2).1 = Errors.Ok (Some e')
       /\ Types.value e' = Types.JString "b".
Proof.
  split; [reflexivity|].
  destruct (store_set_then_get "k" (Types.JString "b") None None
              (Types.mkEntry "k" (Types.JString "b") Types.TString EmptyString
                 1000 1000 None 1)
              Scenarios.env0 2000 Scenarios.store2)
    as (_ & e' & H1 & _ & H2 & _);
    [discriminate | reflexivity | reflexivity | reflexivity | reflexivity | | reflexivity |].
  - apply Forall_forall. intros s Hs.
    destruct (store2_shards s Hs) as [-> | ->];
      (split; [reflexivity|]; split; [reflexivity|]; split; [reflexivity|];
       split; [apply linked_create|]; split; [reflexivity|];
       split; [vm_compute; discriminate|reflexivity]).
  - by exists e'.
Defined.

Lemma batchSet_results_shape_witness :
  Store.checkBackpressure Scenarios.store2 = None
  /\ exists results,
       (Store.batchSet [Store.mkItem "a" (Types.JString "x") None;
                        Store.mkItem "b" (Types.JNumber 1%float) (Some 60)]
          Scenarios.env0 Scenarios.store2).1 = Errors.Ok results
       /\ map Store.key results = ["a"; "b"].
Proof.
  split; [reflexivity|].
  destruct (batchSet_results_shape
              [Store.mkItem "a" (Types.JString "x") None;
               Store.mkItem "b" (Types.JNumber 1%float) (Some 60)]
              Scenarios.env0 Scenarios.store2)
    as (results & H1 & _ & _ & H2); [reflexivity | reflexivity | reflexivity | |].
  - apply Forall_forall. intros s Hs. by destruct (store2_shards s Hs) as [-> | ->].
  - exists results. split; [exact H1|]. apply H2. simpl.
    apply NoDup_cons. split; [|apply NoDup_singleton].
    intros Hin. apply list_elem_of_singleton in Hin. discriminate Hin.
Defined.

Lemma batchDelete_results_shape_witness :
  Store.checkBackpressure Scenarios.store2 = None
  /\ exists results,
       (Store.batchDelete ["a"; "b"] Scenarios.env0 Scenarios.store2).1 = Errors.Ok results
       /\ map Store.key results = ["a"; "b"].
Proof.
  split; [reflexivity|].
  destruct (batchDelete_results_shape ["a"; "b"] Scenarios.env0 Scenarios.store2)
    as (results & H1 & _ & _ & H2); [reflexivity | reflexivity | reflexivity | |].
  - apply Forall_forall. intros s Hs. by destruct (store2_shards s Hs) as [-> | ->].
  - exists results. split; [exact H1|]. apply H2. simpl.
    apply NoDup_cons. split; [|apply NoDup_singleton].
    intros Hin. apply list_elem_of_singleton in Hin. discriminate Hin.
Defined.

(** * The route of PUT *)

Lemma lru_get_limits {T : Type} (k : string) (l : LRU.SizeAwareLRU T) :
  LRU.capacity (LRU.get k l).2 = LRU.capacity l
  /\ LRU.maxSizeBytes (LRU.get k l).2 = LRU.maxSizeBytes l.
Proof. unfold LRU.get. by destruct (LRU.cache_get k (LRU.nodes l)). Qed.

Lemma lru_delete_limits {T : Type} (k : string) (l : LRU.SizeAwareLRU T) :
  LRU.capacity (LRU.delete k l).2 = LRU.capacity l
  /\ LRU.maxSizeBytes (LRU.delete k l).2 = LRU.maxSizeBytes l.
Proof. unfold LRU.delete. by destruct (LRU.cache_get k (LRU.nodes l)). Qed.

(** A read changes neither the mailbox nor the limits of the shard. *)
Lemma get_frame (k : string) (now : Z) (s : Shard.CacheShard) :
  Shard.isProcessing (Shard.get k now s).2 = Shard.isProcessing s
  /\ Shard.operationQueue (Shard.get k now s).2 = Shard.operationQueue s
  /\ Shard.maxMailboxSize (Shard.get k now s).2 = Shard.maxMailboxSize s
  /\ Shard.maxItemBytes (Shard.get k now s).2 = Shard.maxItemBytes s
  /\ LRU.capacity (Shard.lru (Shard.get k now s).2) = LRU.capacity (Shard.lru s)
  /\ LRU.maxSizeBytes (Shard.lru (Shard.get k now s).2) = LRU.maxSizeBytes (Shard.lru s).
Proof.
  unfold Shard.get, Shard.deleteEntry.
  destruct (Shard.entries s !! k) as [e|] eqn:He; [|done].
  destruct (Shard.expiredAt (Types.expiresAt e) now); rewrite ?He; cbn -[LRU.get LRU.delete].
  - destruct (lru_delete_limits k (Shard.lru s)) as [-> ->]. done.
  - destruct (lru_get_limits k (Shard.lru s)) as [-> ->]. done.
Qed.

(** A [get] through the store returns, and leaves a store that is as fit
    for a set as it was. *)
Lemma store_get_frame (k : string) (now : Z) (sz : Z) (st : Store.CacheStore) :
  Store.checkBackpressure st = None ->
  0 < Store.numShards st ->
  length (Store.shards st) = Z.to_nat (Store.numShards st) ->
  Forall (fun s => Shard.isProcessing s = false /\ Shard.operationQueue s = []
                   /\ 0 < Shard.maxMailboxSize s
                   /\ Shard.linked s /\ LRU.capacity (Shard.lru s) = Infinity
                   /\ sz <= Shard.maxItemBytes s
                   /\ gt_limit sz (LRU.maxSizeBytes (Shard.lru s)) = false)
         (Store.shards st) ->
  exists r st',
    Store.get k now st = (Errors.Ok r, st')
    /\ Store.checkBackpressure st' = None
    /\ Store.numShards st' = Store.numShards st
    /\ length (Store.shards st') = Z.to_nat (Store.numShards st')
    /\ Forall (fun s => Shard.isProcessing s = false /\ Shard.operationQueue s = []
                        /\ 0 < Shard.maxMailboxSize s
                        /\ Shard.linked s /\ LRU.capacity (Shard.lru s) = Infinity
                        /\ sz <= Shard.maxItemBytes s
                        /\ gt_limit sz (LRU.maxSizeBytes (Shard.lru s)) = false)
              (Store.shards st').
Proof.
  intros Hbp Hn Hlen Hall.
  destruct (shardIndexFor_ok k st Hn Hlen) as (i & s & Hi & Hs & _).
  unfold Store.get. rewrite Hbp, Hi, Hs.
  destruct (get_frame k now s) as (E1 & E2 & E3 & E4 & E5 & E6).
  pose proof (linked_get k now s) as Hlinked.
  destruct (Shard.get k now s) as [r s']. cbn [fst snd] in *.
  exists r, (Store.with_shards (<[i:=s']> (Store.shards st)) st).
  split; [done|]. split; [exact Hbp|]. split; [done|].
  split; [simpl; by rewrite length_insert|].
  simpl. rewrite Forall_forall in Hall.
  destruct (Hall s (list_elem_of_lookup_2 _ _ _ Hs)) as (? & ? & ? & ? & ? & ? & ?).
  apply Forall_insert; [by apply Forall_forall|].
  rewrite E1, E2, E3, E4, E5, E6.
  split; [done|]. split; [done|]. split; [done|]. split; [by apply Hlinked|]. done.
Qed.

(** A read that hits finds the same entry when it is repeated. *)
Lemma store_get_again (k : string) (now : Z) (e : Types.CacheEntry) (st : Store.CacheStore) :
  (Store.get k now st).1 = Errors.Ok (Some e) ->
  (Store.get k now (Store.get k now st).2).1 = Errors.Ok (Some e).
Proof.
  unfold Store.get at 1 3.
  destruct (Store.checkBackpressure st) eqn:Hbp; [discriminate|].
  destruct (Store.shardIndexFor k st) as [i|] eqn:Hi; [|discriminate].
  destruct (Store.shards st !! i) as [s|] eqn:Hs; [|discriminate].
  destruct (Shard.get k now s) as [r s'] eqn:Hget. cbn [fst snd].
  intros [= ->].
  assert (Shard.entries s !! k = Some e
          /\ Shard.expiredAt (Types.expiresAt e) now = false
          /\ Shard.entries s' = Shard.entries s) as (He & Hlive & Hent).
  { unfold Shard.get in Hget. destruct (Shard.entries s !! k) as [x|]; [|discriminate].
    destruct (Shard.expiredAt (Types.expiresAt x) now) eqn:Hx; [discriminate|].
    injection Hget as -> <-. done. }
  set (st' := Store.with_shards (<[i:=s']> (Store.shards st)) st).
  assert (Store.checkBackpressure st' = None) as Hbp' by exact Hbp.
  pose proof (lookup_lt_Some _ _ _ Hs) as Hlt.
  assert (Store.shardIndexFor k st' = Errors.Ok i) as Hi'.
  { unfold Store.shardIndexFor in Hi |- *. cbn [Store.numShards st' Store.with_shards Store.shards].
    destruct (Hashing.getShardForKey k (Store.numShards st)) as [shardId|]; [|done].
    destruct ((shardId <? 0) || (Store.numShards st <=? shardId)) eqn:Hc; [done|].
    cbn [orb] in Hi |- *.
    destruct (Store.shards st !! Z.to_nat shardId) as [x|] eqn:Hx; [|done].
    injection Hi as <-. rewrite length_insert.
    destruct (decide (Z.to_nat shardId = Z.to_nat shardId)); [|done].
    by rewrite (list_lookup_insert_eq _ _ _ (lookup_lt_Some _ _ _ Hx)). }
  unfold Store.get. rewrite Hbp', Hi'. cbn [Store.shards st' Store.with_shards].
  rewrite list_lookup_insert_eq by done.
  unfold Shard.get. rewrite Hent, He, Hlive. done.
Qed.

(** A TTL admitted by the schema expires after the clock reading it is
    added to. *)
Lemma createEntry_not_expired (k : string) (v : Types.JsValue) (ttlSec : option Z)
    (now : Z) (e : Types.CacheEntry) :
  match ttlSec with Some t => Validators.TTLSchema t = true | None => True end ->
  Shard.createEntry k v ttlSec now = Errors.Ok e ->
  Shard.expiredAt (Types.expiresAt e) now = false.
Proof.
  intros Httl. unfold Shard.createEntry.
  destruct (Validators.validateInferredValue v) as [[v' t]|]; [|discriminate].
  intros [= <-]. cbn [Types.expiresAt].
  destruct ttlSec as [ttl|]; [|done].
  unfold Validators.TTLSchema in Httl. apply andb_true_iff in Httl as [H0 _].
  apply Z.leb_le in H0. unfold truthyZ.
  destruct (ttl =? 0) eqn:E; simpl; [done|]. apply Z.eqb_neq in E.
  apply andb_false_iff. right. apply Z.leb_gt. lia.
Qed.

(** X25.  PUT creates or updates.  A [PUT /v1/kv/:key] with a valid key
    and body, a payload within [maxItemBytes] and no conditional header,
    on a store that is not overloaded and whose shards are idle and have
    room for the entry, is answered with 201 when [store.get(key)] found
    no live entry before the set, and with 200 when it found one; the
    body carries the version of the set, and a [get] of the key right
    after the response returns the value of the request under that
    version. *)
Theorem put_creates_or_updates (maxItemBytes : Z) (req : Boundary.PutRequest)
    (entry : Types.CacheEntry) (env : Store.Env) (st : Store.CacheStore) :
  Validators.KeySchema (Boundary.putKey req) = true ->
  Validators.SetRequestSchema (Boundary.putValue req) (Boundary.putTtlSec req) = true ->
  Boundary.payloadSize req <= maxItemBytes ->
  Boundary.ifMatchHeader req = None -> Boundary.ifNoneMatchHeader req = None ->
  Shard.createEntry (Boundary.putKey req) (Boundary.putValue req) (Boundary.putTtlSec req)
                    (env 0%nat).1 = Errors.Ok entry ->
  Store.checkBackpressure st = None ->
  0 < Store.numShards st ->
  length (Store.shards st) = Z.to_nat (Store.numShards st) ->
  Forall (fun s => Shard.isProcessing s = false /\ Shard.operationQueue s = []
                   /\ 0 < Shard.maxMailboxSize s
                   /\ Shard.linked s /\ LRU.capacity (Shard.lru s) = Infinity
                   /\ Types.sizeBytes entry <= Shard.maxItemBytes s
                   /\ gt_limit (Types.sizeBytes entry) (LRU.maxSizeBytes (Shard.lru s)) = false)
         (Store.shards st) ->
  let r := Boundary.putRoute maxItemBytes req env st in
  r.1 = Boundary.mkResponse
          (match (Store.get (Boundary.putKey req) (env 0%nat).1 st).1 with
           | Errors.Ok (Some _) => 200
           | _ => 201
           end)
          []
          (Boundary.SetBody (env 0%nat).2
             (if truthyOZ (Types.expiresAt entry) then Types.expiresAt entry else None))
  /\ exists e',
       (Store.get (Boundary.putKey req) (env 0%nat).1 r.2).1 = Errors.Ok (Some e')
       /\ Types.value e' = Boundary.putValue req
       /\ Types.version e' = (env 0%nat).2.
Proof.
  intros Hkey Hbody Hsize Him Hinm Hentry Hbp Hn Hlen Hall r.
  set (k := Boundary.putKey req) in *. set (now := (env 0%nat).1) in *.
  assert (Hlive : Shard.expiredAt (Types.expiresAt entry) now = false).
  { eapply createEntry_not_expired; [|exact Hentry].
    unfold Validators.SetRequestSchema in Hbody. apply andb_true_iff in Hbody as [_ Httl].
    by destruct (Boundary.putTtlSec req). }
  destruct (store_get_frame k now (Types.sizeBytes entry) st Hbp Hn Hlen Hall)
    as (r0 & st1 & Hget1 & Hbp1 & Hn1 & Hlen1 & Hall1).
  rewrite <- Hn1 in Hn.
  destruct (set_then_get_through_store k (Boundary.putValue req) (Boundary.putTtlSec req)
              (Some false) entry env now st1 ltac:(discriminate) Hbp1 Hn Hlen1 Hentry
              Hall1 Hlive) as (Hset & e' & Hget2 & _ & Hv & _ & Hver & _).
  assert (Hr : r = (Boundary.mkResponse
                      (match r0 with Some _ => 200 | None => 201 end) []
                      (Boundary.SetBody (env 0%nat).2
                         (if truthyOZ (Types.expiresAt entry)
                          then Types.expiresAt entry else None)),
                    (Store.get k now
                       (Store.set k (Boundary.putValue req) (Boundary.putTtlSec req) None
                          (Some false) env st1).2).2)).
  { unfold r, Boundary.putRoute. fold k now. rewrite Hkey, Hbody. cbn [negb].
    rewrite (proj2 (Z.ltb_ge _ _)) by lia. rewrite Him, Hinm. cbn [truthyOS andb].
    rewrite Hget1.
    destruct (Store.set k (Boundary.putValue req) (Boundary.putTtlSec req) None
                (Some false) env st1) as [out st2]. cbn [fst snd] in *. rewrite Hset.
    destruct (Store.get k now st2) as [out3 st3]. cbn [fst snd] in *. rewrite Hget2.
    by destruct r0. }
  rewrite Hr. cbn [fst snd]. rewrite Hget1. cbn [fst]. split; [by destruct r0|].
  exists e'. split; [|done]. by apply store_get_again.
Qed.

Lemma put_creates_or_updates_witness :
  Store.checkBackpressure Scenarios.store2 = None
  /\ Boundary.status
       (Boundary.putRoute 1000
          (Boundary.mkPut "k" (Types.JString "b") None 13 None None)
          Scenarios.env0 Scenarios.store2).1 = 201.
Proof.
  split; [reflexivity|].
  destruct (put_creates_or_updates 1000
              (Boundary.mkPut "k" (Types.JString "b") None 13 None None)
              (Types.mkEntry "k" (Types.JString "b") Types.TString EmptyString
                 1000 1000 None 1)
              Scenarios.env0 Scenarios.store2) as [H _];
    [reflexivity | reflexivity | vm_compute; discriminate | reflexivity | reflexivity
    | reflexivity | reflexivity | reflexivity | reflexivity | |].
  - apply Forall_forall. intros s Hs.
    destruct (store2_shards s Hs) as [-> | ->];
      (split; [reflexivity|]; split; [reflexivity|]; split; [reflexivity|];
       split; [apply linked_create|]; split; [reflexivity|];
       split; [vm_compute; discriminate|reflexivity]).
  - rewrite H. vm_compute. reflexivity.
Defined.
